(** * Hot Module Replacement server and debugger proxy of the packager

    A shallow embedding of
      - [local-cli/server/util/webSocketProxy.js]  (module [WebSocketProxy])
      - [local-cli/server/util/attachHMRServer.js] (module [HMR])
      - the AsyncStorage module that follows the proxy in
        [webSocketProxy.js]                        (module [AsyncStorage])
    together with the properties the design document states about them.

    Conventions.  A WebSocket object is identified by a number.  What the
    code does to the outside world (frames written to a socket, sockets
    closed, callbacks stored on a socket object, calls into the packager)
    is recorded, in program order, in a list of operations. *)

From stdpp Require Import gmap strings list.
From Stdlib Require Import ZArith String Ascii.

(** ** Small pieces of JavaScript shared by both files *)

(** [s.indexOf(sub)]: position of the first occurrence, [-1] when absent. *)
Definition indexOf (s sub : string) : Z :=
  match String.index 0 sub s with
  | Some n => Z.of_nat n
  | None => (-1)%Z
  end.

(** The double quote character, for the JSON text the code builds. *)
Definition dquote : string := String (ascii_of_nat 34) EmptyString.

(** A WebSocket object ([ws]), by identity. *)
Definition Socket := nat.

(* ===================================================================== *)
(** ** webSocketProxy.js *)
(* ===================================================================== *)

Module WebSocketProxy.

(** The four function values [attachToServer] stores on sockets.  Each is
    a closure over the two variables [debuggerSocket] and [clientSocket];
    none of them looks at the socket it was called on. *)
Inductive Callback : Type :=
  | DebuggerGone      (* lines 42-47: debuggerSocket.onerror = .onclose *)
  | DebuggerMessage   (* lines 48-51: debuggerSocket.onmessage *)
  | ClientGone        (* lines 58-61: clientSocket.onerror = .onclose *)
  | ClientMessage.    (* lines 62-65: clientSocket.onmessage *)

(** The three callback properties of one socket object. *)
Record Callbacks : Type := mkCallbacks {
  onerror : option Callback;
  onclose : option Callback;
  onmessage : option Callback
}.

Inductive Slot : Type := OnError | OnClose | OnMessage.

(** What the broker does to sockets. *)
Inductive Op : Type :=
  | Assign (ws : Socket) (slot : Slot) (f : option Callback)
      (* ws.onxxx = f *)
  | Send (dest : Socket) (message : string)
      (* dest.send(message), inside the try of [send]: a throw of a socket
         that is not open is caught and only logged *)
  | Close (ws : Socket) (code : Z) (reason : string).
      (* ws.close(code, reason) *)

(** The variables of [attachToServer], and the callback properties of the
    socket objects (a socket that is not in the map has none set). *)
Record State : Type := mkState {
  debuggerSocket : option Socket;
  clientSocket : option Socket;
  callbacks : gmap nat Callbacks
}.

Definition init : State :=
  {| debuggerSocket := None; clientSocket := None; callbacks := ∅ |}.

Definition no_callbacks : Callbacks :=
  {| onerror := None; onclose := None; onmessage := None |}.

Definition callbacks_of (st : State) (ws : Socket) : Callbacks :=
  default no_callbacks (callbacks st !! ws).

Definition set_slot (slot : Slot) (f : option Callback) (c : Callbacks)
  : Callbacks :=
  match slot with
  | OnError => {| onerror := f; onclose := onclose c; onmessage := onmessage c |}
  | OnClose => {| onerror := onerror c; onclose := f; onmessage := onmessage c |}
  | OnMessage => {| onerror := onerror c; onclose := onclose c; onmessage := f |}
  end.

(** [ws.onxxx = f] *)
Definition assign (ws : Socket) (slot : Slot) (f : option Callback)
    (st : State) : State :=
  {| debuggerSocket := debuggerSocket st;
     clientSocket := clientSocket st;
     callbacks := <[ws := set_slot slot f (callbacks_of st ws)]> (callbacks st) |}.

Definition set_debuggerSocket (v : option Socket) (st : State) : State :=
  {| debuggerSocket := v; clientSocket := clientSocket st;
     callbacks := callbacks st |}.

Definition set_clientSocket (v : option Socket) (st : State) : State :=
  {| debuggerSocket := debuggerSocket st; clientSocket := v;
     callbacks := callbacks st |}.

(** [function send(dest, message)], lines 19-30. *)
Definition send (dest : option Socket) (message : string) : list Op :=
  match dest with
  | None => []
  | Some d => [Send d message]
  end.

(** [JSON.stringify({ method: '$disconnected' })] *)
Definition disconnected_json : string :=
  "{" +:+ dquote +:+ "method" +:+ dquote +:+ ":"
      +:+ dquote +:+ "$disconnected" +:+ dquote +:+ "}".

(** Running one of the stored callbacks; [data] is the [data] property of
    the event the callback receives. *)
Definition call (f : option Callback) (data : string) (st : State)
  : State * list Op :=
  match f with
  | None => (st, [])
  | Some DebuggerGone =>
      let st1 := set_debuggerSocket None st in
      match clientSocket st1 with
      | Some c => (st1, [Close c 1011 "Debugger was disconnected"])
      | None => (st1, [])
      end
  | Some DebuggerMessage => (st, send (clientSocket st) data)
  | Some ClientGone =>
      let st1 := set_clientSocket None st in
      (st1, send (debuggerSocket st1) disconnected_json)
  | Some ClientMessage => (st, send (debuggerSocket st) data)
  end.

(** The role a connection asks for, as lines 36, 52 and 66 read it off
    [url = ws.upgradeReq.url]. *)
Inductive Role : Type := Debugger | Client.

Definition role (url : string) : option Role :=
  if (indexOf url "role=debugger" >? -1)%Z then Some Debugger
  else if (indexOf url "role=client" >? -1)%Z then Some Client
  else None.

(** [wss.on('connection', function (ws) {...})], lines 32-69. *)
Definition connection (ws : Socket) (url : string) (st : State)
  : State * list Op :=
  match role url with
  | Some Debugger =>
      match debuggerSocket st with
      | Some _ => (st, [Close ws 1011 "Another debugger is already connected"])
      | None =>
          let st := set_debuggerSocket (Some ws) st in
          let st := assign ws OnClose (Some DebuggerGone) st in
          let st := assign ws OnError (Some DebuggerGone) st in
          let st := assign ws OnMessage (Some DebuggerMessage) st in
          (st, [Assign ws OnClose (Some DebuggerGone);
                Assign ws OnError (Some DebuggerGone);
                Assign ws OnMessage (Some DebuggerMessage)])
      end
  | Some Client =>
      let '(st, ops) :=
        match clientSocket st with
        | Some c =>
            let st := assign c OnMessage None st in
            let st := assign c OnClose None st in
            let st := assign c OnError None st in
            (st, [Assign c OnMessage None; Assign c OnClose None;
                  Assign c OnError None;
                  Close c 1011 "Another client connected"])
        | None => (st, [])
        end in
      let st := set_clientSocket (Some ws) st in
      let st := assign ws OnClose (Some ClientGone) st in
      let st := assign ws OnError (Some ClientGone) st in
      let st := assign ws OnMessage (Some ClientMessage) st in
      (st, ops ++ [Assign ws OnClose (Some ClientGone);
                   Assign ws OnError (Some ClientGone);
                   Assign ws OnMessage (Some ClientMessage)])
  | None => (st, [Close ws 1011 "Missing role param"])
  end.

(** What the WebSocket library delivers to the broker. *)
Inductive Event : Type :=
  | Connection (ws : Socket) (url : string)
  | MessageEv (ws : Socket) (data : string)
  | ErrorEv (ws : Socket)
  | CloseEv (ws : Socket).

Definition step (st : State) (ev : Event) : State * list Op :=
  match ev with
  | Connection ws url => connection ws url st
  | MessageEv ws data => call (onmessage (callbacks_of st ws)) data st
  | ErrorEv ws => call (onerror (callbacks_of st ws)) "" st
  | CloseEv ws => call (onclose (callbacks_of st ws)) "" st
  end.

(** A run: the final state and everything done, in order. *)
Fixpoint run (st : State) (evs : list Event) : State * list Op :=
  match evs with
  | [] => (st, [])
  | ev :: evs =>
      let '(st1, ops1) := step st ev in
      let '(st2, ops2) := run st1 evs in
      (st2, ops1 ++ ops2)
  end.

(** [isChromeConnected()], lines 73-75. *)
Definition isChromeConnected (st : State) : bool :=
  bool_decide (is_Some (debuggerSocket st)).

(** *** Vocabulary of the properties *)

(** The callbacks a socket carries once it was accepted in a role. *)
Definition debugger_callbacks : Callbacks :=
  {| onerror := Some DebuggerGone; onclose := Some DebuggerGone;
     onmessage := Some DebuggerMessage |}.

Definition client_callbacks : Callbacks :=
  {| onerror := Some ClientGone; onclose := Some ClientGone;
     onmessage := Some ClientMessage |}.

(** The sockets that connect in a run.  The server makes a new socket
    object for every connection, so in a run of the real system no socket
    occurs twice in this list. *)
Definition connections (evs : list Event) : list Socket :=
  omap (fun ev => match ev with Connection ws _ => Some ws | _ => None end) evs.

(** The socket [ws] closing or failing. *)
Definition gone (ws : Socket) (ev : Event) : Prop :=
  ev = ErrorEv ws \/ ev = CloseEv ws.

(** The socket [ws] still has the close callback of a client. *)
Definition carries_client_callback (st : State) (ws : Socket) : Prop :=
  onerror (callbacks_of st ws) = Some ClientGone
  \/ onclose (callbacks_of st ws) = Some ClientGone.

(** Any event the socket [ws] can deliver after it connected. *)
Definition from_socket (ws : Socket) (ev : Event) : Prop :=
  gone ws ev \/ exists data, ev = MessageEv ws data.

(** The operations of a superseding client connection, in order. *)
Definition supersede_ops (c ws : Socket) : list Op :=
  [Assign c OnMessage None; Assign c OnClose None; Assign c OnError None;
   Close c 1011 "Another client connected";
   Assign ws OnClose (Some ClientGone); Assign ws OnError (Some ClientGone);
   Assign ws OnMessage (Some ClientMessage)].

(** What holds of the broker after any run in which every connection
    brings a new socket; [seen] are the sockets that have connected. *)
Record Inv (seen : list Socket) (st : State) : Prop := mkInv {
  inv_unseen : forall s, s ∉ seen ->
    callbacks_of st s = no_callbacks
    /\ clientSocket st <> Some s /\ debuggerSocket st <> Some s;
  inv_client : forall c, clientSocket st = Some c ->
    callbacks_of st c = client_callbacks;
  inv_debugger : forall d, debuggerSocket st = Some d ->
    callbacks_of st d = debugger_callbacks
}.

(** A socket has no callbacks, those of a client or those of a debugger:
    the three are always assigned together. *)
Definition shaped (st : State) : Prop :=
  forall s, callbacks_of st s = no_callbacks
            \/ callbacks_of st s = client_callbacks
            \/ callbacks_of st s = debugger_callbacks.

(** "The notification is sent only when the currently active client
    itself closes or errors", read on the runs of the broker. *)
Definition notified_only_by_active_client : Prop :=
  forall (evs : list Event) (ws d : Socket) (ev : Event),
    NoDup (connections evs) ->
    gone ws ev ->
    In (Send d disconnected_json) (step (run init evs).1 ev).2 ->
    clientSocket (run init evs).1 = Some ws.

(** The socket an operation is applied to. *)
Definition target (op : Op) : Socket :=
  match op with
  | Assign ws _ _ => ws
  | Send dest _ => dest
  | Close ws _ _ => ws
  end.

(** The socket holds one of the two roles. *)
Definition registered (st : State) (ws : Socket) : Prop :=
  debuggerSocket st = Some ws \/ clientSocket st = Some ws.

(** The broker knows nothing of the socket: no callbacks, no role. *)
Definition unknown (st : State) (ws : Socket) : Prop :=
  callbacks_of st ws = no_callbacks
  /\ clientSocket st <> Some ws /\ debuggerSocket st <> Some ws.

(** A connection the broker turns away: no role asked for, or the
    debugger role while a debugger is registered. *)
Definition turned_away (st : State) (url : string) : Prop :=
  role url = None
  \/ (role url = Some Debugger /\ debuggerSocket st <> None).

(** The socket [ws] still has the close callback of a debugger. *)
Definition carries_debugger_callback (st : State) (ws : Socket) : Prop :=
  onerror (callbacks_of st ws) = Some DebuggerGone
  \/ onclose (callbacks_of st ws) = Some DebuggerGone.

(** The callback a socket runs when it closes or fails. *)
Definition gone_callback (st : State) (ev : Event) : option Callback :=
  match ev with
  | ErrorEv ws => onerror (callbacks_of st ws)
  | CloseEv ws => onclose (callbacks_of st ws)
  | _ => None
  end.

(** The text [{"method":"$disconnected"}], written without the constant
    [dquote]: ["034"] is the double quote character. *)
Definition notification_text : string :=
  String "{" (String "034" ("method" +:+ String "034" (":"
    +:+ String "034" ("$disconnected" +:+ String "034" "}")))).

(** The sockets of a run that neither failed nor closed, and that the
    broker did not close. *)
Definition still_open (evs : list Event) (ws : Socket) : Prop :=
  ws ∈ connections evs
  /\ ~ In (ErrorEv ws) evs /\ ~ In (CloseEv ws) evs
  /\ forall code reason, ~ In (Close ws code reason) (run init evs).2.

(** *** Sample runs *)

Definition debugger_url : string := "/debugger-proxy?role=debugger".
Definition client_url : string := "/debugger-proxy?role=client".

(** A debugger fails, a second debugger connects, and only then does the
    socket of the first one close; a client connects. *)
Definition stale_debugger_close : list Event :=
  [Connection 1 debugger_url; ErrorEv 1;
   Connection 2 debugger_url; CloseEv 1;
   Connection 9 client_url].

End WebSocketProxy.

(* ===================================================================== *)
(** ** JavaScript objects used as dictionaries *)
(* ===================================================================== *)

(** An object made by [Object.create(null)] and filled by assignment:
    its own properties, in creation order.  [Object.keys] lists the keys
    that are array indices first, in ascending numeric order, and then the
    other keys in creation order. *)
Module JSObject.

Definition digit (a : ascii) : option N :=
  let n := N_of_ascii a in
  if ((48 <=? n) && (n <=? 57))%N then Some (n - 48)%N else None.

Fixpoint digits (s : string) (acc : N) : option N :=
  match s with
  | EmptyString => Some acc
  | String a s' =>
      match digit a with
      | Some d => digits s' (acc * 10 + d)%N
      | None => None
      end
  end.

(** A canonical numeric string below [2^32 - 1] is an array index. *)
Definition array_index (k : string) : option N :=
  match k with
  | EmptyString => None
  | String a rest =>
      if (N_of_ascii a =? 48)%N && negb (String.eqb rest EmptyString) then None
      else
        match digits k 0 with
        | Some n => if (n <? 4294967295)%N then Some n else None
        | None => None
        end
  end.

Fixpoint insert_sorted (x : N * string) (l : list (N * string))
  : list (N * string) :=
  match l with
  | [] => [x]
  | y :: l' => if (x.1 <=? y.1)%N then x :: y :: l' else y :: insert_sorted x l'
  end.

Definition sort_indices (l : list (N * string)) : list (N * string) :=
  foldr insert_sorted [] l.

Section Values.
Context {V : Type}.

Definition t : Type := list (string * V).

Definition empty : t := [].

(** [o[k]]; [None] is [undefined]. *)
Fixpoint get (o : t) (k : string) : option V :=
  match o with
  | [] => None
  | (k', v) :: o' => if String.eqb k' k then Some v else get o' k
  end.

(** [o[k] = v]: an existing property keeps its place. *)
Fixpoint set (o : t) (k : string) (v : V) : t :=
  match o with
  | [] => [(k, v)]
  | (k', v') :: o' =>
      if String.eqb k' k then (k', v) :: o' else (k', v') :: set o' k v
  end.

Definition index_keys (o : t) : list (N * string) :=
  omap (fun kv => match array_index kv.1 with
                  | Some n => Some (n, kv.1)
                  | None => None
                  end) o.

Definition name_keys (o : t) : list string :=
  omap (fun kv => match array_index kv.1 with
                  | Some _ => None
                  | None => Some kv.1
                  end) o.

(** [Object.keys(o)] *)
Definition keys (o : t) : list string :=
  (sort_indices (index_keys o)).*2 ++ name_keys o.
End Values.

Arguments t : clear implicits.

End JSObject.

(* ===================================================================== *)
(** ** attachHMRServer.js *)
(* ===================================================================== *)

Module HMR.

(** *** Values exchanged with the collaborators *)

(** A module object of the resolver ([dep], [module] in the source), with
    what the code asks of it. *)
Record HasteModule : Type := mkModule {
  path : string;
  getName : string;
  isAsset : bool;
  isAsset_DEPRECATED : bool;
  isJSON : bool
}.

(** A resolution response: its [dependencies], and everything else, which
    this file never reads. *)
Record ResolutionResponse : Type := mkResponse {
  dependencies : list HasteModule;
  rest : string
}.

(** [response.copy({ dependencies: deps })] *)
Definition copy (response : ResolutionResponse) (deps : list HasteModule)
  : ResolutionResponse :=
  {| dependencies := deps; rest := rest response |}.

(** The argument of [packagerServer.getDependencies]; [recursive] is
    [None] when the property is not given. *)
Record DependencyOptions : Type := mkOptions {
  opt_platform : string;
  opt_dev : bool;
  opt_entryFile : string;
  opt_recursive : option bool
}.

(** An error object, with the properties the catch handler reads
    ([None]: the property is undefined). *)
Record JSError : Type := mkError {
  type : option string;
  description : option string;
  filename : option string;
  lineNumber : option Z
}.

(** The reason a promise is rejected with: [undefined] or [null], or a
    value whose properties can be read. *)
Inductive Reason : Type :=
  | Nullish
  | Raised (e : JSError).

(** How a promise settles. *)
Definition Settled (A : Type) : Type := Reason + A.

Definition InverseDependencies : Type := list (string * list string).

(** The bundle built for an update, with the answers of its methods. *)
Record Bundle : Type := mkBundle {
  isEmpty : bool;
  getModulesNamesAndCode : list (string * string);
  getSourceURLs : list string;
  getSourceMappingURLs : list string
}.

(** What the first [then] of the listener hands to the second: a response,
    or one of the placeholders [[]] and [{}] returned once the client is
    gone. *)
Inductive ResolutionValue : Type :=
  | Response (r : ResolutionResponse)
  | EmptyArray
  | EmptyObject.

(** The first argument of [packagerServer.buildBundleForHMR]. *)
Record BundleOptions : Type := mkBundleOptions {
  bo_entryFile : string;
  bo_platform : string;
  bo_resolutionResponse : ResolutionValue
}.

(** [httpServer.address()] *)
Record AddressInfo : Type := mkAddress {
  address : option string;
  port : Z
}.

(** The collaborators, as seen during one run: the packager server, the
    resolver's [getInverseDependencies], the HTTP server, and the event
    loop.  [dep.getName()] returns a promise, which resolves with the
    field [getName] of the module; in which order the promises of the
    modules of a response resolve, and the answers to the requests made
    for them arrive, is not for this file to say: [schedule_deps] gives
    the event loop's choices for the [Promise.all] of line 43,
    [schedule_names] for the one of line 78 (see [pick]). *)
Record Collaborators : Type := mkCollaborators {
  ps_getDependencies : DependencyOptions -> Settled ResolutionResponse;
  ps_getShallowDependencies : string -> Settled (list string);
  ps_getModuleForPath : string -> HasteModule;
  ps_buildBundleForHMR : BundleOptions -> string -> Z -> Settled Bundle;
  getInverseDependencies : ResolutionResponse -> Settled InverseDependencies;
  httpServer_address : AddressInfo;
  schedule_deps : ResolutionResponse -> list nat;
  schedule_names : ResolutionResponse -> list nat
}.

(** *** Messages to the client (the JSON texts, before [JSON.stringify]) *)

Record UpdateBody : Type := mkUpdateBody {
  modules : list (string * string);
  inverseDependencies : InverseDependencies;
  sourceURLs : list string;
  sourceMappingURLs : list string
}.

Record ErrorBody : Type := mkErrorBody {
  eb_type : option string;
  eb_description : option string;
  eb_filename : option string;
  eb_lineNumber : option Z
}.

Inductive Message : Type :=
  | UpdateStart                 (* { type: 'update-start' } *)
  | Update (body : UpdateBody)  (* { type: 'update', body } *)
  | Error (body : ErrorBody)    (* { type: 'error', body } *)
  | UpdateDone.                 (* { type: 'update-done' } *)

(** *** The session *)

(** The object held by the variable [client]. *)
Record Client : Type := mkClient {
  ws : Socket;
  platform : string;
  bundleEntry : string;
  dependenciesCache : list string;
  dependenciesModulesCache : JSObject.t HasteModule;
  shallowDependencies : gmap string (list string);
  inverseDependenciesCache : InverseDependencies
}.

(** The object the local [getDependencies] resolves to. *)
Record Snapshot : Type := mkSnapshot {
  snap_dependenciesCache : list string;
  snap_dependenciesModulesCache : JSObject.t HasteModule;
  snap_shallowDependencies : gmap string (list string);
  snap_inverseDependenciesCache : InverseDependencies;
  snap_resolutionResponse : ResolutionResponse
}.

(** What runs between two callbacks of a cycle, while it waits for a
    collaborator: nothing, [disconnect()] after the socket closed or
    failed, or an assignment to [client] or to its caches by another
    connection or by an overlapping cycle. *)
Inductive Interference : Type :=
  | Quiet
  | Disconnected
  | Replaced (c : Client).

(** The file change listener handed to the packager captures the inverse
    dependencies of the connection that installed it. *)
Record State : Type := mkState {
  client : option Client;
  listener : option InverseDependencies;
  pending : list Interference
}.

Inductive Effect : Type :=
  | WsSend (to : Socket) (m : Message)
  | GetDependencies (o : DependencyOptions)
  | GetShallowDependencies (p : string)
  | GetInverseDependencies (r : ResolutionResponse)
  | BuildBundleForHMR (o : BundleOptions) (host : string) (port : Z)
  | SetHMRFileChangeListener (l : option InverseDependencies)
  | ConsoleError (e : JSError)
  | UncaughtException (reason : Reason).
      (* [.done()] threw the reason of a rejection outside every promise *)

(** *** Promise chains as a monad: state, rejection, effects *)

Definition M (A : Type) : Type := State -> Settled A * State * list Effect.

Definition ret {A} (a : A) : M A := fun st => (inr a, st, []).

Definition throw {A} (e : Reason) : M A := fun st => (inl e, st, []).

(** [p.then(f)] *)
Definition bind {A B} (p : M A) (f : A -> M B) : M B :=
  fun st =>
    match p st with
    | (inr a, st1, effs1) =>
        let '(r, st2, effs2) := f a st1 in (r, st2, effs1 ++ effs2)
    | (inl e, st1, effs1) => (inl e, st1, effs1)
    end.

(** [p.catch(h)] *)
Definition catch {A} (p : M A) (h : Reason -> M A) : M A :=
  fun st =>
    match p st with
    | (inr a, st1, effs1) => (inr a, st1, effs1)
    | (inl e, st1, effs1) =>
        let '(r, st2, effs2) := h e st1 in (r, st2, effs1 ++ effs2)
    end.

#[global] Instance M_ret : MRet M := @ret.
#[global] Instance M_bind : MBind M := fun A B f p => bind p f.

Definition perform (e : Effect) : M unit := fun st => (inr tt, st, [e]).

Definition getClient : M (option Client) := fun st => (inr (client st), st, []).

Definition setClient (c : option Client) : M unit :=
  fun st => (inr tt, {| client := c; listener := listener st;
                        pending := pending st |}, []).

Definition setListener (l : option InverseDependencies) : M unit :=
  fun st => (inr tt, {| client := client st; listener := l;
                        pending := pending st |}, [SetHMRFileChangeListener l]).

Definition interfere (i : Interference) (st : State) : State :=
  match i with
  | Quiet => st
  | Disconnected => {| client := None; listener := None; pending := pending st |}
  | Replaced c => {| client := Some c; listener := listener st;
                     pending := pending st |}
  end.

(** The state once the next interference, if any, has taken place. *)
Definition interfered (st : State) : State :=
  match pending st with
  | [] => st
  | i :: later =>
      interfere i {| client := client st; listener := listener st;
                     pending := later |}
  end.

(** The chain is suspended until a promise settles. *)
Definition suspend : M unit := fun st => (inr tt, interfered st, []).

(** Calling a collaborator and waiting for the promise it returned. *)
Definition await {A} (call : Effect) (outcome : Settled A) : M A :=
  perform call ;; suspend ;;
  match outcome with
  | inr a => ret a
  | inl e => throw e
  end.

(** [p.done()]: the reason of a rejection is thrown again, outside every
    promise, where nothing catches it. *)
Definition done (p : M unit) : M unit :=
  fun st =>
    match p st with
    | (inl reason, st1, effs) =>
        (inl reason, st1, effs ++ [UncaughtException reason])
    | (inr a, st1, effs) => (inr a, st1, effs)
    end.

(** *** [Promise.all] and the event loop *)

(** A promise handed to [Promise.all], between two of its callbacks: it
    waits for a promise of a collaborator.  When that one settles the
    callback runs, and either settles the promise or makes a call to a
    collaborator, for whose promise it waits again. *)
Inductive Waiting (A : Type) : Type :=
  | Settles (outcome : Settled A)
  | Calls (call : Effect) (next : Waiting A).
Arguments Settles {A} outcome.
Arguments Calls {A} call next.

(** The callbacks a waiting promise has yet to run. *)
Fixpoint wakeups {A} (w : Waiting A) : nat :=
  match w with
  | Settles _ => 1
  | Calls _ next => S (wakeups next)
  end.

(** A position of the array handed to [Promise.all]: a promise that
    still waits, or the value it resolved with. *)
Abbreviation Element A := (Waiting A + A)%type.

Definition count_waiting {A} (elements : list (Element A)) : nat :=
  List.length (List.filter (fun e => match e with inl _ => true | inr _ => false end)
                 elements).

(** The [n]-th of the promises that still wait, with what stands before
    and after it. *)
Fixpoint nth_waiting {A} (n : nat) (elements : list (Element A))
  : option (list (Element A) * Waiting A * list (Element A)) :=
  match elements with
  | [] => None
  | inl w :: rest =>
      match n with
      | 0 => Some ([], w, rest)
      | S n =>
          match nth_waiting n rest with
          | Some (before, w', after) => Some (inl w :: before, w', after)
          | None => None
          end
      end
  | inr a :: rest =>
      match nth_waiting n rest with
      | Some (before, w', after) => Some (inr a :: before, w', after)
      | None => None
      end
  end.

(** Which of the waiting promises is woken next is the event loop's
    choice: [choice] counts through those that wait, round and round.
    The choice [0] takes the first in the order of the array. *)
Definition pick {A} (choice : nat) (elements : list (Element A))
  : option (list (Element A) * Waiting A * list (Element A)) :=
  nth_waiting (choice mod count_waiting elements) elements.

(** The event loop, as long as [Promise.all] is not settled.  Before
    each wake-up time has passed ([suspend]).  [settled] are the values
    resolved so far, in the order in which they were.  A rejection
    settles [Promise.all] at once: the chain moves on, through callbacks
    that wait for nothing, and what the promises that are still waiting
    do when they are woken comes after the chain has ended.  When
    [choices] is used up the first waiting promise is taken. *)
Fixpoint event_loop {A} (fuel : nat) (choices : list nat)
    (elements : list (Element A)) (settled : list A)
  : M (list (Element A) * list A) :=
  match fuel with
  | 0 => mret (elements, settled)
  | S fuel =>
      match pick (List.hd 0 choices) elements with
      | None => mret (elements, settled)
      | Some (before, w, after) =>
          suspend ;;
          match w with
          | Calls call next =>
              perform call ;;
              event_loop fuel (List.tl choices)
                (before ++ inl next :: after) settled
          | Settles (inr a) =>
              event_loop fuel (List.tl choices)
                (before ++ inr a :: after) (settled ++ [a])
          | Settles (inl reason) => throw reason
          end
      end
  end.

Definition resolved {A} (elements : list (Element A)) : list A :=
  omap (fun e => match e with inr a => Some a | inl _ => None end) elements.

(** [Promise.all(ps)]: the values in the order of [ps], and, for the
    callbacks that fill an object as they run, the values in the order
    in which the promises resolved.  The fuel is the number of callbacks
    there are to run. *)
Definition all {A} (choices : list nat) (ps : list (Waiting A))
  : M (list A * list A) :=
  r ← event_loop (sum_list (wakeups <$> ps)) choices (inl <$> ps) [];
  mret (resolved r.1, r.2).

(** *** The code *)

(** [function arrayEquals(arrayA, arrayB)], lines 283-289. *)
Fixpoint every_from {A} (f : A -> nat -> bool) (index : nat) (l : list A)
  : bool :=
  match l with
  | [] => true
  | element :: l' => f element index && every_from f (S index) l'
  end.

(** [array.every(f)] *)
Definition every {A} (f : A -> nat -> bool) (l : list A) : bool :=
  every_from f 0 l.

Definition arrayEquals (arrayA arrayB : option (list string)) : bool :=
  let arrayA := default [] arrayA in
  let arrayB := default [] arrayB in
  Nat.eqb (List.length arrayA) (List.length arrayB)
  && every (fun element index =>
              bool_decide (Some element = arrayB !! index)) arrayA.

(** The result of the comparison at line 141. *)
Inductive Change : Type := ShallowEquivalent | Structural.

Definition classify (c : Client) (file : string) (deps : list string)
  : Change :=
  let oldDependencies := shallowDependencies c !! file in
  if arrayEquals (Some deps) oldDependencies then ShallowEquivalent
  else Structural.

(** Lines 172-187: the modules of the update after a structural change. *)
Definition modulesToUpdate (changed : HasteModule)
    (old new : JSObject.t HasteModule) : list HasteModule :=
  let modulesToUpdate := [changed] in
  let modulesToUpdate :=
    fold_left
      (fun acc module =>
         match JSObject.get old module with
         | Some _ => acc
         | None =>
             match JSObject.get new module with
             | Some m => acc ++ [m]
             | None => acc   (* not reached: [module] is a key of [new] *)
             end
         end)
      (JSObject.keys new) modulesToUpdate in
  rev modulesToUpdate.

(** Lines 189-192: invalidate caches. *)
Definition invalidate (c : Client) (s : Snapshot) : Client :=
  {| ws := ws c; platform := platform c; bundleEntry := bundleEntry c;
     dependenciesCache := snap_dependenciesCache s;
     dependenciesModulesCache := snap_dependenciesModulesCache s;
     shallowDependencies := snap_shallowDependencies s;
     inverseDependenciesCache := inverseDependenciesCache c |}.

(** Lines 210-214: sanitize the value from the HTTP server. *)
Definition packagerHost (a : AddressInfo) : string :=
  match address a with
  | Some s =>
      if negb (String.eqb s "") && negb (String.eqb s "::")
         && negb (String.eqb s "")
      then s else "localhost"
  | None => "localhost"
  end.

Definition internal_error_description : string :=
  "react-packager has encountered an internal error, "
  +:+ "please check your terminal error output for more details".

(** Reading [client.ws] when [client] is [null]. *)
Definition TypeError : JSError :=
  {| type := None;
     description := Some "Cannot read property 'ws' of null";
     filename := None; lineNumber := None |}.

(** Reading [error.type] when [error] is [undefined] or [null]. *)
Definition TypeError_type : JSError :=
  {| type := None;
     description := Some "Cannot read property 'type' of undefined";
     filename := None; lineNumber := None |}.

(** [client.ws.send(m)] *)
Definition clientSend (m : Message) : M unit :=
  c ← getClient;
  match c with
  | Some c => perform (WsSend (ws c) m)
  | None => throw (Raised TypeError)
  end.

(** One element of [deps] in the local [getDependencies]. *)
Record DepInfo : Type := mkDepInfo {
  di_path : string;
  di_name : option string;
  di_deps : list string
}.

(** Lines 77-81: the map from module name to module.  Each module is
    stored by the callback of its [getName()] promise: [deps] are the
    modules in the order in which these callbacks ran. *)
Definition module_index (deps : list HasteModule) : JSObject.t HasteModule :=
  fold_left (fun o dep => JSObject.set o (getName dep) dep) deps JSObject.empty.

Section Server.
Variable co : Collaborators.

(** Lines 44-55: [dep.getName().then(function (depName) {...})], one
    element of the first [Promise.all].  It waits for the name; its
    callback settles it at once for an asset or a JSON file, and
    otherwise asks for the shallow dependencies and waits for them. *)
Definition dependency (dep : HasteModule) : Waiting DepInfo :=
  let depName := getName dep in
  if isAsset dep || isAsset_DEPRECATED dep || isJSON dep then
    Settles (inr {| di_path := path dep; di_name := None; di_deps := [] |})
  else
    Calls (GetShallowDependencies (path dep))
      (Settles
         match ps_getShallowDependencies co (path dep) with
         | inr deps => inr {| di_path := path dep; di_name := Some depName;
                              di_deps := deps |}
         | inl reason => inl reason
         end).

(** The local [getDependencies(platform, bundleEntry)], lines 35-95.
    [moduleToFilenameCache] is filled and then dropped, as in the
    source.  The elements of the second [Promise.all] (lines 78-82) wait
    for the name and store the module: the module index is filled in
    the order in which they resolve. *)
Definition getDependencies (platform bundleEntry : string) : M Snapshot :=
  let options := {| opt_platform := platform; opt_dev := true;
                    opt_entryFile := bundleEntry; opt_recursive := None |} in
  response ← await (GetDependencies options) (ps_getDependencies co options);
  deps ← all (schedule_deps co response)
             (map dependency (dependencies response));
  let deps := deps.1 in
  let dependenciesCache := map path (dependencies response) in
  let moduleToFilenameCache :=
    fold_left (fun o dep =>
                 JSObject.set o (default "undefined" (di_name dep)) (di_path dep))
              deps JSObject.empty in
  let shallowDependencies :=
    fold_left (fun (o : gmap string (list string)) dep =>
                 <[di_path dep := di_deps dep]> o) deps ∅ in
  named ← all (schedule_names co response)
              (map (fun dep => Settles (inr dep)) (dependencies response));
  let dependenciesModulesCache := module_index named.2 in
  inverseDependenciesCache ←
    await (GetInverseDependencies response) (getInverseDependencies co response);
  mret {| snap_dependenciesCache := dependenciesCache;
          snap_dependenciesModulesCache := dependenciesModulesCache;
          snap_shallowDependencies := shallowDependencies;
          snap_inverseDependenciesCache := inverseDependenciesCache;
          snap_resolutionResponse := response |}.

(** Lines 132-197: the callback on the shallow dependencies of the
    changed file. *)
Definition onShallowDependencies (file : string) (deps : list string)
  : M ResolutionValue :=
  c ← getClient;
  match c with
  | None => mret EmptyArray
  | Some c =>
      match classify c file deps with
      | ShallowEquivalent =>
          let options := {| opt_platform := platform c; opt_dev := true;
                            opt_entryFile := file;
                            opt_recursive := Some true |} in
          response ← await (GetDependencies options)
                            (ps_getDependencies co options);
          let module := ps_getModuleForPath co file in
          mret (Response (copy response [module]))
      | Structural =>
          s ← getDependencies (platform c) (bundleEntry c);
          c ← getClient;
          match c with
          | None => mret EmptyObject
          | Some c =>
              let modulesToUpdate :=
                modulesToUpdate (ps_getModuleForPath co file)
                  (dependenciesModulesCache c)
                  (snap_dependenciesModulesCache s) in
              setClient (Some (invalidate c s)) ;;
              mret (Response (copy (snap_resolutionResponse s) modulesToUpdate))
          end
      end
  end.

(** Lines 198-223. *)
Definition onResolutionResponse (file : string)
    (resolutionResponse : ResolutionValue) : M (option Bundle) :=
  c ← getClient;
  match c with
  | None => mret None
  | Some c =>
      match shallowDependencies c !! file with
      | None => mret None
      | Some _ =>
          let httpServerAddress := httpServer_address co in
          let packagerHost := packagerHost httpServerAddress in
          let packagerPort := port httpServerAddress in
          let options := {| bo_entryFile := bundleEntry c;
                            bo_platform := platform c;
                            bo_resolutionResponse := resolutionResponse |} in
          bundle ← await (BuildBundleForHMR options packagerHost packagerPort)
                          (ps_buildBundleForHMR co options packagerHost packagerPort);
          mret (Some bundle)
      end
  end.

(** Lines 223-237; [inverseDependenciesCache] is the variable of the
    connection callback (line 112) the listener closes over. *)
Definition onBundle (inverseDependenciesCache : InverseDependencies)
    (bundle : option Bundle) : M (option Message) :=
  c ← getClient;
  match c, bundle with
  | Some _, Some bundle =>
      if isEmpty bundle then mret None
      else mret (Some (Update
             {| modules := getModulesNamesAndCode bundle;
                inverseDependencies := inverseDependenciesCache;
                sourceURLs := getSourceURLs bundle;
                sourceMappingURLs := getSourceMappingURLs bundle |}))
  | _, _ => mret None
  end.

(** Lines 237-256: the catch handler. *)
Definition known_error_type (t : option string) : bool :=
  bool_decide (t = Some "TransformError")
  || bool_decide (t = Some "NotFoundError")
  || bool_decide (t = Some "UnableToResolveError").

Definition onRejected (error : Reason) : M (option Message) :=
  match error with
  | Nullish => throw (Raised TypeError_type)   (* line 240 reads [error.type] *)
  | Raised error =>
      if known_error_type (type error) then
        mret (Some (Error {| eb_type := type error;
                             eb_description := description error;
                             eb_filename := filename error;
                             eb_lineNumber := lineNumber error |}))
      else
        perform (ConsoleError error) ;;
        mret (Some (Error {| eb_type := Some "InternalError";
                             eb_description := Some internal_error_description;
                             eb_filename := None;
                             eb_lineNumber := None |}))
  end.

(** Lines 256-263. *)
Definition onUpdate (update : option Message) : M unit :=
  c ← getClient;
  match c, update with
  | Some c, Some update => perform (WsSend (ws c) update)
  | _, _ => mret tt
  end.

(** Lines 132-237: the chain in front of the catch handler. *)
Definition pipeline (inverseDependenciesCache : InverseDependencies)
    (file : string) : M (option Message) :=
  deps ← await (GetShallowDependencies file)
                (ps_getShallowDependencies co file);
  resolutionResponse ← onShallowDependencies file deps;
  bundle ← onResolutionResponse file resolutionResponse;
  onBundle inverseDependenciesCache bundle.

(** Lines 131-266: [stat.then(onFulfilled, onRejected)].  [stat] is how
    the promise of the watcher settled; a rejection means that the file
    was removed, and nothing is done. *)
Definition afterStat (inverseDependenciesCache : InverseDependencies)
    (file : string) (stat : Settled unit) : M unit :=
  match stat with
  | inr _ =>
      update ← catch (pipeline inverseDependenciesCache file) onRejected;
      onUpdate update
  | inl _ => mret tt
  end.

(** Lines 124-269: the file change listener. *)
Definition hmrFileChangeListener
    (inverseDependenciesCache : InverseDependencies)
    (file : string) (stat : Settled unit) : M unit :=
  c ← getClient;
  match c with
  | None => mret tt
  | Some _ =>
      clientSend UpdateStart ;;
      suspend ;;
      afterStat inverseDependenciesCache file stat ;;
      clientSend UpdateDone
  end.

(** [function disconnect()], lines 26-29. *)
Definition disconnect : M unit :=
  setClient None ;; setListener None.

(** Lines 104-280: a connection whose query string carries [platform]
    and [bundleEntry].  The chain ends in [.done()] (line 279). *)
Definition onConnection (ws : Socket) (platform bundleEntry : string)
  : M unit :=
  done (
    s ← getDependencies platform bundleEntry;
    setClient (Some {| ws := ws; platform := platform;
                       bundleEntry := bundleEntry;
                       dependenciesCache := snap_dependenciesCache s;
                       dependenciesModulesCache := snap_dependenciesModulesCache s;
                       shallowDependencies := snap_shallowDependencies s;
                       inverseDependenciesCache := snap_inverseDependenciesCache s |}) ;;
    setListener (Some (snap_inverseDependenciesCache s))).

(** The packager reporting a change to the listener it holds. *)
Definition fileChanged (file : string) (stat : Settled unit) : M unit :=
  fun st =>
    match listener st with
    | None => (inr tt, st, [])
    | Some inverseDependenciesCache =>
        hmrFileChangeListener inverseDependenciesCache file stat st
    end.
End Server.

(** The frames of a run, in the order sent. *)
Definition messages (effs : list Effect) : list Message :=
  omap (fun e => match e with WsSend _ m => Some m | _ => None end) effs.

(** The frames of a run with the socket each was written to. *)
Definition frames (effs : list Effect) : list (Socket * Message) :=
  omap (fun e => match e with WsSend to m => Some (to, m) | _ => None end) effs.

(** *** Vocabulary of the properties *)

Definition has {V} (o : JSObject.t V) (k : string) : bool :=
  match JSObject.get o k with Some _ => true | None => false end.

(** The entries of a module index in the order in which [Object.keys]
    visits them. *)
Definition discovery_order (new : JSObject.t HasteModule)
  : list (string * HasteModule) :=
  omap (fun k => match JSObject.get new k with
                 | Some m => Some (k, m)
                 | None => None
                 end) (JSObject.keys new).

(** The newly discovered modules: those whose name is in the new module
    index and not in the previous one, in discovery order. *)
Definition newly_discovered (old new : JSObject.t HasteModule)
  : list HasteModule :=
  (List.filter (fun km => negb (has old km.1)) (discovery_order new)).*2.

(** Module names for which the module index keeps the order of the
    resolver: pairwise different, and none of them an array index. *)
Definition plain_names (deps : list HasteModule) : Prop :=
  NoDup (getName <$> deps)
  /\ Forall (fun d => JSObject.array_index (getName d) = None) deps.

(** Equal length and pairwise equal elements. *)
Definition same_sequence (a b : list string) : Prop :=
  List.length a = List.length b /\ forall i, a !! i = b !! i.

(** The equivalence test as the design document words it: the change is
    shallow-equivalent exactly when there is a cached list for the file
    and the fresh list is the same sequence. *)
Definition equivalence_test_as_stated : Prop :=
  forall (c : Client) (file : string) (deps : list string),
    classify c file deps = ShallowEquivalent
    <-> exists old, shallowDependencies c !! file = Some old
                    /\ same_sequence deps old.

(** The wildcard addresses a server can listen on. *)
Definition is_wildcard (s : string) : bool :=
  String.eqb s "::" || String.eqb s "0.0.0.0".

(** The host as the design document words it: the loopback name for a
    wildcard or empty address, the address itself otherwise. *)
Definition host_as_stated (a : AddressInfo) : string :=
  match address a with
  | Some s => if String.eqb s "" || is_wildcard s then "localhost" else s
  | None => "localhost"
  end.

Definition is_update_or_error (m : Message) : Prop :=
  match m with
  | Update _ | Error _ => True
  | UpdateStart | UpdateDone => False
  end.




(** No interference while the cycle runs. *)
Definition undisturbed (st : State) : Prop := pending st = [].

(** [error.type] is one of the three kinds passed on to the client. *)
Definition passed_through (e : JSError) : Prop :=
  type e = Some "TransformError" \/ type e = Some "NotFoundError"
  \/ type e = Some "UnableToResolveError".

(** A chain that writes nothing to the socket. *)
Definition silent {A} (p : M A) : Prop := forall st, messages (p st).2 = [].

(** What the chain in front of the last [then] can hand over: nothing,
    an [update] with the captured inverse dependencies, or an
    [error]. *)
Definition handed_over (inv : InverseDependencies) (update : option Message)
  : Prop :=
  match update with
  | None => True
  | Some (Update body) => inverseDependencies body = inv
  | Some (Error _) => True
  | Some _ => False
  end.

(** The same connection, whatever its caches hold. *)
Definition same_session (c c' : Client) : Prop :=
  ws c' = ws c /\ platform c' = platform c /\ bundleEntry c' = bundleEntry c
  /\ inverseDependenciesCache c' = inverseDependenciesCache c.

(** Nothing interferes, the session of [c] is the one connected, and the
    listener the packager holds is [l]. *)
Definition calm (c : Client) (l : option InverseDependencies) (st : State)
  : Prop :=
  undisturbed st /\ listener st = l
  /\ exists c', client st = Some c' /\ same_session c c'.

(** A chain that keeps a property of the state. *)
Definition keeps (I : State -> Prop) {A} (p : M A) : Prop :=
  forall st, I st -> I (p st).1.2.

(** *** Sample inputs *)

Definition mA : HasteModule := mkModule "/app/A.js" "A" false false false.
Definition mB : HasteModule := mkModule "/app/B.js" "B" false false false.
Definition mC : HasteModule := mkModule "/app/C.js" "C" false false false.
Definition mD : HasteModule := mkModule "/app/D.js" "D" false false false.

Definition sample_bundle : Bundle :=
  {| isEmpty := false;
     getModulesNamesAndCode := [("A", "__d('A', ...)")];
     getSourceURLs := ["http://localhost:8081/app/A.js"];
     getSourceMappingURLs := ["http://localhost:8081/app/A.map"] |}.

(** A packager in which [A] requires [requires] and the graph of the
    entry file is [graph]. *)
Definition packager (graph : list HasteModule) (requires : list string)
  : Collaborators :=
  {| ps_getDependencies := fun o => inr (mkResponse graph (opt_entryFile o));
     ps_getShallowDependencies := fun p =>
       if String.eqb p "/app/A.js" then inr requires else inr [];
     ps_getModuleForPath := fun p => mkModule p "A" false false false;
     ps_buildBundleForHMR := fun _ _ _ => inr sample_bundle;
     getInverseDependencies := fun r =>
       inr (((fun d => (getName d, ["A"])) <$> tail (dependencies r)));
     httpServer_address := {| address := Some "::"; port := 8081 |};
     schedule_deps := fun _ => [];
     schedule_names := fun _ => [] |}.

(** [A] requires [B]; later it is edited to require [C] and [D] too. *)
Definition world_before : Collaborators := packager [mA; mB] ["B"].
Definition world_after : Collaborators :=
  packager [mA; mB; mC; mD] ["B"; "C"; "D"].

Definition transform_error : JSError :=
  {| type := Some "TransformError";
     description := Some "Unexpected token";
     filename := Some "/app/A.js"; lineNumber := Some 3%Z |}.

(** A packager whose answer to [getShallowDependencies] is [answer]. *)
Definition answering (answer : Settled (list string)) : Collaborators :=
  {| ps_getDependencies := ps_getDependencies world_before;
     ps_getShallowDependencies := fun _ => answer;
     ps_getModuleForPath := ps_getModuleForPath world_before;
     ps_buildBundleForHMR := ps_buildBundleForHMR world_before;
     getInverseDependencies := getInverseDependencies world_before;
     httpServer_address := httpServer_address world_before;
     schedule_deps := schedule_deps world_before;
     schedule_names := schedule_names world_before |}.

(** A packager whose transformer rejects [A]. *)
Definition world_broken : Collaborators :=
  answering (inl (Raised transform_error)).

(** A packager that rejects with no reason. *)
Definition world_speechless : Collaborators := answering (inl Nullish).

Definition idle : State := {| client := None; listener := None; pending := [] |}.

Definition sample_client : Client :=
  {| ws := 7; platform := "ios"; bundleEntry := "/app/A.js";
     dependenciesCache := ["/app/A.js"; "/app/B.js"];
     dependenciesModulesCache := [("A", mA); ("B", mB)];
     shallowDependencies := {[ "/app/A.js" := ["B"]; "/app/B.js" := [] ]};
     inverseDependenciesCache := [("B", ["A"])] |}.

(** The server once the sample client has connected. *)
Definition connected : State :=
  {| client := Some sample_client; listener := Some [("B", ["A"])];
     pending := [] |}.

(** What the local [getDependencies] resolves to in [world_after]. *)
Definition sample_snapshot : Snapshot :=
  {| snap_dependenciesCache :=
       ["/app/A.js"; "/app/B.js"; "/app/C.js"; "/app/D.js"];
     snap_dependenciesModulesCache :=
       [("A", mA); ("B", mB); ("C", mC); ("D", mD)];
     snap_shallowDependencies :=
       {[ "/app/A.js" := ["B"; "C"; "D"]; "/app/B.js" := [];
          "/app/C.js" := []; "/app/D.js" := [] ]};
     snap_inverseDependenciesCache := [("B", ["A"]); ("C", ["A"]); ("D", ["A"])];
     snap_resolutionResponse := mkResponse [mA; mB; mC; mD] "/app/A.js" |}.

Definition sample_effects : list Effect :=
  [GetDependencies {| opt_platform := "ios"; opt_dev := true;
                      opt_entryFile := "/app/A.js"; opt_recursive := None |};
   GetShallowDependencies "/app/A.js"; GetShallowDependencies "/app/B.js";
   GetShallowDependencies "/app/C.js"; GetShallowDependencies "/app/D.js";
   GetInverseDependencies (mkResponse [mA; mB; mC; mD] "/app/A.js")].

(** The client closes its socket while the cycle waits for the shallow
    dependencies of the changed file. *)
Definition closing : State :=
  {| client := Some sample_client; listener := Some [("B", ["A"])];
     pending := [Quiet; Disconnected] |}.

Definition untracked_client : Client :=
  {| ws := 1; platform := "ios"; bundleEntry := "/app/index.js";
     dependenciesCache := []; dependenciesModulesCache := [];
     shallowDependencies := ∅; inverseDependenciesCache := [] |}.


(** *** More vocabulary *)

(** Line 45: a dependency whose shallow dependencies are not asked for. *)
Definition is_leaf (dep : HasteModule) : bool :=
  isAsset dep || isAsset_DEPRECATED dep || isJSON dep.

(** The packager calls the local [getDependencies] makes for one
    dependency. *)
Definition shallow_requests (deps : list HasteModule) : list Effect :=
  (fun dep => GetShallowDependencies (path dep))
    <$> List.filter (fun dep => negb (is_leaf dep)) deps.

(** The [update] frame for a bundle. *)
Definition update_of (inv : InverseDependencies) (b : Bundle) : Message :=
  Update {| modules := getModulesNamesAndCode b;
            inverseDependencies := inv;
            sourceURLs := getSourceURLs b;
            sourceMappingURLs := getSourceMappingURLs b |}.

(** The request of the shallow-equivalent branch. *)
Definition shallow_options (c : Client) (file : string) : DependencyOptions :=
  {| opt_platform := platform c; opt_dev := true;
     opt_entryFile := file; opt_recursive := Some true |}.



(** *** The event loop: vocabulary *)

(** The calls a waiting promise will make, in order. *)
Fixpoint calls {A} (w : Waiting A) : list Effect :=
  match w with
  | Settles _ => []
  | Calls call next => call :: calls next
  end.

(** How a waiting promise settles in the end. *)
Fixpoint outcome_of {A} (w : Waiting A) : Settled A :=
  match w with
  | Settles outcome => outcome
  | Calls _ next => outcome_of next
  end.

Definition calls_left {A} (e : Element A) : list Effect :=
  match e with
  | inl w => calls w
  | inr _ => []
  end.

Definition wakeups_left {A} (e : Element A) : nat :=
  match e with
  | inl w => wakeups w
  | inr _ => 0
  end.

Definition final {A} (e : Element A) : Settled A :=
  match e with
  | inl w => outcome_of w
  | inr a => inr a
  end.

(** The value a promise that still waits resolves with, if it does. *)
Definition value_left {A} (e : Element A) : option A :=
  match e with
  | inl w =>
      match outcome_of w with
      | inr a => Some a
      | inl _ => None
      end
  | inr _ => None
  end.

(** An effect that is not a frame. *)
Definition not_a_frame (e : Effect) : Prop :=
  match e with
  | WsSend _ _ => False
  | _ => True
  end.

(** No collaborator rejects with [undefined] or [null]. *)
Definition reasons_are_objects (co : Collaborators) : Prop :=
  (forall o, ps_getDependencies co o <> inl Nullish)
  /\ (forall p, ps_getShallowDependencies co p <> inl Nullish)
  /\ (forall o host port, ps_buildBundleForHMR co o host port <> inl Nullish)
  /\ (forall r, getInverseDependencies co r <> inl Nullish).

(** A chain that is not rejected with [undefined] or [null]. *)
Definition spoken {A} (p : M A) : Prop :=
  forall st, (p st).1.1 <> inl Nullish.

(** The interference leaves the property. *)
Definition lasting (I : State -> Prop) : Prop :=
  forall st, I st -> I (interfered st).

(** *** The claims as the design document words them *)

(** The order of a structural update: the module of the file last,
    before it the newly discovered modules in the reverse of the order
    in which the resolver returned them. *)
Definition update_order_as_stated : Prop :=
  forall co file deps st c s st1 effs c1,
    client st = Some c ->
    classify c file deps = Structural ->
    getDependencies co (platform c) (bundleEntry c) st = (inr s, st1, effs) ->
    client st1 = Some c1 ->
    (onShallowDependencies co file deps st).1.1
    = inr (Response
             (copy (snap_resolutionResponse s)
                (rev ([ps_getModuleForPath co file]
                      ++ List.filter
                           (fun d => negb (has (dependenciesModulesCache c1)
                                             (getName d)))
                           (dependencies (snap_resolutionResponse s)))))).


(** Every error raised inside a change cycle is caught: the chain of
    the cycle ends normally. *)
Definition errors_are_caught_as_stated : Prop :=
  forall co inv file stat st,
    (hmrFileChangeListener co inv file stat st).1.1 = inr tt.

(** *** More sample inputs *)

Definition mb : HasteModule := mkModule "/app/b.js" "b" false false false.
Definition m10 : HasteModule := mkModule "/app/10.js" "10" false false false.
Definition m9 : HasteModule := mkModule "/app/9.js" "9" false false false.

(** [A] is edited to require three new modules, two of them with names
    that are array indices. *)
Definition world_numbers : Collaborators :=
  packager [mA; mb; m10; m9] ["b"; "10"; "9"].

(** [world_after], with the name of [D] resolving before the others. *)
Definition world_late_names : Collaborators :=
  {| ps_getDependencies := ps_getDependencies world_after;
     ps_getShallowDependencies := ps_getShallowDependencies world_after;
     ps_getModuleForPath := ps_getModuleForPath world_after;
     ps_buildBundleForHMR := ps_buildBundleForHMR world_after;
     getInverseDependencies := getInverseDependencies world_after;
     httpServer_address := httpServer_address world_after;
     schedule_deps := fun _ => [3; 3];
     schedule_names := fun _ => [3] |}.

(** The session of a second connection, on another socket and for
    another platform, with inverse dependencies of its own. *)
Definition second_client : Client :=
  {| ws := 9; platform := "android"; bundleEntry := "/app/A.js";
     dependenciesCache := ["/app/A.js"; "/app/B.js"];
     dependenciesModulesCache := [("A", mA); ("B", mB)];
     shallowDependencies := {[ "/app/A.js" := ["B"]; "/app/B.js" := [] ]};
     inverseDependenciesCache := [("B", ["A"; "Z"])] |}.


(** The first connection closes and the second is set up while a cycle
    of the first waits. *)
Definition closed_and_overtaken : State :=
  {| client := Some sample_client; listener := Some [("B", ["A"])];
     pending := [Disconnected; Replaced second_client] |}.

End HMR.

(* ===================================================================== *)
(** ** AsyncStorage (the second document of webSocketProxy.js) *)

(** The key-value storage of an application, a wrapper of the native
    storage module that puts the identifier of the application in front
    of every key.  The native module is outside the program: it is a
    record of the answers it gives to each request, and what the wrapper
    asks of it, and the calls of the caller's callback, are recorded in
    program order. *)
Module AsyncStorage.

(** [__SIPHON.appID].  The code reads [a.length] and concatenates [a]
    with a string: when the identifier is set it is taken to be a
    string. *)
Inductive AppID :=
  | Undefined
  | Null
  | Str (a : string).

(** The string [key.includes(x)] searches for. *)
Definition ToString (x : AppID) : string :=
  match x with
  | Undefined => "undefined"
  | Null => "null"
  | Str a => a
  end.

(** [s.includes(searchString)]: [searchString] starts at some position
    of [s]. *)
Fixpoint includes (s searchString : string) : bool :=
  match s with
  | EmptyString => String.prefix searchString EmptyString
  | String _ s' => String.prefix searchString s || includes s' searchString
  end.

(** How a call ends: it returns, or it throws (the code throws one
    string). *)
Inductive Completion (A : Type) :=
  | Returned (a : A)
  | Thrown (v : string).
Arguments Returned {A} a.
Arguments Thrown {A} v.

(** Lines 103-110. *)
Definition prefixKey (appID : AppID) (key : string) : Completion string :=
  match appID with
  | Undefined | Null => Thrown "Global appID must be set."
  | Str a =>
      if String.length a <? 1 then Thrown "Global appID must be set."
      else Returned (a +:+ "-" +:+ key)
  end.

(** Lines 112-114. *)
Definition keyAllowed (appID : AppID) (key : string) : bool :=
  includes key (ToString appID).

(** [keys.map(prefixKey)] and the like: the first call that throws ends
    the whole map. *)
Fixpoint map_ {A B} (f : A -> Completion B) (l : list A) : Completion (list B) :=
  match l with
  | [] => Returned []
  | x :: l =>
      match f x with
      | Thrown v => Thrown v
      | Returned y =>
          match map_ f l with
          | Thrown v => Thrown v
          | Returned ys => Returned (y :: ys)
          end
      end
  end.

(** An error object of the native module: the fields the code reads. *)
Record NativeError := { message : option string; key : option string }.

(** [new Error(message)] with its [key] field. *)
Record Error := { Error_message : string; Error_key : option string }.

(** Lines 366-373.  [None] is a falsy argument, and [null]. *)
Definition convertError (error : option NativeError) : option Error :=
  match error with
  | None => None
  | Some error =>
      Some {| Error_message := default "" (message error);
              Error_key := key error |}
  end.

(** The first argument of a callback of the native module: nothing, one
    error object, or an array of error objects and nulls. *)
Inductive NativeErrors :=
  | NoErrors
  | OneError (e : NativeError)
  | ManyErrors (es : list (option NativeError)).

(** Lines 359-364. *)
Definition convertErrors (errs : NativeErrors) : option (list (option Error)) :=
  match errs with
  | NoErrors => None
  | OneError e => Some [convertError (Some e)]
  | ManyErrors es => Some ((fun e => convertError e) <$> es)
  end.

(** The values given to a callback or to [reject]. *)
Inductive Value :=
  | VUndefined
  | VNull
  | VString (s : string)
  | VError (e : Error)
  | VErrors (es : list (option Error))
  | VKeys (keys : list string)
  | VPairs (result : list (string * option string)).

Definition of_error (e : option Error) : Value :=
  match e with
  | Some e => VError e
  | None => VNull
  end.

(** [errs[0]] *)
Definition first (errs : list (option Error)) : Value :=
  match errs with
  | [] => VUndefined
  | e :: _ => of_error e
  end.

(** [errs && errs[0]] *)
Definition and_first (errs : option (list (option Error))) : Value :=
  match errs with
  | None => VNull
  | Some errs => first errs
  end.

Definition of_errors (errs : option (list (option Error))) : Value :=
  match errs with
  | None => VNull
  | Some errs => VErrors errs
  end.

Definition of_value (value : option string) : Value :=
  match value with
  | Some v => VString v
  | None => VNull
  end.

Definition of_result (result : option (list (string * option string))) : Value :=
  match result with
  | Some result => VPairs result
  | None => VNull
  end.

(** [RCTAsyncStorage]: what the native module passes to the callback of
    each request.  [getAllKeys] passes an error and an array of keys.
    [multiMerge] is there: lines 353-357 remove [mergeItem] and
    [multiMerge] from the wrapper when the native module has none. *)
Record Native := {
  native_multiGet :
    list string -> NativeErrors * option (list (string * option string));
  native_multiSet : list (string * string) -> NativeErrors;
  native_multiRemove : list string -> NativeErrors;
  native_multiMerge : list (string * string) -> NativeErrors;
  native_getAllKeys : option NativeError * list string
}.

Inductive Effect :=
  | MultiGet (keys : list string)
  | MultiSet (keyValuePairs : list (string * string))
  | MultiRemove (keys : list string)
  | MultiMerge (keyValuePairs : list (string * string))
  | GetAllKeys
  | Callback (args : list Value).

(** How the promise a method returns is settled. *)
Inductive Settlement (A : Type) :=
  | Resolved (a : A)
  | Rejected (reason : Value).
Arguments Resolved {A} a.
Arguments Rejected {A} reason.

(** A call of a method: it throws, or returns a promise; and what it
    did. *)
Definition Call (A : Type) : Type := Completion (Settlement A) * list Effect.

(** [callback && callback(...)] *)
Definition called (callback : bool) (args : list Value) : list Effect :=
  if callback then [Callback args] else [].

(** [if (errs) reject(errs[0]) else resolve(value)] *)
Definition settle_first {A} (errs : option (list (option Error))) (value : A)
  : Settlement A :=
  match errs with
  | Some errs => Rejected (first errs)
  | None => Resolved value
  end.

(** [if (error) reject(error) else resolve(value)] *)
Definition settle_all {A} (error : option (list (option Error))) (value : A)
  : Settlement A :=
  match error with
  | Some error => Rejected (VErrors error)
  | None => Resolved value
  end.

Section Methods.
Variable appID : AppID.
Variable native : Native.

(** [(arr) => [prefixKey(arr[0]), arr[1]]] *)
Definition prefixPair (arr : string * string) : Completion (string * string) :=
  match prefixKey appID arr.1 with
  | Thrown v => Thrown v
  | Returned k => Returned (k, arr.2)
  end.

(** Lines 121-139.  The promise resolves with a string or [null]. *)
Definition getItem (key : string) (callback : bool) : Call (option string) :=
  match prefixKey appID key with
  | Thrown v => (Thrown v, [])
  | Returned key =>
      let '(errors, result) := native_multiGet native [key] in
      let value :=
        match result with
        | Some ((_, Some v) :: _) =>
            match v with
            | EmptyString => None
            | _ => Some v
            end
        | _ => None
        end in
      let errs := convertErrors errors in
      (Returned (settle_first errs value),
       MultiGet [key] :: called callback [and_first errs; of_value value])
  end.

(** Lines 145-162. *)
Definition setItem (key value : string) (callback : bool) : Call unit :=
  match prefixKey appID key with
  | Thrown v => (Thrown v, [])
  | Returned key =>
      let errs := convertErrors (native_multiSet native [(key, value)]) in
      (Returned (settle_first errs tt),
       MultiSet [(key, value)] :: called callback [and_first errs])
  end.

(** Lines 167-183. *)
Definition removeItem (key : string) (callback : bool) : Call unit :=
  match prefixKey appID key with
  | Thrown v => (Thrown v, [])
  | Returned key =>
      let errs := convertErrors (native_multiRemove native [key]) in
      (Returned (settle_first errs tt),
       MultiRemove [key] :: called callback [and_first errs])
  end.

(** Lines 189-206. *)
Definition mergeItem (key value : string) (callback : bool) : Call unit :=
  match prefixKey appID key with
  | Thrown v => (Thrown v, [])
  | Returned key =>
      let errs := convertErrors (native_multiMerge native [(key, value)]) in
      (Returned (settle_first errs tt),
       MultiMerge [(key, value)] :: called callback [and_first errs])
  end.

(** Lines 230-243.  The keys are filtered, and stay as the native module
    has them. *)
Definition getAllKeys (callback : bool) : Call (list string) :=
  let '(error, keys) := native_getAllKeys native in
  (Returned (match error with
             | Some _ => Rejected (of_error (convertError error))
             | None => Resolved (List.filter (fun key => keyAllowed appID key) keys)
             end),
   GetAllKeys :: called callback [of_error (convertError error); VKeys keys]).

(** Lines 261-277. *)
Definition multiGet (keys : list string) (callback : bool)
  : Call (option (list (string * option string))) :=
  match map_ (prefixKey appID) keys with
  | Thrown v => (Thrown v, [])
  | Returned keys =>
      let '(errors, result) := native_multiGet native keys in
      let error := convertErrors errors in
      (Returned (settle_all error result),
       MultiGet keys :: called callback [of_errors error; of_result result])
  end.

(** Lines 285-303.  The keys are mapped inside the executor of the
    promise: what [prefixKey] throws rejects the promise. *)
Definition multiSet (keyValuePairs : list (string * string)) (callback : bool)
  : Call unit :=
  match map_ prefixPair keyValuePairs with
  | Thrown v => (Returned (Rejected (VString v)), [])
  | Returned keyValuePairs =>
      let error := convertErrors (native_multiSet native keyValuePairs) in
      (Returned (settle_all error tt),
       MultiSet keyValuePairs :: called callback [of_errors error])
  end.

(** Lines 308-324. *)
Definition multiRemove (keys : list string) (callback : bool) : Call unit :=
  match map_ (prefixKey appID) keys with
  | Thrown v => (Thrown v, [])
  | Returned keys =>
      let error := convertErrors (native_multiRemove native keys) in
      (Returned (settle_all error tt),
       MultiRemove keys :: called callback [of_errors error])
  end.

(** Lines 332-350. *)
Definition multiMerge (keyValuePairs : list (string * string)) (callback : bool)
  : Call unit :=
  match map_ prefixPair keyValuePairs with
  | Thrown v => (Thrown v, [])
  | Returned keyValuePairs =>
      let error := convertErrors (native_multiMerge native keyValuePairs) in
      (Returned (settle_all error tt),
       MultiMerge keyValuePairs :: called callback [of_errors error])
  end.

(** Lines 213-225.  [getAllKeys] and [multiRemove] are called without a
    callback, and the callback of [clear] is not used.  What
    [multiRemove] throws is thrown in a [then] handler, and reaches the
    outer [catch]. *)
Definition clear (callback : bool) : Call unit :=
  match getAllKeys false with
  | (Returned (Resolved keys), effs) =>
      match multiRemove keys false with
      | (Returned (Resolved _), effs') => (Returned (Resolved tt), effs ++ effs')
      | (Returned (Rejected error), effs') =>
          (Returned (Rejected error), effs ++ effs')
      | (Thrown v, effs') => (Returned (Rejected (VString v)), effs ++ effs')
      end
  | (Returned (Rejected error), effs) => (Returned (Rejected error), effs)
  | (Thrown v, effs) => (Returned (Rejected (VString v)), effs)
  end.

End Methods.

(** *** Vocabulary of the properties *)

(** The keys a request names to the native module. *)
Definition native_keys (e : Effect) : list string :=
  match e with
  | MultiGet keys | MultiRemove keys => keys
  | MultiSet keyValuePairs | MultiMerge keyValuePairs => keyValuePairs.*1
  | GetAllKeys | Callback _ => []
  end.

(** All the keys named to the native module, in order. *)
Definition asked (effs : list Effect) : list string :=
  effs ≫= native_keys.

(** No usable identifier. *)
Definition unset (appID : AppID) : Prop :=
  appID = Undefined \/ appID = Null \/ appID = Str "".

(** The key under which the application [a] stores [key]. *)
Definition stored_as (a key : string) : string := a +:+ "-" +:+ key.

(** What the callback is told about the failure of a promise: the reason
    of the rejection, [null] when it resolved. *)
Definition error_argument {A} (s : Settlement A) : Value :=
  match s with
  | Resolved _ => VNull
  | Rejected reason => reason
  end.

Definition is_callback (e : Effect) : Prop :=
  match e with
  | Callback _ => True
  | _ => False
  end.

(** The call asked the native module once and then, if a callback was
    given, called it once, with the outcome of the promise as its first
    argument. *)
Definition told {A} (c : Call A) (callback : bool) : Prop :=
  exists s request rest,
    c = (Returned s,
         request :: (if callback then [Callback (error_argument s :: rest)]
                     else []))
    /\ ~ is_callback request.

(** *** Sample inputs *)

(** A native module that holds three keys and reports no error. *)
Definition sample_keys : list string :=
  ["app-token"; "app-app-token"; "other-x"].

Definition sample_native : Native :=
  {| native_multiGet keys :=
       (NoErrors,
        Some ((fun k => (k, if String.eqb k "app-token" then Some "" else None))
                <$> keys));
     native_multiSet _ := NoErrors;
     native_multiRemove _ := NoErrors;
     native_multiMerge _ := NoErrors;
     native_getAllKeys := (None, sample_keys) |}.

End AsyncStorage.


(** ** Properties of the debugger proxy *)
(* ===================================================================== *)

Module ProxyFacts.
Import WebSocketProxy.

Lemma callbacks_of_assign ws slot f st s :
  callbacks_of (assign ws slot f st) s =
  if decide (ws = s) then set_slot slot f (callbacks_of st ws)
  else callbacks_of st s.
Proof.
  unfold callbacks_of, assign; simpl.
  rewrite lookup_insert. by case_decide.
Qed.

Lemma callbacks_of_set_clientSocket v st s :
  callbacks_of (set_clientSocket v st) s = callbacks_of st s.
Proof. reflexivity. Qed.

Lemma callbacks_of_set_debuggerSocket v st s :
  callbacks_of (set_debuggerSocket v st) s = callbacks_of st s.
Proof. reflexivity. Qed.

(** The callbacks of a socket after the three assignments made when it is
    accepted, or silenced. *)
Lemma callbacks_of_assign3 ws f g h st s :
  callbacks_of
    (assign ws OnMessage h (assign ws OnError g (assign ws OnClose f st))) s =
  if decide (ws = s)
  then {| onerror := g; onclose := f; onmessage := h |}
  else callbacks_of st s.
Proof.
  rewrite !callbacks_of_assign. case_decide; [|done].
  rewrite !decide_True by done. reflexivity.
Qed.

Lemma callbacks_of_silence c st s :
  callbacks_of
    (assign c OnError None (assign c OnClose None (assign c OnMessage None st))) s =
  if decide (c = s) then no_callbacks else callbacks_of st s.
Proof.
  rewrite !callbacks_of_assign. case_decide; [|done].
  rewrite !decide_True by done. reflexivity.
Qed.

Lemma Inv_init : Inv [] init.
Proof. split; intros; done. Qed.

Lemma Inv_weaken seen st ws : Inv seen st -> Inv (ws :: seen) st.
Proof.
  intros [H1 H2 H3]. split; auto.
  intros s Hs. apply H1. by apply not_elem_of_cons in Hs as [_ Hs].
Qed.

Lemma call_state f data st :
  (call f data st).1 =
  match f with
  | Some DebuggerGone => set_debuggerSocket None st
  | Some ClientGone => set_clientSocket None st
  | _ => st
  end.
Proof.
  destruct f as [[]|]; simpl; try reflexivity.
  by destruct (clientSocket st).
Qed.

Lemma Inv_call seen st f data :
  Inv seen st -> Inv seen (call f data st).1.
Proof.
  intros [H1 H2 H3]. rewrite call_state.
  destruct f as [[]|]; try (split; assumption).
  - split; simpl; [|assumption|discriminate].
    intros s Hs. destruct (H1 s Hs) as (? & ? & ?).
    repeat split; [assumption|assumption|discriminate].
  - split; simpl; [|discriminate|assumption].
    intros s Hs. destruct (H1 s Hs) as (? & ? & ?).
    repeat split; [assumption|discriminate|assumption].
Qed.

Lemma Inv_connection seen st ws url :
  ws ∉ seen -> Inv seen st -> Inv (ws :: seen) (connection ws url st).1.
Proof.
  intros Hws HI. pose proof HI as [H1 H2 H3].
  destruct (H1 ws Hws) as (Hcb & Hc & Hd).
  unfold connection. destruct (role url) as [[]|]; simpl.
  - destruct (debuggerSocket st) as [d|] eqn:E; simpl.
    { by apply Inv_weaken. }
    split; simpl.
    + intros s Hs. apply not_elem_of_cons in Hs as [Hne Hs].
      rewrite callbacks_of_assign3, decide_False by done.
      destruct (H1 s Hs) as (? & ? & ?). repeat split; auto. congruence.
    + intros c Hcs. rewrite callbacks_of_assign3.
      case_decide; [congruence|]. by apply H2.
    + intros d [= <-]. rewrite callbacks_of_assign3, decide_True by done.
      reflexivity.
  - destruct (clientSocket st) as [c|] eqn:E; simpl.
    + assert (c <> ws) by congruence.
      split; simpl.
      * intros s Hs. apply not_elem_of_cons in Hs as [Hne Hs].
        rewrite callbacks_of_assign3, decide_False by done.
        rewrite callbacks_of_set_clientSocket, callbacks_of_silence.
        destruct (H1 s Hs) as (? & ? & ?).
        case_decide; repeat split; auto; congruence.
      * intros c' [= <-]. rewrite callbacks_of_assign3, decide_True by done.
        reflexivity.
      * intros d Hds. rewrite callbacks_of_assign3.
        case_decide; [congruence|].
        rewrite callbacks_of_set_clientSocket, callbacks_of_silence.
        case_decide; [|by apply H3].
        subst d. specialize (H2 c eq_refl). specialize (H3 c Hds).
        rewrite H2 in H3. discriminate.
    + split; simpl.
      * intros s Hs. apply not_elem_of_cons in Hs as [Hne Hs].
        rewrite callbacks_of_assign3, decide_False by done.
        destruct (H1 s Hs) as (? & ? & ?). repeat split; auto. congruence.
      * intros c' [= <-]. rewrite callbacks_of_assign3, decide_True by done.
        reflexivity.
      * intros d Hds. rewrite callbacks_of_assign3.
        case_decide; [congruence|]. by apply H3.
  - by apply Inv_weaken.
Qed.

Lemma Inv_run seen st evs :
  Inv seen st ->
  NoDup (connections evs) ->
  (forall ws, ws ∈ connections evs -> ws ∉ seen) ->
  exists seen', Inv seen' (run st evs).1.
Proof.
  revert seen st. induction evs as [|ev evs IH]; intros seen st HI Hnd Hfresh.
  - by exists seen.
  - simpl. destruct (step st ev) as [st1 ops1] eqn:Es.
    destruct (run st1 evs) as [st2 ops2] eqn:Er. simpl.
    destruct ev as [ws url| ws data | ws | ws]; simpl in *.
    + apply NoDup_cons in Hnd as [Hnotin Hnd].
      destruct (IH (ws :: seen) st1) as [seen' Hs']; auto.
      * replace st1 with (connection ws url st).1 by (by rewrite Es).
        apply Inv_connection; [apply Hfresh; set_solver | done].
      * intros s Hs. apply not_elem_of_cons. split; [set_solver|].
        apply Hfresh. set_solver.
      * rewrite Er in Hs'. eauto.
    + destruct (IH seen st1) as [seen' Hs']; auto.
      { replace st1 with (call (onmessage (callbacks_of st ws)) data st).1
          by (by rewrite Es). by apply Inv_call. }
      rewrite Er in Hs'. eauto.
    + destruct (IH seen st1) as [seen' Hs']; auto.
      { replace st1 with (call (onerror (callbacks_of st ws)) "" st).1
          by (by rewrite Es). by apply Inv_call. }
      rewrite Er in Hs'. eauto.
    + destruct (IH seen st1) as [seen' Hs']; auto.
      { replace st1 with (call (onclose (callbacks_of st ws)) "" st).1
          by (by rewrite Es). by apply Inv_call. }
      rewrite Er in Hs'. eauto.
Qed.

Lemma reachable_Inv evs :
  NoDup (connections evs) -> exists seen, Inv seen (run init evs).1.
Proof.
  intros Hnd. apply (Inv_run [] init evs Inv_init Hnd).
  intros ws _. set_solver.
Qed.

Lemma silenced_step st c ev :
  callbacks_of st c = no_callbacks ->
  clientSocket st <> Some c ->
  c ∉ connections [ev] ->
  callbacks_of (step st ev).1 c = no_callbacks
  /\ clientSocket (step st ev).1 <> Some c.
Proof.
  intros Hcb Hc Hev.
  destruct ev as [ws url| ws data | ws | ws]; simpl;
    try (rewrite call_state;
         match goal with
         | |- context [match ?f with _ => _ end] =>
             destruct f as [[]|]; simpl; split; solve [assumption|discriminate]
         end).
  assert (ws <> c) as Hne.
  { simpl in Hev. apply not_elem_of_cons in Hev as [? _]. congruence. }
  unfold connection. destruct (role url) as [[]|]; simpl; [| |done].
  - destruct (debuggerSocket st); simpl; [done|].
    rewrite callbacks_of_assign3, decide_False by done. done.
  - destruct (clientSocket st) as [c0|] eqn:E; simpl.
    + rewrite callbacks_of_assign3, decide_False by done.
      rewrite callbacks_of_set_clientSocket, callbacks_of_silence.
      split; [by case_decide | congruence].
    + rewrite callbacks_of_assign3, decide_False by done.
      split; [done | congruence].
Qed.

Lemma silenced_run st c evs :
  callbacks_of st c = no_callbacks ->
  clientSocket st <> Some c ->
  c ∉ connections evs ->
  callbacks_of (run st evs).1 c = no_callbacks
  /\ clientSocket (run st evs).1 <> Some c.
Proof.
  revert st. induction evs as [|ev evs IH]; intros st Hcb Hc Hev; [done|].
  simpl. destruct (step st ev) as [st1 ops1] eqn:Es.
  destruct (run st1 evs) as [st2 ops2] eqn:Er. simpl.
  assert ((c ∉ connections [ev]) /\ (c ∉ connections evs)) as [Hev1 Hev2].
  { unfold connections in *. simpl in *.
    destruct ev; simpl in *;
      try (split; [apply not_elem_of_nil | assumption]).
    apply not_elem_of_cons in Hev as [? ?].
    split; [|assumption].
    apply not_elem_of_cons. split; [assumption | apply not_elem_of_nil]. }
  destruct (silenced_step st c ev Hcb Hc Hev1) as [Hcb1 Hc1].
  rewrite Es in Hcb1, Hc1. simpl in *.
  specialize (IH st1 Hcb1 Hc1 Hev2). by rewrite Er in IH.
Qed.

Lemma silent_socket st c ev :
  callbacks_of st c = no_callbacks -> from_socket c ev -> step st ev = (st, []).
Proof.
  intros Hcb [[-> | ->] | [data ->]]; simpl; by rewrite Hcb.
Qed.

Lemma shaped_step st ev : shaped st -> shaped (step st ev).1.
Proof.
  intros Hsh s.
  destruct ev as [ws url| ws data | ws | ws]; simpl;
    try (rewrite call_state;
         match goal with
         | |- context [match ?f with _ => _ end] =>
             destruct f as [[]|]; simpl; apply Hsh
         end).
  unfold connection. destruct (role url) as [[]|]; simpl; [| |apply Hsh].
  - destruct (debuggerSocket st); simpl; [apply Hsh|].
    rewrite callbacks_of_assign3. case_decide; [auto | apply Hsh].
  - destruct (clientSocket st) as [c0|]; simpl.
    + rewrite callbacks_of_assign3. case_decide; [auto|].
      rewrite callbacks_of_set_clientSocket, callbacks_of_silence.
      case_decide; [auto | apply Hsh].
    + rewrite callbacks_of_assign3. case_decide; [auto | apply Hsh].
Qed.

Lemma shaped_run st evs : shaped st -> shaped (run st evs).1.
Proof.
  revert st. induction evs as [|ev evs IH]; intros st Hsh; [done|].
  simpl. pose proof (shaped_step st ev Hsh) as H1.
  destruct (step st ev) as [st1 ops1]. specialize (IH st1 H1).
  by destruct (run st1 evs).
Qed.

Lemma shaped_init : shaped init.
Proof. intros s. by left. Qed.

(** Only the close callback of a client sends anything when a socket
    closes or fails. *)
Lemma notification_source st s ev d message :
  shaped st -> gone s ev ->
  In (Send d message) (step st ev).2 ->
  carries_client_callback st s /\ message = disconnected_json
  /\ debuggerSocket st = Some d.
Proof.
  intros Hsh Hev Hin. unfold carries_client_callback.
  destruct (Hsh s) as [Hcb | [Hcb | Hcb]];
    destruct Hev as [-> | ->]; simpl in Hin; rewrite Hcb in *; simpl in *;
    try done;
    try (destruct (clientSocket st); simpl in Hin;
         [destruct Hin as [Hin|[]]; discriminate | done]).
  all: destruct (debuggerSocket st) as [d0|]; simpl in Hin; [|done].
  all: destruct Hin as [Hin|[]]; injection Hin as -> ->; auto.
Qed.

(** C8, as the code has it.  The broker keeps one variable per role.
    While [debuggerSocket] is set, a connecting debugger is closed at
    once with code 1011 and a reason, and nothing else changes; while
    [clientSocket] is set, a connecting client closes the previous client
    with code 1011 and takes its place.  But the variable does not
    follow the connections: the close callback clears it whatever socket
    it runs on.  In the run [stale_debugger_close] the debugger 2 is
    still open and has its callbacks, the variable is empty, a third
    debugger is accepted, and the messages of both debuggers go to the
    client. *)
Theorem single_occupancy (st : State) (ws : Socket) (url : string) :
  (forall d, role url = Some Debugger -> debuggerSocket st = Some d ->
     step st (Connection ws url)
     = (st, [Close ws 1011 "Another debugger is already connected"]))
  /\ (forall c, role url = Some Client -> clientSocket st = Some c ->
       (step st (Connection ws url)).2 = supersede_ops c ws
       /\ In (Close c 1011 "Another client connected")
             (step st (Connection ws url)).2
       /\ clientSocket (step st (Connection ws url)).1 = Some ws
       /\ debuggerSocket (step st (Connection ws url)).1 = debuggerSocket st
       /\ callbacks_of (step st (Connection ws url)).1 ws = client_callbacks)
  /\ (let st2 := (run init stale_debugger_close).1 in
      let st3 := (step st2 (Connection 3 debugger_url)).1 in
      NoDup (connections (stale_debugger_close ++ [Connection 3 debugger_url]))
      /\ still_open stale_debugger_close 2
      /\ callbacks_of st2 2 = debugger_callbacks
      /\ debuggerSocket st2 = None
      /\ (step st2 (Connection 3 debugger_url)).2
         = [Assign 3 OnClose (Some DebuggerGone);
            Assign 3 OnError (Some DebuggerGone);
            Assign 3 OnMessage (Some DebuggerMessage)]
      /\ debuggerSocket st3 = Some 3
      /\ step st3 (MessageEv 2 "a") = (st3, [Send 9 "a"])
      /\ step st3 (MessageEv 3 "b") = (st3, [Send 9 "b"])).
Proof.
  split; [|split].
  - intros d Hr Hd. simpl. unfold connection. by rewrite Hr, Hd.
  - intros c Hr Hc. simpl. unfold connection. rewrite Hr, Hc. simpl.
    repeat split.
    + auto 10.
    + rewrite callbacks_of_assign3, decide_True by done. reflexivity.
  - cbv zeta. split; [apply (bool_decide_unpack _); vm_compute; exact I|].
    split; [|by vm_compute].
    split; [apply (bool_decide_unpack _); vm_compute; exact I|].
    split; [|split].
    + intros H. vm_compute in H. intuition discriminate.
    + intros H. vm_compute in H. intuition discriminate.
    + intros code reason H. vm_compute in H. intuition discriminate.
Qed.

Lemma single_occupancy_witness :
  let st := (run init [Connection 1 debugger_url; Connection 2 client_url]).1 in
  step st (Connection 3 debugger_url)
  = (st, [Close 3 1011 "Another debugger is already connected"])
  /\ clientSocket (step st (Connection 4 client_url)).1 = Some 4.
Proof.
  split.
  - apply (proj1 (single_occupancy _ 3 debugger_url) 1); reflexivity.
  - apply (proj1 (proj2 (single_occupancy _ 4 client_url)) 2); reflexivity.
Defined.

(** What a socket that carries the close callback of a client does when
    it closes or fails, whatever the variables hold. *)
Lemma client_gone st ev :
  gone_callback st ev = Some ClientGone ->
  step st ev
  = (set_clientSocket None st, send (debuggerSocket st) disconnected_json).
Proof. destruct ev; simpl; try done; by intros ->. Qed.

Lemma debugger_gone st ev :
  gone_callback st ev = Some DebuggerGone ->
  step st ev
  = (set_debuggerSocket None st,
     match clientSocket st with
     | Some c => [Close c 1011 "Debugger was disconnected"]
     | None => []
     end).
Proof.
  destruct ev; simpl; try done; intros ->; simpl; by destruct (clientSocket st).
Qed.

(** C9, as the code has it.  The notification is the text
    [{"method":"$disconnected"}].  A socket that has the close callback
    of a client and closes or fails makes the broker clear
    [clientSocket] and send the notification to the socket in
    [debuggerSocket], if the variable is set; after any run in which
    every connection brings a new socket the active client is such a
    socket.  A socket that has the close callback of a debugger and
    closes or fails makes the broker clear [debuggerSocket] and send
    nothing: all it does is close the client, if there is one, with code
    1011.  The notification goes to the variable, not to the debuggers
    that are connected: in the run [stale_debugger_close] the debugger 2
    is still open, and when the active client 9 closes nothing is sent.
    And a client that fails and then closes makes the broker send the
    notification twice. *)
Theorem disconnect_notification (evs : list Event) (ws : Socket) (ev : Event) :
  NoDup (connections evs) ->
  gone ws ev ->
  let st := (run init evs).1 in
  disconnected_json = notification_text
  /\ (forall st', gone_callback st' ev = Some ClientGone ->
        step st' ev
        = (set_clientSocket None st',
           match debuggerSocket st' with
           | Some d => [Send d notification_text]
           | None => []
           end))
  /\ (clientSocket st = Some ws -> gone_callback st ev = Some ClientGone)
  /\ (forall st', gone_callback st' ev = Some DebuggerGone ->
        step st' ev
        = (set_debuggerSocket None st',
           match clientSocket st' with
           | Some c => [Close c 1011 "Debugger was disconnected"]
           | None => []
           end)
        /\ forall dest message, ~ In (Send dest message) (step st' ev).2)
  /\ (debuggerSocket st = Some ws -> gone_callback st ev = Some DebuggerGone)
  /\ (let st2 := (run init stale_debugger_close).1 in
      still_open stale_debugger_close 2
      /\ callbacks_of st2 2 = debugger_callbacks
      /\ clientSocket st2 = Some 9
      /\ step st2 (CloseEv 9) = (set_clientSocket None st2, []))
  /\ (run init [Connection 1 debugger_url; Connection 2 client_url;
                ErrorEv 2; CloseEv 2]).2
     = [Assign 1 OnClose (Some DebuggerGone);
        Assign 1 OnError (Some DebuggerGone);
        Assign 1 OnMessage (Some DebuggerMessage);
        Assign 2 OnClose (Some ClientGone);
        Assign 2 OnError (Some ClientGone);
        Assign 2 OnMessage (Some ClientMessage);
        Send 1 notification_text; Send 1 notification_text].
Proof.
  intros Hnd Hev st.
  destruct (reachable_Inv evs Hnd) as [seen [_ Hc Hd]]. fold st in Hc, Hd.
  split; [reflexivity|]. split; [|split; [|split; [|split; [|split]]]].
  - intros st' H. rewrite (client_gone st' ev H).
    by destruct (debuggerSocket st').
  - intros Hcs. specialize (Hc ws Hcs).
    destruct Hev as [-> | ->]; simpl; by rewrite Hc.
  - intros st' H. rewrite (debugger_gone st' ev H). split; [done|].
    intros dest message Hin. simpl in Hin.
    destruct (clientSocket st'); simpl in Hin; [|done].
    destruct Hin as [Hin|[]]. discriminate.
  - intros Hds. specialize (Hd ws Hds).
    destruct Hev as [-> | ->]; simpl; by rewrite Hd.
  - cbv zeta. split; [|by vm_compute].
    split; [apply (bool_decide_unpack _); vm_compute; exact I|].
    split; [|split].
    + intros H. vm_compute in H. intuition discriminate.
    + intros H. vm_compute in H. intuition discriminate.
    + intros code reason H. vm_compute in H. intuition discriminate.
  - reflexivity.
Qed.

Lemma disconnect_notification_witness :
  let st := (run init [Connection 1 debugger_url; Connection 2 client_url]).1 in
  (step st (CloseEv 2)).2 = [Send 1 notification_text]
  /\ (step st (CloseEv 1)).2 = [Close 2 1011 "Debugger was disconnected"].
Proof.
  pose (evs := [Connection 1 debugger_url; Connection 2 client_url]).
  assert (NoDup (connections evs)) as Hnd
    by (apply (bool_decide_unpack _); vm_compute; exact I).
  intros st. split.
  - pose proof (disconnect_notification evs 2 (CloseEv 2) Hnd
                  (or_intror eq_refl)) as (_ & H & Hc & _).
    exact (f_equal snd (H st (Hc eq_refl))).
  - pose proof (disconnect_notification evs 1 (CloseEv 1) Hnd
                  (or_intror eq_refl)) as (_ & _ & _ & H & Hd & _).
    exact (f_equal snd (proj1 (H st (Hd eq_refl)))).
Defined.

(** C10, as the code has it.  A client connection that supersedes the
    client [c] first clears the three callbacks of [c] and only then
    closes it; it sends nothing, so the debugger is not notified;
    whatever the socket [c] delivers afterwards is ignored.  The
    notification goes out when a socket closes or fails that still has
    the close callback of a client: that socket was never superseded,
    but it need not be the active client. *)
Theorem eviction_is_silent (st : State) (c ws : Socket) (url : string) :
  role url = Some Client ->
  clientSocket st = Some c ->
  c <> ws ->
  let st' := (step st (Connection ws url)).1 in
  (step st (Connection ws url)).2 = supersede_ops c ws
  /\ (forall dest message, ~ In (Send dest message) (supersede_ops c ws))
  /\ clientSocket st' = Some ws
  /\ callbacks_of st' c = no_callbacks
  /\ (forall evs ev,
        c ∉ connections evs -> from_socket c ev ->
        step (run st' evs).1 ev = ((run st' evs).1, []))
  /\ (forall evs s ev d message,
        gone s ev -> In (Send d message) (step (run init evs).1 ev).2 ->
        carries_client_callback (run init evs).1 s
        /\ message = disconnected_json
        /\ debuggerSocket (run init evs).1 = Some d).
Proof.
  intros Hr Hc Hne st'.
  assert (callbacks_of st' c = no_callbacks /\ clientSocket st' = Some ws)
    as [Hcb Hws].
  { unfold st'. simpl. unfold connection. rewrite Hr, Hc. simpl.
    rewrite callbacks_of_assign3, decide_False by done.
    rewrite callbacks_of_set_clientSocket, callbacks_of_silence.
    by rewrite decide_True. }
  split; [|split; [|split; [|split; [|split]]]]; try assumption.
  - simpl. unfold connection. by rewrite Hr, Hc.
  - intros dest message Hin. simpl in Hin.
    repeat destruct Hin as [Hin|Hin]; try discriminate; done.
  - intros evs ev Hevs Hev. apply (silent_socket _ c); [|done].
    apply silenced_run; [done| |done]. rewrite Hws. congruence.
  - intros evs s ev d message Hev Hin.
    apply (notification_source _ s ev); [|done|done].
    apply shaped_run, shaped_init.
Qed.

Lemma eviction_is_silent_witness :
  let st := (run init [Connection 1 "/debugger-proxy?role=debugger";
                       Connection 2 "/debugger-proxy?role=client"]).1 in
  (step st (Connection 3 "/debugger-proxy?role=client")).2 = supersede_ops 2 3
  /\ callbacks_of (step st (Connection 3 "/debugger-proxy?role=client")).1 2
     = no_callbacks.
Proof.
  intros st.
  pose proof (eviction_is_silent st 2 3 "/debugger-proxy?role=client"
                eq_refl eq_refl ltac:(discriminate)) as H.
  exact (conj (proj1 H) (proj1 (proj2 (proj2 (proj2 H))))).
Defined.

(** C10, as stated, fails.  A debugger and a client connect; the client's
    socket fails, a second client connects, and then the first socket
    closes: the debugger is notified again although the socket that
    closed is not the active client. *)
Lemma stale_client_notifies : ~ notified_only_by_active_client.
Proof.
  intros H.
  specialize (H [Connection 1 "/debugger-proxy?role=debugger";
                 Connection 2 "/debugger-proxy?role=client";
                 ErrorEv 2;
                 Connection 3 "/debugger-proxy?role=client"]
                2 1 (CloseEv 2)).
  assert (Some 3 = Some 2) as Heq; [|discriminate].
  apply H.
  - apply (bool_decide_unpack _). vm_compute. exact I.
  - by right.
  - vm_compute. by left.
Qed.

End ProxyFacts.

(* ===================================================================== *)
(** ** Properties of the dictionaries *)
(* ===================================================================== *)

Module JSObjectFacts.
Import JSObject.

Section Values.
Context {V : Type}.
Implicit Types (o : JSObject.t V) (k : string) (v : V).

Lemma get_None o k : get o k = None <-> k ∉ o.*1.
Proof.
  induction o as [|[k' v'] o IH]; simpl.
  - split; [intros _; apply not_elem_of_nil | done].
  - destruct (String.eqb_spec k' k) as [->|Hne].
    + split; [done|]. intros H. exfalso. apply H. by left.
    + rewrite IH, not_elem_of_cons.
      split; [intros ?; split; [congruence | done] | by intros [_ ?]].
Qed.

Lemma set_fresh o k v : get o k = None -> set o k v = o ++ [(k, v)].
Proof.
  induction o as [|[k' v'] o IH]; simpl; [done|].
  destruct (String.eqb k' k); [done|]. intros H. by rewrite IH.
Qed.

Lemma get_elem_of o k v : NoDup o.*1 -> (k, v) ∈ o -> get o k = Some v.
Proof.
  induction o as [|[k' v'] o IH]; simpl; intros Hnd Hin.
  - by apply elem_of_nil in Hin.
  - apply NoDup_cons in Hnd as [Hk' Hnd].
    apply elem_of_cons in Hin as [[= <- <-]|Hin].
    + by rewrite String.eqb_refl.
    + destruct (String.eqb_spec k' k) as [->|Hne]; [|by apply IH].
      exfalso. apply Hk'. apply list_elem_of_fmap. by exists (k, v).
Qed.

Lemma index_keys_plain o :
  Forall (fun kv => array_index kv.1 = None) o -> index_keys o = [].
Proof.
  induction 1 as [|[k v] o Hk _ IH]; [done|].
  unfold index_keys in *. csimpl in *. by rewrite Hk.
Qed.

Lemma name_keys_plain o :
  Forall (fun kv => array_index kv.1 = None) o -> name_keys o = o.*1.
Proof.
  induction 1 as [|[k v] o Hk _ IH]; [done|].
  unfold name_keys in *. csimpl in *. rewrite Hk. by rewrite IH.
Qed.

(** Without array indices among the keys, [Object.keys] gives the keys
    in creation order. *)
Lemma keys_plain o :
  Forall (fun kv => array_index kv.1 = None) o -> keys o = o.*1.
Proof.
  intros H. unfold keys.
  by rewrite index_keys_plain, name_keys_plain.
Qed.
End Values.

End JSObjectFacts.

(* ===================================================================== *)
(** ** Properties of the Hot Module Replacement server *)
(* ===================================================================== *)

Module HMRFacts.
Import HMR.

(** *** The equivalence test *)

Lemma every_from_spec (b : list string) (n : nat) (a : list string) :
  every_from (fun element index => bool_decide (Some element = b !! index)) n a
  = true
  <-> forall i x, a !! i = Some x -> b !! (n + i) = Some x.
Proof.
  revert n. induction a as [|x a IH]; intros n; simpl.
  - split; [intros _ i y Hi; by rewrite lookup_nil in Hi | done].
  - rewrite andb_true_iff, bool_decide_eq_true, IH. split.
    + intros [Hx Ha] [|i] y Hi; simpl in Hi.
      * injection Hi as <-. by rewrite Nat.add_0_r.
      * rewrite <- Nat.add_succ_comm. by apply Ha.
    + intros H. split.
      * symmetry. rewrite <- (Nat.add_0_r n). by apply H.
      * intros i y Hi. rewrite Nat.add_succ_comm. by apply H.
Qed.

Lemma same_sequence_eq (a b : list string) : same_sequence a b <-> a = b.
Proof.
  split; [|by intros ->].
  intros [_ H]. by apply list_eq.
Qed.

Lemma arrayEquals_spec (arrayA arrayB : option (list string)) :
  arrayEquals arrayA arrayB = true
  <-> same_sequence (default [] arrayA) (default [] arrayB).
Proof.
  unfold arrayEquals, every, same_sequence.
  set (a := default [] arrayA). set (b := default [] arrayB).
  rewrite andb_true_iff, Nat.eqb_eq, every_from_spec. split.
  - intros [Hlen H]. split; [done|]. intros i.
    destruct (a !! i) as [x|] eqn:E.
    + symmetry. by apply (H i).
    + symmetry. apply lookup_ge_None. rewrite <- Hlen.
      by apply lookup_ge_None.
  - intros [Hlen H]. split; [done|]. intros i x Hi. simpl. by rewrite <- H.
Qed.

(** C2, as the code has it.  The change is shallow-equivalent exactly
    when the fresh list of dependency specifiers and the cached list of
    the file have the same length and the same elements in the same
    order, where a file without a cached list counts as one whose list
    is empty; every other change is structural. *)
Theorem shallow_equivalence_iff (c : Client) (file : string) (deps : list string) :
  (classify c file deps = ShallowEquivalent
   <-> same_sequence deps (default [] (shallowDependencies c !! file)))
  /\ (classify c file deps = Structural
      <-> ~ same_sequence deps (default [] (shallowDependencies c !! file))).
Proof.
  unfold classify.
  pose proof (arrayEquals_spec (Some deps) (shallowDependencies c !! file)) as H.
  simpl in H.
  destruct (arrayEquals (Some deps) (shallowDependencies c !! file)).
  - split; split; try done.
    + intros _. by apply H.
    + intros Hn. exfalso. apply Hn. by apply H.
  - split; split; try done.
    + intros Hs. apply H in Hs. discriminate.
    + intros _ Hs. apply H in Hs. discriminate.
Qed.

Lemma shallow_equivalence_iff_witness :
  classify sample_client "/app/A.js" ["B"] = ShallowEquivalent
  /\ classify sample_client "/app/A.js" ["B"; "C"] = Structural
  /\ classify untracked_client "/app/new.js" [] = ShallowEquivalent.
Proof.
  split; [|split].
  - apply (proj1 (shallow_equivalence_iff sample_client "/app/A.js" ["B"])).
    apply same_sequence_eq. reflexivity.
  - apply (proj2 (shallow_equivalence_iff sample_client "/app/A.js" ["B"; "C"])).
    intros H. apply same_sequence_eq in H. discriminate.
  - apply (proj1 (shallow_equivalence_iff untracked_client "/app/new.js" [])).
    apply same_sequence_eq. reflexivity.
Defined.

(** C2, as stated, fails: a file that has no cached list and whose fresh
    list is empty is classified shallow-equivalent. *)
Lemma absent_entry_is_shallow_equivalent : ~ equivalence_test_as_stated.
Proof.
  intros H.
  destruct (proj1 (H untracked_client "/app/new.js" []) eq_refl) as (old & Hold & _).
  discriminate.
Qed.

(** *** The modules of a structural update *)

Lemma push_new_modules (old new : JSObject.t HasteModule) ks acc :
  fold_left
    (fun acc module =>
       match JSObject.get old module with
       | Some _ => acc
       | None =>
           match JSObject.get new module with
           | Some m => acc ++ [m]
           | None => acc
           end
       end) ks acc
  = acc ++ (List.filter (fun km => negb (has old km.1))
              (omap (fun k => match JSObject.get new k with
                              | Some m => Some (k, m)
                              | None => None
                              end) ks)).*2.
Proof.
  revert acc. induction ks as [|k ks IH]; intros acc; csimpl.
  - by rewrite app_nil_r.
  - rewrite IH. unfold has.
    destruct (JSObject.get new k) as [m|] eqn:En; csimpl.
    + destruct (JSObject.get old k) eqn:Eo; csimpl; [done|].
      by rewrite <- app_assoc.
    + by destruct (JSObject.get old k).
Qed.

Lemma modulesToUpdate_spec changed old new :
  modulesToUpdate changed old new
  = rev ([changed] ++ newly_discovered old new).
Proof.
  unfold modulesToUpdate, newly_discovered, discovery_order.
  by rewrite push_new_modules.
Qed.

Lemma module_index_from (deps : list HasteModule) (o : JSObject.t HasteModule) :
  NoDup (o.*1 ++ (getName <$> deps)) ->
  fold_left (fun o dep => JSObject.set o (getName dep) dep) deps o
  = o ++ ((fun d => (getName d, d)) <$> deps).
Proof.
  revert o. induction deps as [|d deps IH]; intros o Hnd; csimpl.
  - by rewrite app_nil_r.
  - rewrite JSObjectFacts.set_fresh.
    + rewrite IH.
      * by rewrite <- app_assoc.
      * rewrite fmap_app. csimpl. by rewrite <- app_assoc.
    + apply JSObjectFacts.get_None.
      apply NoDup_app in Hnd as (_ & Hnd & _).
      intros Hin. apply (Hnd _ Hin). by left.
Qed.

Lemma module_index_plain (deps : list HasteModule) :
  NoDup (getName <$> deps) ->
  module_index deps = (fun d => (getName d, d)) <$> deps.
Proof.
  intros Hnd. unfold module_index. by rewrite module_index_from.
Qed.

Lemma discovery_order_entries (o : JSObject.t HasteModule) :
  NoDup o.*1 ->
  Forall (fun kv => JSObject.array_index kv.1 = None) o ->
  discovery_order o = o.
Proof.
  intros Hnd Hplain. unfold discovery_order.
  rewrite JSObjectFacts.keys_plain by done.
  assert (forall l, (forall k v, (k, v) ∈ l -> JSObject.get o k = Some v) ->
            omap (fun k => match JSObject.get o k with
                           | Some m => Some (k, m)
                           | None => None
                           end) l.*1 = l) as H.
  { induction l as [|[k v] l IH]; intros Hl; csimpl; [done|].
    rewrite (Hl k v) by (by left). csimpl. rewrite IH; [done|].
    intros k' v' Hin. apply Hl. by right. }
  apply H. intros k v Hin. by apply JSObjectFacts.get_elem_of.
Qed.

(** With plain names, the newly discovered modules are those the
    resolver returned whose name the previous index does not have, in the
    order in which the resolver returned them. *)
Lemma newly_discovered_resolver_order old (deps : list HasteModule) :
  plain_names deps ->
  newly_discovered old (module_index deps)
  = List.filter (fun d => negb (has old (getName d))) deps.
Proof.
  intros [Hnd Hplain]. unfold newly_discovered.
  rewrite module_index_plain by done.
  rewrite discovery_order_entries.
  - clear. induction deps as [|d deps IH]; csimpl; [done|].
    destruct (has old (getName d)); csimpl; by rewrite IH.
  - by rewrite <- list_fmap_compose.
  - apply Forall_fmap. by apply (Forall_impl _ _ _ Hplain).
Qed.

(** *** Running promise chains *)

Lemma bind_run {A B} (p : M A) (f : A -> M B) st :
  (p ≫= f) st
  = match p st with
    | (inr a, st1, effs1) =>
        let '(r, st2, effs2) := f a st1 in (r, st2, effs1 ++ effs2)
    | (inl e, st1, effs1) => (inl e, st1, effs1)
    end.
Proof. reflexivity. Qed.

Lemma await_run {A} call (outcome : Settled A) st :
  await call outcome st = (outcome, interfered st, [call]).
Proof. unfold await. rewrite !bind_run. simpl. by destruct outcome. Qed.

Lemma messages_app effs1 effs2 :
  messages (effs1 ++ effs2) = messages effs1 ++ messages effs2.
Proof. apply omap_app. Qed.

Lemma messages_In to m effs : In (WsSend to m) effs -> In m (messages effs).
Proof.
  induction effs as [|e effs IH]; simpl; [done|].
  intros [-> | Hin]; unfold messages; csimpl.
  - by left.
  - fold (messages effs). destruct e; csimpl; auto.
Qed.

(** *** The event loop *)

Lemma suspend_then {A} (k : M A) st :
  (suspend ;; k) st = k (interfered st).
Proof.
  change (suspend ;; k) with (suspend ≫= fun _ => k).
  rewrite bind_run. simpl. by destruct (k (interfered st)) as [[r st2] effs].
Qed.

Lemma perform_then {A} e (k : M A) st :
  (perform e ;; k) st = let '(r, st2, effs) := k st in (r, st2, e :: effs).
Proof.
  change (perform e ;; k) with (perform e ≫= fun _ => k).
  rewrite bind_run. simpl. by destruct (k st) as [[r st2] effs].
Qed.

(** One turn of the loop. *)
Lemma event_loop_S {A} fuel choices (els : list (Element A)) settled st :
  event_loop (S fuel) choices els settled st
  = match pick (List.hd 0 choices) els with
    | None => (inr (els, settled), st, [])
    | Some (before, Settles (inl reason), after) =>
        (inl reason, interfered st, [])
    | Some (before, Settles (inr a), after) =>
        event_loop fuel (List.tl choices) (before ++ inr a :: after)
          (settled ++ [a]) (interfered st)
    | Some (before, Calls call next, after) =>
        let '(r, st2, effs) :=
          event_loop fuel (List.tl choices) (before ++ inl next :: after)
            settled (interfered st) in
        (r, st2, call :: effs)
    end.
Proof.
  cbn [event_loop].
  destruct (pick (List.hd 0 choices) els) as [[[before w] after]|]; [|done].
  rewrite suspend_then. destruct w as [[reason|a]|call next]; [done|done|].
  by rewrite perform_then.
Qed.

Lemma nth_waiting_split {A} n (els : list (Element A)) before w after :
  nth_waiting n els = Some (before, w, after) -> els = before ++ inl w :: after.
Proof.
  revert n before. induction els as [|[w0|a] els IH]; intros n before; simpl.
  - done.
  - destruct n as [|n]; [by intros [= <- <- <-]|].
    destruct (nth_waiting n els) as [[[b w'] a']|] eqn:E; [|done].
    intros [= <- <- <-]. simpl. f_equal. by apply (IH n).
  - destruct (nth_waiting n els) as [[[b w'] a']|] eqn:E; [|done].
    intros [= <- <- <-]. simpl. f_equal. by apply (IH n).
Qed.

Lemma nth_waiting_None {A} n (els : list (Element A)) :
  nth_waiting n els = None -> count_waiting els <= n.
Proof.
  unfold count_waiting. revert n.
  induction els as [|[w0|a] els IH]; intros n; simpl.
  - lia.
  - destruct n; [done|].
    destruct (nth_waiting n els) as [[[? ?] ?]|] eqn:E; [done|].
    intros _. specialize (IH n E). lia.
  - destruct (nth_waiting n els) as [[[? ?] ?]|] eqn:E; [done|].
    intros _. by apply IH.
Qed.

Lemma pick_split {A} choice (els : list (Element A)) before w after :
  pick choice els = Some (before, w, after) -> els = before ++ inl w :: after.
Proof. apply nth_waiting_split. Qed.

Lemma pick_None {A} choice (els : list (Element A)) :
  pick choice els = None -> count_waiting els = 0.
Proof.
  unfold pick. intros H. apply nth_waiting_None in H.
  destruct (count_waiting els) as [|n] eqn:E; [done|].
  pose proof (Nat.mod_upper_bound choice (S n)). lia.
Qed.

(** The first waiting promise is the one taken by the choice [0]. *)
Lemma pick_first {A} (done : list A) w (rest : list (Element A)) :
  pick 0 ((inr <$> done) ++ inl w :: rest) = Some (inr <$> done, w, rest).
Proof.
  unfold pick. rewrite Nat.Div0.mod_0_l.
  induction done as [|a done IH]; cbn [fmap list_fmap app nth_waiting]; [done|].
  by rewrite IH.
Qed.

Lemma wakeups_pos {A} (w : Waiting A) : 0 < wakeups w.
Proof. destruct w; simpl; lia. Qed.

Lemma nothing_left {A} (els : list (Element A)) :
  sum_list (wakeups_left <$> els) = 0 -> count_waiting els = 0.
Proof.
  unfold count_waiting. induction els as [|[w|a] els IH]; simpl; [done| |done].
  pose proof (wakeups_pos w). lia.
Qed.

(** Once nothing waits, every position holds a value. *)
Lemma all_resolved {A} (els : list (Element A)) :
  count_waiting els = 0 ->
  els = inr <$> resolved els
  /\ List.concat (calls_left <$> els) = []
  /\ omap value_left els = []
  /\ final <$> els = inr <$> resolved els.
Proof.
  unfold count_waiting, resolved.
  induction els as [|[w|a] els IH]; simpl; [done|done|].
  intros H. destruct (IH H) as (H1 & H2 & H3 & H4).
  csimpl. repeat split; [by f_equal | done | done | by f_equal].
Qed.

Lemma sum_app (l1 l2 : list nat) :
  sum_list (l1 ++ l2) = sum_list l1 + sum_list l2.
Proof. induction l1 as [|n l1 IH]; simpl; lia. Qed.

Lemma wakeups_middle {A} (before after : list (Element A)) e :
  sum_list (wakeups_left <$> (before ++ e :: after))
  = wakeups_left e + sum_list (wakeups_left <$> (before ++ after)).
Proof. rewrite !fmap_app, !sum_app. csimpl. lia. Qed.

Lemma calls_middle {A} (before after : list (Element A)) e :
  List.concat (calls_left <$> (before ++ e :: after))
  ≡ₚ calls_left e ++ List.concat (calls_left <$> (before ++ after)).
Proof.
  rewrite !fmap_app, !concat_app. simpl.
  rewrite !app_assoc. apply Permutation_app_tail, Permutation_app_comm.
Qed.

Lemma values_middle {A} (before after : list (Element A)) e :
  omap value_left (before ++ e :: after)
  ≡ₚ option_list (value_left e) ++ omap value_left (before ++ after).
Proof.
  rewrite !omap_app. csimpl.
  destruct (value_left e) as [a|]; simpl; [|done].
  symmetry. apply Permutation_middle.
Qed.

Lemma final_middle {A} (before after : list (Element A)) e e' :
  final e = final e' ->
  final <$> (before ++ e :: after) = final <$> (before ++ e' :: after).
Proof. intros H. rewrite !fmap_app. simpl. by rewrite H. Qed.

(** What a [Promise.all] that resolves has done: every position holds
    the value its promise was to resolve with; every call of every
    promise was made, once; the values were resolved in some order. *)
Lemma event_loop_resolved {A} fuel choices (els : list (Element A))
    settled st els' settled' st1 effs :
  sum_list (wakeups_left <$> els) <= fuel ->
  event_loop fuel choices els settled st = (inr (els', settled'), st1, effs) ->
  final <$> els = inr <$> resolved els'
  /\ effs ≡ₚ List.concat (calls_left <$> els)
  /\ exists new, settled' = settled ++ new /\ new ≡ₚ omap value_left els.
Proof.
  revert choices els settled st effs.
  induction fuel as [|fuel IH]; intros choices els settled st effs Hfuel H.
  - injection H as <- <- <- <-.
    assert (count_waiting els = 0) as H0 by (apply nothing_left; lia).
    destruct (all_resolved els H0) as (_ & H2 & H3 & H4).
    rewrite H2, H3. split; [done|]. split; [done|].
      exists []. by rewrite app_nil_r.
  - rewrite event_loop_S in H.
    destruct (pick (List.hd 0 choices) els) as [[[before w] after]|] eqn:Ep.
    + apply pick_split in Ep as ->. rewrite wakeups_middle in Hfuel.
      destruct w as [[reason|a]|call next]; [done| |].
      * simpl in Hfuel.
        apply IH in H as (H1 & H2 & new & -> & H3);
          [|rewrite wakeups_middle; simpl; lia].
        split; [|split].
        -- rewrite <- H1. by apply final_middle.
        -- rewrite H2, !calls_middle. done.
        -- exists (a :: new). split; [by rewrite <- app_assoc|].
           rewrite values_middle, H3, (values_middle before after (inr a)).
           done.
      * simpl in Hfuel.
        destruct (event_loop fuel (List.tl choices)
                    (before ++ inl next :: after) settled (interfered st))
          as [[r st2] effs2] eqn:E.
        injection H as -> -> <-.
        apply IH in E as (H1 & H2 & new & -> & H3);
          [|rewrite wakeups_middle; simpl; lia].
        split; [|split].
        -- rewrite <- H1. by apply final_middle.
        -- rewrite H2, !calls_middle. done.
        -- exists new. split; [done|].
           by rewrite H3, !values_middle.
    + injection H as <- <- <- <-.
      apply pick_None in Ep.
      destruct (all_resolved els Ep) as (_ & H2 & H3 & H4).
      rewrite H2, H3. split; [done|]. split; [done|].
      exists []. by rewrite app_nil_r.
Qed.

(** Every effect of the loop is a call of one of the promises. *)
Lemma event_loop_effects {A} fuel choices (els : list (Element A)) settled st e :
  In e (event_loop fuel choices els settled st).2 ->
  exists el, el ∈ els /\ In e (calls_left el).
Proof.
  revert choices els settled st.
  induction fuel as [|fuel IH]; intros choices els settled st; [done|].
  rewrite event_loop_S.
  destruct (pick (List.hd 0 choices) els) as [[[before w] after]|] eqn:Ep;
    [|done].
  apply pick_split in Ep as ->.
  destruct w as [[reason|a]|call next]; [done| |].
  - intros H. apply IH in H as (el & Hel & He).
    apply elem_of_app in Hel as [Hel|Hel].
    + exists el. split; [|done]. apply elem_of_app. by left.
    + apply elem_of_cons in Hel as [->|Hel]; [done|].
      exists el. split; [|done]. apply elem_of_app. right. by right.
  - destruct (event_loop fuel (List.tl choices)
                (before ++ inl next :: after) settled (interfered st))
      as [[r st2] effs2] eqn:E.
    intros [<-|H].
    + exists (inl (Calls call next)). split; [|by left].
      apply elem_of_app. right. by left.
    + assert (In e (event_loop fuel (List.tl choices)
                      (before ++ inl next :: after) settled (interfered st)).2)
        as H' by (by rewrite E).
      apply IH in H' as (el & Hel & He).
      apply elem_of_app in Hel as [Hel|Hel].
      * exists el. split; [|done]. apply elem_of_app. by left.
      * apply elem_of_cons in Hel as [->|Hel].
        -- exists (inl (Calls call next)). split; [|by right].
           apply elem_of_app. right. by left.
        -- exists el. split; [|done]. apply elem_of_app. right. by right.
Qed.

(** The reason the loop is rejected with is the reason one of the
    promises is rejected with. *)
Lemma event_loop_rejected {A} fuel choices (els : list (Element A))
    settled st reason :
  (event_loop fuel choices els settled st).1.1 = inl reason ->
  exists el, el ∈ els /\ final el = inl reason.
Proof.
  revert choices els settled st.
  induction fuel as [|fuel IH]; intros choices els settled st; [done|].
  rewrite event_loop_S.
  destruct (pick (List.hd 0 choices) els) as [[[before w] after]|] eqn:Ep;
    [|done].
  apply pick_split in Ep as ->.
  destruct w as [[reason'|a]|call next].
  - intros [= ->]. exists (inl (Settles (inl reason))).
    split; [|done]. apply elem_of_app. right. by left.
  - intros H. apply IH in H as (el & Hel & He).
    apply elem_of_app in Hel as [Hel|Hel].
    + exists el. split; [|done]. apply elem_of_app. by left.
    + apply elem_of_cons in Hel as [->|Hel]; [done|].
      exists el. split; [|done]. apply elem_of_app. right. by right.
  - destruct (event_loop fuel (List.tl choices)
                (before ++ inl next :: after) settled (interfered st))
      as [[r st2] effs2] eqn:E.
    simpl. intros ->.
    assert ((event_loop fuel (List.tl choices)
               (before ++ inl next :: after) settled (interfered st)).1.1
            = inl reason) as H' by (by rewrite E).
    apply IH in H' as (el & Hel & He).
    apply elem_of_app in Hel as [Hel|Hel].
    + exists el. split; [|done]. apply elem_of_app. by left.
    + apply elem_of_cons in Hel as [->|Hel].
      * exists (inl (Calls call next)). split; [|done].
        apply elem_of_app. right. by left.
      * exists el. split; [|done]. apply elem_of_app. right. by right.
Qed.

(** The loop touches the state only by letting others run. *)
Lemma keeps_event_loop I {A} fuel choices (els : list (Element A)) settled :
  lasting I -> keeps I (event_loop fuel choices els settled).
Proof.
  intros HI. revert choices els settled.
  induction fuel as [|fuel IH]; intros choices els settled st Hst; [done|].
  rewrite event_loop_S.
  destruct (pick (List.hd 0 choices) els) as [[[before w] after]|]; [|done].
  destruct w as [[reason|a]|call next].
  - by apply HI.
  - by apply IH, HI.
  - specialize (IH (List.tl choices) (before ++ inl next :: after) settled
                  (interfered st) (HI st Hst)).
    by destruct (event_loop fuel (List.tl choices)
                   (before ++ inl next :: after) settled (interfered st))
      as [[r st2] effs2].
Qed.

(** When the event loop always takes the first waiting promise, the
    promises run one after the other, in the order of the array. *)
Lemma event_loop_in_order {A} fuel (done : list A) (ws : list (Waiting A))
    vals settled st :
  sum_list (wakeups <$> ws) <= fuel ->
  Forall2 (fun w a => outcome_of w = inr a) ws vals ->
  (event_loop fuel [] ((inr <$> done) ++ (inl <$> ws)) settled st).1.1
  = inr ((inr <$> done) ++ (inr <$> vals), settled ++ vals)
  /\ (event_loop fuel [] ((inr <$> done) ++ (inl <$> ws)) settled st).2
     = List.concat (calls <$> ws).
Proof.
  revert done ws vals settled st.
  induction fuel as [|fuel IH]; intros done ws vals settled st Hfuel Hv.
  - destruct Hv as [|w a ws vals Hw Hv].
    + simpl. by rewrite !app_nil_r.
    + csimpl in Hfuel. pose proof (wakeups_pos w). lia.
  - rewrite event_loop_S. cbn [List.hd List.tl].
    destruct Hv as [|w a ws vals Hw Hv].
    + simpl. rewrite app_nil_r.
      destruct (pick 0 (inr <$> done)) as [[[before w] after]|] eqn:Ep.
      * apply pick_split in Ep. exfalso.
        assert (inl w ∈ ((inr <$> done) : list (Element A))) as Hin.
        { rewrite Ep. apply elem_of_app. right. by left. }
        apply list_elem_of_fmap in Hin as (? & ? & _). discriminate.
      * simpl. by rewrite !app_nil_r.
    + cbn [fmap list_fmap]. rewrite pick_first.
      csimpl in Hfuel.
      destruct w as [[reason|a']|call next]; simpl in Hw.
      * discriminate.
      * injection Hw as ->.
        specialize (IH (done ++ [a]) ws vals (settled ++ [a]) (interfered st)).
        rewrite fmap_app, <- !app_assoc in IH. simpl in IH.
        destruct IH as [IH1 IH2]; [csimpl in Hfuel; lia | done |].
        by rewrite IH1, IH2.
      * specialize (IH done (next :: ws) (a :: vals) settled (interfered st)).
        cbn [fmap list_fmap] in IH.
        destruct IH as [IH1 IH2];
          [csimpl in *; lia | by constructor |].
        destruct (event_loop fuel [] ((inr <$> done) ++ inl next :: (inl <$> ws))
                    settled (interfered st)) as [[r st2] effs2].
        simpl in *. by rewrite IH1, IH2.
Qed.

(** [Promise.all], from the loop. *)
Lemma all_run {A} choices (ps : list (Waiting A)) st :
  all choices ps st
  = let '(r, st1, effs) :=
      event_loop (sum_list (wakeups <$> ps)) choices (inl <$> ps) [] st in
    (match r with
     | inr r => inr (resolved r.1, r.2)
     | inl reason => inl reason
     end, st1, effs).
Proof.
  unfold all. rewrite bind_run.
  destruct (event_loop _ choices (inl <$> ps) [] st) as [[[reason|r] st1] effs];
    simpl; [done|]. by rewrite app_nil_r.
Qed.

Lemma waiting_elements {A} (ps : list (Waiting A)) :
  wakeups_left <$> ((inl <$> ps) : list (Element A)) = wakeups <$> ps
  /\ calls_left <$> ((inl <$> ps) : list (Element A)) = calls <$> ps
  /\ final <$> ((inl <$> ps) : list (Element A)) = outcome_of <$> ps.
Proof. by rewrite <- !list_fmap_compose. Qed.

Lemma resolved_values {A} (l : list A) :
  resolved ((inr <$> l) : list (Element A)) = l.
Proof. unfold resolved. induction l; csimpl; [done | by f_equal]. Qed.

Lemma outcomes_resolved {A} (ps : list (Waiting A)) (vals : list A) :
  outcome_of <$> ps = inr <$> vals ->
  Forall2 (fun w a => outcome_of w = inr a) ps vals.
Proof.
  revert vals. induction ps as [|p ps IH]; intros [|v vs] H; csimpl in H;
    try discriminate; [constructor|].
  injection H as Hp Hps. constructor; auto.
Qed.

(** What a [Promise.all] that resolves has done. *)
Lemma all_resolved_run {A} choices (ps : list (Waiting A)) st vals settled st1 effs :
  all choices ps st = (inr (vals, settled), st1, effs) ->
  outcome_of <$> ps = inr <$> vals
  /\ effs ≡ₚ List.concat (calls <$> ps)
  /\ settled ≡ₚ vals
  /\ (choices = [] -> settled = vals /\ effs = List.concat (calls <$> ps)).
Proof.
  rewrite all_run. intros H.
  destruct (waiting_elements ps) as (Hw & Hc & Hf).
  destruct (event_loop _ choices (inl <$> ps) [] st) as [[[reason|r] s1] e1] eqn:E;
    [done|].
  destruct r as [els' settled']. injection H as <- <- <- <-.
  pose proof E as E'.
  apply event_loop_resolved in E as (H1 & H2 & new & -> & H3);
    [|by rewrite Hw].
  rewrite Hf in H1. rewrite Hc in H2. simpl in *.
  assert (omap value_left ((inl <$> ps) : list (Element A)) = resolved els')
    as Hvals.
  { clear -H1. revert H1. generalize (resolved els'). 
    induction ps as [|p ps IH]; intros [|v vs]; csimpl; try done.
    intros [= Hp Hps]. rewrite Hp. csimpl. f_equal. by apply IH. }
  rewrite Hvals in H3.
  split; [done|]. split; [done|]. split; [done|].
  intros ->.
  destruct (event_loop_in_order (sum_list (wakeups <$> ps)) [] ps
              (resolved els') [] st) as [I1 I2];
    [done | by apply outcomes_resolved |].
  simpl in I1, I2. rewrite E' in I1. rewrite E' in I2. simpl in I1, I2.
  injection I1 as _ <-. by split.
Qed.

Lemma all_effects {A} choices (ps : list (Waiting A)) st e :
  In e (all choices ps st).2 -> exists p, p ∈ ps /\ In e (calls p).
Proof.
  rewrite all_run.
  destruct (event_loop _ choices (inl <$> ps) [] st) as [[r s1] e1] eqn:E.
  simpl. intros H.
  assert (In e (event_loop (sum_list (wakeups <$> ps)) choices
                  (inl <$> ps) [] st).2) as H' by (by rewrite E).
  apply event_loop_effects in H' as (el & Hel & He).
  apply list_elem_of_fmap in Hel as (p & -> & Hp). by exists p.
Qed.

Lemma all_rejected {A} choices (ps : list (Waiting A)) st reason :
  (all choices ps st).1.1 = inl reason ->
  exists p, p ∈ ps /\ outcome_of p = inl reason.
Proof.
  rewrite all_run.
  destruct (event_loop _ choices (inl <$> ps) [] st) as [[r s1] e1] eqn:E.
  simpl. intros H. destruct r as [reason'|r]; [|done]. injection H as ->.
  assert ((event_loop (sum_list (wakeups <$> ps)) choices
             (inl <$> ps) [] st).1.1 = inl reason) as H' by (by rewrite E).
  apply event_loop_rejected in H' as (el & Hel & He).
  apply list_elem_of_fmap in Hel as (p & -> & Hp). by exists p.
Qed.

Lemma keeps_all I {A} choices (ps : list (Waiting A)) :
  lasting I -> keeps I (all choices ps).
Proof.
  intros HI st Hst. rewrite all_run.
  pose proof (keeps_event_loop I (sum_list (wakeups <$> ps)) choices
                (inl <$> ps) [] HI st Hst) as H.
  by destruct (event_loop _ choices (inl <$> ps) [] st) as [[r s1] e1].
Qed.

Lemma no_frames effs : Forall not_a_frame effs -> messages effs = [].
Proof.
  induction 1 as [|e effs He _ IH]; [done|].
  unfold messages in *. destruct e; csimpl; done.
Qed.

Lemma silent_all {A} choices (ps : list (Waiting A)) :
  Forall (fun p => Forall not_a_frame (calls p)) ps -> silent (all choices ps).
Proof.
  intros Hps st. apply no_frames, Forall_forall. intros e He.
  apply list_elem_of_In, all_effects in He as (p & Hp & He).
  rewrite Forall_forall in Hps. specialize (Hps p Hp).
  rewrite Forall_forall in Hps. apply Hps. by apply list_elem_of_In.
Qed.

Lemma spoken_all {A} choices (ps : list (Waiting A)) :
  Forall (fun p => outcome_of p <> inl Nullish) ps -> spoken (all choices ps).
Proof.
  intros Hps st H. apply all_rejected in H as (p & Hp & H).
  rewrite Forall_forall in Hps. by apply (Hps p Hp).
Qed.

Lemma silent_ret {A} (a : A) : silent (mret a).
Proof. done. Qed.

Lemma silent_throw {A} e : silent (@throw A e).
Proof. done. Qed.

Lemma silent_bind {A B} (p : M A) (f : A -> M B) :
  silent p -> (forall a, silent (f a)) -> silent (p ≫= f).
Proof.
  intros Hp Hf st. rewrite bind_run. specialize (Hp st).
  destruct (p st) as [[[e|a] st1] effs1]; [done|].
  specialize (Hf a st1). destruct (f a st1) as [[r st2] effs2].
  simpl in *. by rewrite messages_app, Hp, Hf.
Qed.

Lemma silent_catch {A} (p : M A) (h : Reason -> M A) :
  silent p -> (forall e, silent (h e)) -> silent (catch p h).
Proof.
  intros Hp Hh st. unfold catch. specialize (Hp st).
  destruct (p st) as [[[e|a] st1] effs1]; [|done].
  specialize (Hh e st1). destruct (h e st1) as [[r st2] effs2].
  simpl in *. by rewrite messages_app, Hp, Hh.
Qed.

Lemma silent_await {A} call (outcome : Settled A) :
  messages [call] = [] -> silent (await call outcome).
Proof. intros H st. by rewrite await_run. Qed.

Lemma silent_getClient : silent getClient.
Proof. done. Qed.

Lemma silent_setClient c : silent (setClient c).
Proof. done. Qed.

(** Chains built from the combinators are handled one combinator at a
    time. *)
Ltac silence :=
  repeat match goal with
    | |- silent (mret _) => apply silent_ret
    | |- silent (throw _) => apply silent_throw
    | |- silent getClient => apply silent_getClient
    | |- silent (setClient _) => apply silent_setClient
    | |- silent (await _ _) => apply silent_await; reflexivity
    | |- silent (mbind _ _) => apply silent_bind; [|intros ?]
    | |- silent (match ?x with _ => _ end) => destruct x
    | |- silent _ => progress cbv zeta
    end.

(** Chains that are not rejected with [undefined] or [null]. *)
Lemma spoken_ret {A} (a : A) : spoken (mret a).
Proof. done. Qed.

Lemma spoken_bind {A B} (p : M A) (f : A -> M B) :
  spoken p -> (forall a, spoken (f a)) -> spoken (p ≫= f).
Proof.
  intros Hp Hf st. rewrite bind_run. specialize (Hp st).
  destruct (p st) as [[[e|a] st1] effs1]; [simpl in *; congruence|].
  specialize (Hf a st1). by destruct (f a st1) as [[r st2] effs2].
Qed.

Lemma spoken_await {A} call (outcome : Settled A) :
  outcome <> inl Nullish -> spoken (await call outcome).
Proof. intros H st. by rewrite await_run. Qed.

Lemma spoken_getClient : spoken getClient.
Proof. done. Qed.

Lemma spoken_setClient c : spoken (setClient c).
Proof. done. Qed.

Ltac speak :=
  repeat match goal with
    | |- spoken (mret _) => apply spoken_ret
    | |- spoken getClient => apply spoken_getClient
    | |- spoken (setClient _) => apply spoken_setClient
    | |- spoken (mbind _ _) => apply spoken_bind; [|intros ?]
    | |- spoken (match ?x with _ => _ end) => destruct x
    | |- spoken _ => progress cbv zeta
    end.

Lemma frames_app effs1 effs2 :
  frames (effs1 ++ effs2) = frames effs1 ++ frames effs2.
Proof. apply omap_app. Qed.

Lemma frames_messages effs : (frames effs).*2 = messages effs.
Proof.
  unfold frames, messages. induction effs as [|e effs IH]; [done|].
  destruct e; csimpl; by rewrite ?IH.
Qed.

Lemma frames_silent effs : messages effs = [] -> frames effs = [].
Proof.
  rewrite <- frames_messages. by destruct (frames effs).
Qed.

Lemma frames_In to m effs : In (WsSend to m) effs <-> In (to, m) (frames effs).
Proof.
  unfold frames. induction effs as [|e effs IH]; [done|].
  destruct e; csimpl; rewrite <- ?IH; try (split; [intros [?|?]|]; auto; done).
  split; intros [H|H]; auto; left; congruence.
Qed.

Section Stages.
Variable co : Collaborators.

(** *** The elements of the two [Promise.all] *)

Lemma dependency_calls dep :
  calls (dependency co dep)
  = if is_leaf dep then [] else [GetShallowDependencies (path dep)].
Proof.
  unfold dependency, is_leaf.
  by destruct (isAsset dep || isAsset_DEPRECATED dep || isJSON dep).
Qed.

Lemma dependency_outcome dep :
  outcome_of (dependency co dep)
  = if is_leaf dep
    then inr {| di_path := path dep; di_name := None; di_deps := [] |}
    else match ps_getShallowDependencies co (path dep) with
         | inr ds => inr {| di_path := path dep;
                            di_name := Some (getName dep); di_deps := ds |}
         | inl reason => inl reason
         end.
Proof.
  unfold dependency, is_leaf.
  by destruct (isAsset dep || isAsset_DEPRECATED dep || isJSON dep).
Qed.

Lemma dependency_requests deps :
  List.concat (calls <$> (dependency co <$> deps)) = shallow_requests deps.
Proof.
  unfold shallow_requests. induction deps as [|dep deps IH]; [done|].
  cbn [fmap list_fmap List.concat List.filter]. rewrite dependency_calls.
  fold (fmap (M := list) (dependency co) deps).
  fold (fmap (M := list) (@calls DepInfo) (dependency co <$> deps)).
  rewrite IH. by destruct (is_leaf dep).
Qed.

Lemma dependency_infos deps infos :
  outcome_of <$> (dependency co <$> deps) = inr <$> infos ->
  Forall2 (fun dep info =>
             di_path info = path dep
             /\ if is_leaf dep then di_deps info = []
                else ps_getShallowDependencies co (path dep)
                     = inr (di_deps info)) deps infos.
Proof.
  revert infos. induction deps as [|dep deps IH]; intros [|info infos] H;
    csimpl in H; try discriminate; [constructor|].
  injection H as Hd H. constructor; [|by apply IH].
  rewrite dependency_outcome in Hd. destruct (is_leaf dep).
  - by injection Hd as <-.
  - destruct (ps_getShallowDependencies co (path dep)); [done|].
    by injection Hd as <-.
Qed.

Lemma names_resolved (deps vals : list HasteModule) :
  outcome_of <$> ((fun dep => Settles (inr dep)) <$> deps) = inr <$> vals ->
  vals = deps.
Proof.
  revert vals. induction deps as [|dep deps IH]; intros [|v vs] H;
    csimpl in H; try discriminate; [done|].
  injection H as -> H. f_equal. by apply IH.
Qed.

Lemma names_call_nothing (deps : list HasteModule) :
  List.concat (calls <$> ((fun dep => Settles (A := HasteModule) (inr dep)) <$> deps))
  = [].
Proof. induction deps as [|dep deps IH]; [done|]. csimpl. exact IH. Qed.

Lemma silent_getDependencies platform bundleEntry :
  silent (getDependencies co platform bundleEntry).
Proof.
  unfold getDependencies. silence.
  - apply silent_all, Forall_fmap, Forall_forall. intros dep _. simpl.
    rewrite dependency_calls. destruct (is_leaf dep); by repeat constructor.
  - apply silent_all, Forall_fmap, Forall_forall. intros dep _. constructor.
Qed.

Lemma spoken_getDependencies platform bundleEntry :
  reasons_are_objects co -> spoken (getDependencies co platform bundleEntry).
Proof.
  intros (H1 & H2 & H3 & H4). unfold getDependencies. speak.
  - by apply spoken_await.
  - apply spoken_all, Forall_fmap, Forall_forall. intros dep _. simpl.
    rewrite dependency_outcome. destruct (is_leaf dep); [done|].
    specialize (H2 (path dep)).
    by destruct (ps_getShallowDependencies co (path dep)) as [[|e]|ds].
  - apply spoken_all, Forall_fmap, Forall_forall. intros dep _. done.
  - by apply spoken_await.
Qed.

Lemma silent_onShallowDependencies file deps :
  silent (onShallowDependencies co file deps).
Proof.
  unfold onShallowDependencies. silence. apply silent_getDependencies.
Qed.

Lemma spoken_onShallowDependencies file deps :
  reasons_are_objects co -> spoken (onShallowDependencies co file deps).
Proof.
  intros H. pose proof H as (H1 & _).
  unfold onShallowDependencies. speak.
  - by apply spoken_await.
  - by apply spoken_getDependencies.
Qed.

Lemma silent_onResolutionResponse file rr :
  silent (onResolutionResponse co file rr).
Proof. unfold onResolutionResponse. silence. Qed.

Lemma spoken_onResolutionResponse file rr :
  reasons_are_objects co -> spoken (onResolutionResponse co file rr).
Proof.
  intros (_ & _ & H3 & _). unfold onResolutionResponse. speak.
  by apply spoken_await.
Qed.

Lemma silent_onBundle inv bundle : silent (onBundle inv bundle).
Proof. unfold onBundle. silence. Qed.

Lemma spoken_onBundle inv bundle : spoken (onBundle inv bundle).
Proof. unfold onBundle. speak. Qed.

Lemma silent_pipeline inv file : silent (pipeline co inv file).
Proof.
  unfold pipeline. silence.
  - apply silent_onShallowDependencies.
  - apply silent_onResolutionResponse.
  - apply silent_onBundle.
Qed.

Lemma spoken_pipeline inv file :
  reasons_are_objects co -> spoken (pipeline co inv file).
Proof.
  intros H. pose proof H as (_ & H2 & _). unfold pipeline. speak.
  - by apply spoken_await.
  - by apply spoken_onShallowDependencies.
  - by apply spoken_onResolutionResponse.
  - apply spoken_onBundle.
Qed.

Lemma bind_inr {A B} (p : M A) (f : A -> M B) st b st2 effs :
  (p ≫= f) st = (inr b, st2, effs) ->
  exists a st1 effs1 effs2,
    p st = (inr a, st1, effs1) /\ f a st1 = (inr b, st2, effs2)
    /\ effs = effs1 ++ effs2.
Proof.
  rewrite bind_run. destruct (p st) as [[[e|a] st1] effs1]; [done|].
  destruct (f a st1) as [[r st2'] effs2] eqn:Ef. intros [= -> -> <-].
  by exists a, st1, effs1, effs2.
Qed.


Lemma done_inl (p : M unit) st reason st1 effs :
  done p st = (inl reason, st1, effs) ->
  exists effs0,
    p st = (inl reason, st1, effs0) /\ effs = effs0 ++ [UncaughtException reason].
Proof.
  unfold done. destruct (p st) as [[[reason'|[]] st2] effs2]; [|done].
  intros [= <- <- <-]. by exists effs2.
Qed.

Lemma known_error_type_spec e :
  known_error_type (type e) = true <-> passed_through e.
Proof.
  unfold known_error_type, passed_through.
  rewrite !orb_true_iff, !bool_decide_eq_true. tauto.
Qed.

Lemma onRejected_run e st :
  onRejected (Raised e) st
  = if known_error_type (type e)
    then (inr (Some (Error {| eb_type := type e;
                              eb_description := description e;
                              eb_filename := filename e;
                              eb_lineNumber := lineNumber e |})), st, [])
    else (inr (Some (Error {| eb_type := Some "InternalError";
                              eb_description := Some internal_error_description;
                              eb_filename := None;
                              eb_lineNumber := None |})),
          st, [ConsoleError e]).
Proof. unfold onRejected. by destruct (known_error_type (type e)). Qed.

(** The handler sends nothing and leaves the state; it ends with an
    [error] message, or, for a reason that is [undefined] or [null],
    throws. *)
Lemma onRejected_cases reason st :
  exists r log,
    onRejected reason st = (r, st, log)
    /\ messages log = []
    /\ match reason with
       | Nullish => r = inl (Raised TypeError_type) /\ log = []
       | Raised _ => exists body, r = inr (Some (Error body))
       end.
Proof.
  destruct reason as [|e].
  - by eexists _, _.
  - rewrite onRejected_run.
    destruct (known_error_type (type e)); eexists _, _; eauto.
Qed.

Lemma silent_onRejected e : silent (onRejected e).
Proof.
  intros st. destruct (onRejected_cases e st) as (r & log & -> & H & _). done.
Qed.

Lemma onUpdate_run update st :
  onUpdate update st
  = (inr tt, st,
     match client st, update with
     | Some c, Some m => [WsSend (ws c) m]
     | _, _ => []
     end).
Proof.
  unfold onUpdate. rewrite bind_run. simpl.
  destruct (client st) as [c|], update as [m|]; reflexivity.
Qed.

Lemma pipeline_result inv file st update st1 effs :
  pipeline co inv file st = (inr update, st1, effs) ->
  handed_over inv update.
Proof.
  unfold pipeline. intros H.
  apply bind_inr in H as (deps & sa & ea & eb & _ & H & _).
  apply bind_inr in H as (rr & sb & ec & ed & _ & H & _).
  apply bind_inr in H as (bundle & sc & ee & ef & _ & H & _).
  unfold onBundle in H. rewrite bind_run in H. simpl in H.
  destruct (client sc), bundle as [b|]; simpl in H;
    try (injection H as <- _ _; exact I).
  destruct (isEmpty b); simpl in H; injection H as <- _ _; done.
Qed.

(** The chain with its catch handler: it sends nothing; it hands over
    an [update] with the captured map, an [error] or nothing; or it is
    rejected by the handler itself, when the chain before it was
    rejected with [undefined] or [null]. *)
Lemma caught_run inv file st :
  exists r st1 effs,
    catch (pipeline co inv file) onRejected st = (r, st1, effs)
    /\ messages effs = []
    /\ match r with
       | inr update => handed_over inv update
       | inl reason =>
           reason = Raised TypeError_type
           /\ (pipeline co inv file st).1.1 = inl Nullish
       end.
Proof.
  pose proof (silent_catch _ _ (silent_pipeline inv file) silent_onRejected st)
    as Hsilent.
  unfold catch in *.
  destruct (pipeline co inv file st) as [[[e|update] st1] effs1] eqn:Ep.
  - destruct (onRejected_cases e st1) as (r & log & Hr & _ & Hcase).
    rewrite Hr in *. exists r, st1, (effs1 ++ log).
    split; [done|]. split; [exact Hsilent|].
    destruct e as [|e]; [by destruct Hcase as [-> _]|].
    by destruct Hcase as [body ->].
  - exists (inr update), st1, effs1. repeat split; [done|].
    by apply (pipeline_result inv file st update st1 effs1).
Qed.

(** What follows [stat]: at most one frame, an [update] with the
    captured map or an [error], sent to the client of that moment. *)
Lemma afterStat_run inv file stat st :
  exists r st1 effs,
    afterStat co inv file stat st = (r, st1, effs)
    /\ match r with
       | inr _ =>
           frames effs = []
           \/ exists c1 m, client st1 = Some c1 /\ frames effs = [(ws c1, m)]
                           /\ is_update_or_error m /\ handed_over inv (Some m)
       | inl reason =>
           frames effs = [] /\ reason = Raised TypeError_type
           /\ stat = inr tt
           /\ (pipeline co inv file st).1.1 = inl Nullish
       end.
Proof.
  destruct stat as [e|[]]; simpl.
  { exists (inr tt), st, []. split; [done | by left]. }
  destruct (caught_run inv file st) as (r & st1 & effs & Hc & Hs & Hu).
  rewrite bind_run, Hc. destruct r as [reason|update].
  - exists (inl reason), st1, effs. split; [done|].
    destruct Hu as [-> Hp]. by split; [apply frames_silent|].
  - rewrite onUpdate_run.
    eexists (inr tt), _, _. split; [reflexivity|].
    rewrite frames_app, (frames_silent effs Hs). simpl.
    destruct (client st1) as [c|] eqn:Ec, update as [m|]; simpl; auto.
    right. exists c, m. repeat split; [|done].
    destruct m; done.
Qed.

(** The listener, once the client is known to be there when the change
    is reported. *)
Lemma listener_run inv file stat st c :
  client st = Some c ->
  exists r st2 effs,
    afterStat co inv file stat (interfered st) = (r, st2, effs)
    /\ hmrFileChangeListener co inv file stat st
       = match r with
         | inr _ =>
             (match client st2 with
              | Some _ => inr tt
              | None => inl (Raised TypeError)
              end,
              st2,
              [WsSend (ws c) UpdateStart] ++ effs
              ++ match client st2 with
                 | Some c2 => [WsSend (ws c2) UpdateDone]
                 | None => []
                 end)
         | inl reason => (inl reason, st2, [WsSend (ws c) UpdateStart] ++ effs)
         end.
Proof.
  intros Hc.
  destruct (afterStat co inv file stat (interfered st)) as [[r st2] effs] eqn:Ha.
  exists r, st2, effs. split; [done|].
  unfold hmrFileChangeListener, clientSend.
  revert Ha. generalize (afterStat co inv file stat). intros mid Ha.
  rewrite bind_run. simpl. rewrite Hc.
  rewrite !bind_run. simpl. rewrite Hc. simpl.
  rewrite bind_run. simpl. rewrite bind_run, Ha. simpl.
  destruct r as [reason|[]]; [done|].
  rewrite bind_run. simpl.
  destruct (client st2) as [c2|]; simpl; by rewrite ?app_nil_r.
Qed.

(** Where [getDependencies] succeeds, with all it computed and asked. *)
Lemma getDependencies_result platform bundleEntry st s st1 effs :
  getDependencies co platform bundleEntry st = (inr s, st1, effs) ->
  let options := {| opt_platform := platform; opt_dev := true;
                    opt_entryFile := bundleEntry; opt_recursive := None |} in
  let response := snap_resolutionResponse s in
  ps_getDependencies co options = inr response
  /\ getInverseDependencies co response = inr (snap_inverseDependenciesCache s)
  /\ snap_dependenciesCache s = path <$> dependencies response
  /\ (exists named,
        named ≡ₚ dependencies response
        /\ snap_dependenciesModulesCache s = module_index named
        /\ (schedule_names co response = [] -> named = dependencies response))
  /\ (exists infos,
        Forall2 (fun dep info =>
                   di_path info = path dep
                   /\ if is_leaf dep then di_deps info = []
                      else ps_getShallowDependencies co (path dep)
                           = inr (di_deps info))
          (dependencies response) infos
        /\ snap_shallowDependencies s
           = fold_left (fun (o : gmap string (list string)) info =>
                          <[di_path info := di_deps info]> o) infos ∅)
  /\ (exists requests,
        effs = [GetDependencies options] ++ requests
               ++ [GetInverseDependencies response]
        /\ requests ≡ₚ shallow_requests (dependencies response)
        /\ (schedule_deps co response = [] ->
            requests = shallow_requests (dependencies response))).
Proof.
  unfold getDependencies. intros H.
  apply bind_inr in H as (response & sa & ea & eb & Hr & H & ->).
  apply bind_inr in H as ([infos infos'] & sb & ec & ed & Ha & H & ->).
  cbv zeta in H.
  apply bind_inr in H as ([named' named] & sc & ee & ef & Hn & H & ->).
  apply bind_inr in H as (inv & sd & eg & eh & Hi & H & ->).
  rewrite await_run in Hr. rewrite await_run in Hi.
  injection Hr as Hr _ <-. injection Hi as Hi _ <-.
  injection H as <- _ <-.
  cbn [snap_resolutionResponse snap_shallowDependencies
       snap_dependenciesModulesCache snap_dependenciesCache
       snap_inverseDependenciesCache fst snd].
  apply all_resolved_run in Ha as (Ho & He & _ & Horder).
  apply all_resolved_run in Hn as (Hno & Hne & Hnp & Hnorder).
  apply names_resolved in Hno as ->.
  rewrite names_call_nothing in Hne. apply Permutation_nil_r in Hne as ->.
  rewrite dependency_requests in He, Horder.
  split; [done|]. split; [done|]. split; [done|].
  split; [|split].
  - exists named. split; [done|]. split; [done|].
    intros Hs. by destruct (Hnorder Hs).
  - exists infos. split; [by apply dependency_infos | done].
  - exists ec. rewrite !app_nil_r. split; [done|]. split; [done|].
    intros Hs. by destruct (Horder Hs).
Qed.

(** The shallow-equivalent branch of lines 141-156. *)
Lemma shallow_path_run file deps st c :
  client st = Some c ->
  classify c file deps = ShallowEquivalent ->
  let options := {| opt_platform := platform c; opt_dev := true;
                    opt_entryFile := file; opt_recursive := Some true |} in
  onShallowDependencies co file deps st
  = (match ps_getDependencies co options with
     | inr response =>
         inr (Response (copy response [ps_getModuleForPath co file]))
     | inl e => inl e
     end, interfered st, [GetDependencies options]).
Proof.
  intros Hc Hcl options. unfold onShallowDependencies.
  rewrite bind_run. simpl. rewrite Hc, Hcl.
  rewrite bind_run, await_run. fold options.
  by destruct (ps_getDependencies co options).
Qed.

(** The structural branch of lines 158-197. *)
Lemma structural_path_run file deps st c s st1 effs c1 :
  client st = Some c ->
  classify c file deps = Structural ->
  getDependencies co (platform c) (bundleEntry c) st = (inr s, st1, effs) ->
  client st1 = Some c1 ->
  onShallowDependencies co file deps st
  = (inr (Response
            (copy (snap_resolutionResponse s)
               (modulesToUpdate (ps_getModuleForPath co file)
                  (dependenciesModulesCache c1)
                  (snap_dependenciesModulesCache s)))),
     {| client := Some (invalidate c1 s); listener := listener st1;
        pending := pending st1 |},
     effs).
Proof.
  intros Hc Hcl Hg Hc1. unfold onShallowDependencies.
  rewrite bind_run. simpl. rewrite Hc, Hcl.
  rewrite bind_run, Hg, bind_run. simpl. rewrite Hc1.
  rewrite bind_run. simpl. by rewrite !app_nil_r.
Qed.

(** *** Chains that keep the session *)

Lemma keeps_ret I {A} (a : A) : keeps I (mret a).
Proof. by intros st. Qed.

Lemma keeps_getClient I : keeps I getClient.
Proof. by intros st. Qed.

Lemma keeps_bind I {A B} (p : M A) (f : A -> M B) :
  keeps I p -> (forall a, keeps I (f a)) -> keeps I (p ≫= f).
Proof.
  intros Hp Hf st HI. rewrite bind_run. specialize (Hp st HI).
  destruct (p st) as [[[e|a] st1] effs1]; [done|].
  specialize (Hf a st1 Hp). by destruct (f a st1) as [[r st2] effs2].
Qed.

Lemma keeps_catch I {A} (p : M A) (h : Reason -> M A) :
  keeps I p -> (forall e, keeps I (h e)) -> keeps I (catch p h).
Proof.
  intros Hp Hh st HI. unfold catch. specialize (Hp st HI).
  destruct (p st) as [[[e|a] st1] effs1]; [|done].
  specialize (Hh e st1 Hp). by destruct (h e st1) as [[r st2] effs2].
Qed.

Lemma keeps_onRejected I e : keeps I (onRejected e).
Proof.
  intros st HI. by destruct (onRejected_cases e st) as (r & log & -> & _).
Qed.

Lemma calm_interfered c l st : calm c l st -> interfered st = st.
Proof. intros [Hq _]. unfold interfered. by rewrite Hq. Qed.

Lemma lasting_calm c l : lasting (calm c l).
Proof. intros st H. by rewrite (calm_interfered c l). Qed.

Lemma keeps_await I {A} call (outcome : Settled A) :
  lasting I -> keeps I (await call outcome).
Proof. intros HI st Hst. rewrite await_run. simpl. by apply HI. Qed.

Ltac keep :=
  repeat match goal with
    | |- keeps _ (mret _) => apply keeps_ret
    | |- keeps _ getClient => apply keeps_getClient
    | |- keeps _ (await _ _) => apply keeps_await; assumption
    | |- keeps _ (all _ _) => apply keeps_all; assumption
    | |- keeps _ (mbind _ _) => apply keeps_bind; [|intros ?]
    | |- keeps _ (match ?x with _ => _ end) => destruct x
    | |- keeps _ _ => progress cbv zeta
    end.

Lemma keeps_getDependencies I platform bundleEntry :
  lasting I -> keeps I (getDependencies co platform bundleEntry).
Proof. intros HI. unfold getDependencies. keep. Qed.

Lemma keeps_onShallowDependencies c l file deps :
  keeps (calm c l) (onShallowDependencies co file deps).
Proof.
  intros st HI. pose proof HI as (Hq & Hl & c0 & Hc0 & Hs).
  destruct (classify c0 file deps) eqn:Hcl.
  - rewrite (shallow_path_run file deps st c0 Hc0 Hcl). simpl.
    by rewrite (calm_interfered c l).
  - pose proof (keeps_getDependencies (calm c l) (platform c0) (bundleEntry c0)
                  (lasting_calm c l) st HI) as Hk.
    destruct (getDependencies co (platform c0) (bundleEntry c0) st)
      as [[[e|s] st1] effs] eqn:Hg.
    + unfold onShallowDependencies. rewrite bind_run. simpl.
      rewrite Hc0, Hcl. by rewrite bind_run, Hg.
    + simpl in Hk. destruct Hk as (Hq1 & Hl1 & c1 & Hc1 & Hs1).
      rewrite (structural_path_run file deps st c0 s st1 effs c1) by done.
      split; [done|]. split; [done|].
      exists (invalidate c1 s). split; [done|]. exact Hs1.
Qed.

Lemma keeps_onResolutionResponse c l file rr :
  keeps (calm c l) (onResolutionResponse co file rr).
Proof.
  pose proof (lasting_calm c l). unfold onResolutionResponse. keep.
Qed.

Lemma keeps_onBundle I inv bundle : keeps I (onBundle inv bundle).
Proof. unfold onBundle. keep. Qed.

Lemma keeps_pipeline c l inv file : keeps (calm c l) (pipeline co inv file).
Proof.
  pose proof (lasting_calm c l). unfold pipeline. keep.
  - apply keeps_onShallowDependencies.
  - apply keeps_onResolutionResponse.
  - apply keeps_onBundle.
Qed.

Lemma keeps_caught c l inv file :
  keeps (calm c l) (catch (pipeline co inv file) onRejected).
Proof.
  apply keeps_catch; [apply keeps_pipeline|]. intros e. apply keeps_onRejected.
Qed.

Lemma keeps_afterStat c l inv file stat :
  keeps (calm c l) (afterStat co inv file stat).
Proof.
  destruct stat as [e|[]]; simpl; [apply keeps_ret|].
  apply keeps_bind; [apply keeps_caught|].
  intros update st HI. by rewrite onUpdate_run.
Qed.

(** With collaborators that give a reason, what follows [stat] ends
    normally. *)
Lemma afterStat_spoken inv file stat st :
  reasons_are_objects co -> (afterStat co inv file stat st).1.1 = inr tt.
Proof.
  intros Hco.
  destruct (afterStat_run inv file stat st) as (r & st1 & effs & -> & Hr).
  destruct r as [reason|[]]; [|done].
  destruct Hr as (_ & _ & _ & Hp). by apply spoken_pipeline in Hp.
Qed.
End Stages.

(** *** Cycles that nothing interferes with *)

Lemma interfered_quiet st : undisturbed st -> interfered st = st.
Proof. intros H. unfold interfered. by rewrite H. Qed.

Lemma await_quiet {A} call (outcome : Settled A) st :
  undisturbed st -> await call outcome st = (outcome, st, [call]).
Proof. intros H. by rewrite await_run, interfered_quiet. Qed.

Lemma lasting_fixed st0 : undisturbed st0 -> lasting (eq st0).
Proof. intros H st <-. by rewrite interfered_quiet. Qed.

Lemma getDependencies_quiet co platform bundleEntry st :
  undisturbed st -> (getDependencies co platform bundleEntry st).1.2 = st.
Proof.
  intros H. symmetry.
  by apply (keeps_getDependencies co (eq st) platform bundleEntry
              (lasting_fixed st H)).
Qed.

Lemma classify_cached c file deps :
  shallowDependencies c !! file = Some deps ->
  classify c file deps = ShallowEquivalent.
Proof.
  intros H. unfold classify. rewrite H.
  rewrite (proj2 (arrayEquals_spec (Some deps) (Some deps))); [done|].
  by apply same_sequence_eq.
Qed.

(** The chain in front of the catch handler on the shallow-equivalent
    branch, when nothing interferes. *)
Lemma shallow_pipeline co inv file st c deps response :
  undisturbed st ->
  client st = Some c ->
  ps_getShallowDependencies co file = inr deps ->
  classify c file deps = ShallowEquivalent ->
  ps_getDependencies co (shallow_options c file) = inr response ->
  let options :=
    {| bo_entryFile := bundleEntry c; bo_platform := platform c;
       bo_resolutionResponse :=
         Response (copy response [ps_getModuleForPath co file]) |} in
  let host := packagerHost (httpServer_address co) in
  let port := port (httpServer_address co) in
  pipeline co inv file st
  = match shallowDependencies c !! file with
    | None =>
        (inr None, st,
         [GetShallowDependencies file; GetDependencies (shallow_options c file)])
    | Some _ =>
        (match ps_buildBundleForHMR co options host port with
         | inr b => inr (if isEmpty b then None else Some (update_of inv b))
         | inl e => inl e
         end, st,
         [GetShallowDependencies file; GetDependencies (shallow_options c file);
          BuildBundleForHMR options host port])
    end.
Proof.
  intros Hq Hc Hd Hcl Hr options host port. unfold pipeline.
  rewrite bind_run, await_quiet, Hd by done.
  rewrite bind_run, (shallow_path_run co file deps st c Hc Hcl).
  fold (shallow_options c file). rewrite Hr, interfered_quiet by done.
  rewrite bind_run. unfold onResolutionResponse at 1.
  rewrite bind_run. cbn [getClient fst snd]. rewrite Hc.
  destruct (shallowDependencies c !! file) as [old|].
  - rewrite bind_run, await_quiet by done.
    fold options host port.
    destruct (ps_buildBundleForHMR co options host port) as [e|b]; [done|].
    cbn [mret M_ret ret]. unfold onBundle. rewrite bind_run.
    cbn [getClient fst snd]. rewrite Hc. unfold update_of.
    by destruct (isEmpty b).
  - cbn [mret M_ret ret]. unfold onBundle. rewrite bind_run.
    cbn [getClient fst snd]. by rewrite Hc.
Qed.

(** The whole cycle, from the result of the chain. *)
Lemma cycle_from_pipeline co inv file st c update effs :
  undisturbed st ->
  client st = Some c ->
  pipeline co inv file st = (inr update, st, effs) ->
  hmrFileChangeListener co inv file (inr tt) st
  = (inr tt, st,
     [WsSend (ws c) UpdateStart] ++ effs
     ++ match update with
        | Some m => [WsSend (ws c) m]
        | None => []
        end
     ++ [WsSend (ws c) UpdateDone]).
Proof.
  intros Hq Hc Hp.
  destruct (listener_run co inv file (inr tt) st c Hc)
    as (r & st2 & effs2 & Ha & Hl).
  rewrite interfered_quiet in Ha by done.
  simpl in Ha. rewrite bind_run in Ha. unfold catch in Ha.
  rewrite Hp, onUpdate_run, Hc in Ha. injection Ha as <- <- <-.
  rewrite Hl, Hc. destruct update; simpl; by rewrite <- ?app_assoc.
Qed.

(** When nothing interferes, a whole cycle keeps the session; it ends
    normally if the collaborators give a reason when they reject. *)
Lemma listener_keeps_session co inv file stat st c l :
  calm c l st ->
  calm c l (hmrFileChangeListener co inv file stat st).1.2
  /\ (reasons_are_objects co ->
      (hmrFileChangeListener co inv file stat st).1.1 = inr tt).
Proof.
  intros Hcalm. pose proof Hcalm as (Hq & _ & c0 & Hc0 & _).
  destruct (listener_run co inv file stat st c0 Hc0)
    as (r & st2 & effs & Ha & Hl).
  assert (calm c l st2) as Hcalm2.
  { replace st2 with (afterStat co inv file stat (interfered st)).1.2
      by (by rewrite Ha).
    apply keeps_afterStat. by rewrite (calm_interfered c l). }
  rewrite Hl. split.
  - by destruct r as [reason|[]].
  - intros Hco.
    pose proof (afterStat_spoken co inv file stat (interfered st) Hco) as Hr.
    rewrite Ha in Hr. simpl in Hr. subst r. simpl.
    destruct Hcalm2 as (_ & _ & c2 & -> & _). done.
Qed.


(** The frames of a cycle, with the sockets they are sent on. *)
Lemma cycle_frames co inv file stat st c :
  client st = Some c ->
  exists mid last,
    frames (hmrFileChangeListener co inv file stat st).2
    = [(ws c, UpdateStart)] ++ mid ++ last
    /\ (mid = []
        \/ exists c2 m,
             client (hmrFileChangeListener co inv file stat st).1.2 = Some c2
             /\ mid = [(ws c2, m)] /\ is_update_or_error m)
    /\ (last = []
        \/ exists c2,
             client (hmrFileChangeListener co inv file stat st).1.2 = Some c2
             /\ last = [(ws c2, UpdateDone)])
    /\ (last <> [] <-> (hmrFileChangeListener co inv file stat st).1.1 = inr tt)
    /\ (client (hmrFileChangeListener co inv file stat st).1.2 = None ->
        mid = [] /\ last = [])
    /\ (reasons_are_objects co ->
        client (hmrFileChangeListener co inv file stat st).1.2 <> None ->
        last <> []).
Proof.
  intros Hc.
  destruct (listener_run co inv file stat st c Hc) as (r & st2 & effs & Ha & Hl).
  destruct (afterStat_run co inv file stat (interfered st))
    as (r' & st2' & effs' & Ha' & Hm).
  rewrite Ha in Ha'. injection Ha' as <- <- <-.
  rewrite Hl. destruct r as [reason|[]].
  - destruct Hm as (Hf & -> & -> & Hp).
    exists [], []. cbn [fst snd]. rewrite frames_app, Hf.
    split; [done|]. split; [by left|]. split; [by left|].
    split; [done|]. split; [done|].
    intros Hco _. by apply (spoken_pipeline co inv file Hco) in Hp.
  - exists (frames effs),
      (match client st2 with
       | Some c2 => [(ws c2, UpdateDone)]
       | None => []
       end).
    cbn [fst snd]. rewrite !frames_app.
    split; [by destruct (client st2)|]. split.
    { destruct Hm as [->|(c1 & m & Hc1 & -> & Hm & _)]; [by left|].
      right. by exists c1, m. }
    split; [destruct (client st2) as [c2|]; [right; by exists c2 | by left]|].
    split; [by destruct (client st2)|]. split.
    + intros Hnone. rewrite Hnone. split; [|done].
      destruct Hm as [->|(c1 & m & Hc1 & _)]; [done | congruence].
    + intros _ Hsome. by destruct (client st2).
Qed.

(** The [update] or [error] of a cycle goes to the socket of the client
    connected when the cycle ends. *)
Lemma result_frame_socket co inv file stat st to m :
  is_update_or_error m ->
  In (WsSend to m) (hmrFileChangeListener co inv file stat st).2 ->
  exists c2,
    client (hmrFileChangeListener co inv file stat st).1.2 = Some c2
    /\ to = ws c2.
Proof.
  intros Hm Hin. destruct (client st) as [c|] eqn:Hc.
  - destruct (cycle_frames co inv file stat st c Hc)
      as (mid & last & Hf & Hmid & Hlast & _).
    apply frames_In in Hin. rewrite Hf in Hin. simpl in Hin.
    destruct Hin as [[= _ <-]|Hin]; [done|].
    apply in_app_iff in Hin as [Hin|Hin].
    + destruct Hmid as [->|(c2 & m' & Hc2 & -> & _)]; [done|].
      destruct Hin as [[= <- _]|[]]. by exists c2.
    + destruct Hlast as [->|(c2 & _ & ->)]; [done|].
      destruct Hin as [[= _ <-]|[]]. done.
  - unfold hmrFileChangeListener in Hin. rewrite bind_run in Hin.
    simpl in Hin. rewrite Hc in Hin. destruct Hin.
Qed.

(** When nothing interferes, every frame of a cycle goes to the socket
    of the session. *)
Lemma calm_frames co inv file stat st c l to m :
  calm c l st ->
  In (WsSend to m) (hmrFileChangeListener co inv file stat st).2 ->
  to = ws c.
Proof.
  intros Hcalm Hin. pose proof Hcalm as (_ & _ & c0 & Hc0 & Hs0 & _).
  destruct (cycle_frames co inv file stat st c0 Hc0)
    as (mid & last & Hf & Hmid & Hlast & _).
  destruct (listener_keeps_session co inv file stat st c l Hcalm)
    as ((_ & _ & c2 & Hc2 & Hs2 & _) & _).
  apply frames_In in Hin. rewrite Hf in Hin. simpl in Hin.
  destruct Hin as [[= <- _]|Hin]; [done|].
  apply in_app_iff in Hin as [Hin|Hin].
  - destruct Hmid as [->|(c2' & m' & Hc2' & -> & _)]; [done|].
    destruct Hin as [[= <- _]|[]]. congruence.
  - destruct Hlast as [->|(c2' & Hc2' & ->)]; [done|].
    destruct Hin as [[= <- _]|[]]. congruence.
Qed.


(** *** The claims about a change cycle *)

(** The example of the design document, with two new modules: [A] is
    edited to require [C] and [D]; the bundler is asked for [D], [C] and
    then [A], and the update carries the map of connect time. *)
Example structural_cycle :
  (fileChanged world_after "/app/A.js" (inr tt) connected).2
  = [WsSend 7 UpdateStart; GetShallowDependencies "/app/A.js"]
    ++ sample_effects
    ++ [BuildBundleForHMR
          {| bo_entryFile := "/app/A.js"; bo_platform := "ios";
             bo_resolutionResponse :=
               Response (mkResponse [mD; mC; mA] "/app/A.js") |}
          "localhost" 8081;
        WsSend 7 (Update
          {| modules := getModulesNamesAndCode sample_bundle;
             inverseDependencies := [("B", ["A"])];
             sourceURLs := getSourceURLs sample_bundle;
             sourceMappingURLs := getSourceMappingURLs sample_bundle |});
        WsSend 7 UpdateDone].
Proof. reflexivity. Qed.

(** A module whose name is an array index is visited before the others,
    wherever the resolver put it. *)
Example numeric_name_first :
  JSObject.keys [("b", mB); ("10", mC); ("9", mD)] = ["9"; "10"; "b"].
Proof. reflexivity. Qed.

(** The module index is filled as the names resolve: when the name of
    [D] resolves before the others, [D] is enumerated before [C], and
    the update lists [C] before [D]. *)
Example late_names_reorder :
  (onShallowDependencies world_late_names "/app/A.js" ["B"; "C"; "D"]
     connected).1.1
  = inr (Response (mkResponse [mC; mD; mA] "/app/A.js")).
Proof. reflexivity. Qed.

Lemma plain_names_Permutation (deps deps' : list HasteModule) :
  deps' ≡ₚ deps -> plain_names deps -> plain_names deps'.
Proof.
  intros Hp [Hnd Hf]. split.
  - by rewrite Hp.
  - by rewrite Hp.
Qed.

(** C1, as the code has it.  After a structural change of [file], the
    modules of the update are the reverse of: the module of [file],
    followed by the newly discovered modules (those whose name is in the
    new module index and not in the one of the session) in the order in
    which the new module index enumerates them.  The module of [file] is
    therefore last.  The new module index is filled with the modules the
    resolver returned, in the order in which their names resolved.  When
    the names are pairwise different and none is an array index, the
    newly discovered modules are in the order in which their names
    resolved, and that is the order of the resolver when the names
    resolve in the order they were asked. *)
Theorem structural_update_order co file deps st c s st1 effs c1 :
  client st = Some c ->
  classify c file deps = Structural ->
  getDependencies co (platform c) (bundleEntry c) st = (inr s, st1, effs) ->
  client st1 = Some c1 ->
  let changed := ps_getModuleForPath co file in
  let old := dependenciesModulesCache c1 in
  let resolved := dependencies (snap_resolutionResponse s) in
  let batch :=
    rev ([changed] ++ newly_discovered old (snap_dependenciesModulesCache s)) in
  (onShallowDependencies co file deps st).1.1
  = inr (Response (copy (snap_resolutionResponse s) batch))
  /\ last batch = Some changed
  /\ exists named,
       named ≡ₚ resolved
       /\ snap_dependenciesModulesCache s = module_index named
       /\ (plain_names resolved ->
           batch = rev ([changed]
                        ++ List.filter (fun d => negb (has old (getName d)))
                             named))
       /\ (schedule_names co (snap_resolutionResponse s) = [] ->
           named = resolved).
Proof.
  intros Hc Hcl Hg Hc1 changed old resolved batch.
  rewrite (structural_path_run co file deps st c s st1 effs c1) by done.
  destruct (getDependencies_result co _ _ _ _ _ _ Hg)
    as (_ & _ & _ & (named & Hp & Hidx & Horder) & _).
  simpl. rewrite modulesToUpdate_spec. split; [done|]. split.
  - unfold batch. simpl. apply last_snoc.
  - exists named. split; [done|]. split; [done|]. split; [|done].
    intros Hplain. unfold batch. rewrite Hidx.
    rewrite newly_discovered_resolver_order; [done|].
    by apply (plain_names_Permutation resolved).
Qed.

Lemma structural_update_order_witness :
  (onShallowDependencies world_after "/app/A.js" ["B"; "C"; "D"] connected).1.1
  = inr (Response (mkResponse [mD; mC; mA] "/app/A.js"))
  /\ plain_names [mA; mB; mC; mD].
Proof.
  split.
  - exact (proj1 (structural_update_order world_after "/app/A.js"
                    ["B"; "C"; "D"] connected sample_client sample_snapshot
                    connected sample_effects sample_client
                    eq_refl eq_refl eq_refl eq_refl)).
  - split; [apply (bool_decide_unpack _); vm_compute; exact I|].
    repeat constructor.
Defined.

(** C1, as stated, fails when names of new modules are array indices:
    the resolver returns [b], [10] and [9] after [A]; the module index
    enumerates [9], [10] and then [b], so the update lists [b], [10],
    [9] and [A], and not [9], [10], [b] and [A]. *)
Lemma array_index_names_come_first : ~ update_order_as_stated.
Proof.
  intros H.
  destruct (getDependencies world_numbers "ios" "/app/A.js" connected)
    as [[[r|s] st1] effs] eqn:E; [vm_compute in E; discriminate|].
  assert ((getDependencies world_numbers "ios" "/app/A.js" connected).1.2
          = connected) as E2 by (vm_compute; reflexivity).
  rewrite E in E2. simpl in E2. subst st1.
  specialize (H world_numbers "/app/A.js" ["b"; "10"; "9"] connected
                sample_client s connected effs sample_client
                eq_refl eq_refl E eq_refl).
  rewrite (structural_path_run world_numbers "/app/A.js" ["b"; "10"; "9"]
             connected sample_client s connected effs sample_client
             eq_refl eq_refl E eq_refl) in H.
  vm_compute in E. injection E as <- _.
  vm_compute in H. discriminate H.
Qed.

(** C3. On a shallow-equivalent change the listener makes one request to
    the packager, for the dependencies of [file] alone, and the update
    holds exactly the module of [file]; the local [getDependencies],
    which rebuilds the graph of the bundle entry, is not run.  The
    request carries [recursive: true]. *)
Theorem shallow_path_request co file deps st c :
  client st = Some c ->
  classify c file deps = ShallowEquivalent ->
  let options := {| opt_platform := platform c; opt_dev := true;
                    opt_entryFile := file; opt_recursive := Some true |} in
  (onShallowDependencies co file deps st).2 = [GetDependencies options]
  /\ opt_recursive options = Some true
  /\ (forall response,
        ps_getDependencies co options = inr response ->
        (onShallowDependencies co file deps st).1.1
        = inr (Response (copy response [ps_getModuleForPath co file]))).
Proof.
  intros Hc Hcl options.
  rewrite (shallow_path_run co file deps st c Hc Hcl). fold options.
  repeat split. intros response Hr. simpl. by rewrite Hr.
Qed.

Lemma shallow_path_request_witness :
  (onShallowDependencies world_before "/app/A.js" ["B"] connected).2
  = [GetDependencies {| opt_platform := "ios"; opt_dev := true;
                        opt_entryFile := "/app/A.js";
                        opt_recursive := Some true |}].
Proof.
  exact (proj1 (shallow_path_request world_before "/app/A.js" ["B"] connected
                  sample_client eq_refl eq_refl)).
Defined.







(** A connection closed while the cycle waits does not end the cycle
    when another connection is set up before the cycle resumes: the
    update and [update-done] of the cycle go to the new connection. *)
Example closed_and_replaced_mid_cycle :
  frames (hmrFileChangeListener world_before [("B", ["A"])] "/app/A.js"
            (inr tt) closed_and_overtaken).2
  = [(7, UpdateStart);
     (9, Update {| modules := getModulesNamesAndCode sample_bundle;
                   inverseDependencies := [("B", ["A"])];
                   sourceURLs := getSourceURLs sample_bundle;
                   sourceMappingURLs := getSourceMappingURLs sample_bundle |});
     (9, UpdateDone)].
Proof. reflexivity. Qed.

(** C6, as the code has it.  The catch handler turns an error whose
    [type] is [TransformError], [NotFoundError] or
    [UnableToResolveError] into an [error] message with the same type,
    description, filename and line number, and any other error into an
    [InternalError] message with a fixed description, after logging the
    error; given [undefined] or [null] it throws a [TypeError] itself.
    When the chain of a cycle is rejected with an error, the handler
    catches it: the message goes to the client connected then and
    [update-done] follows, and the listener ends normally; when no
    client is connected then, nothing more is sent and the listener ends
    with the [TypeError] of the last send.  When the chain is rejected
    with [undefined] or [null], the listener ends with the [TypeError]
    of the handler and sends nothing after [update-start].  In every
    case the session is the one the chain left; when nothing interferes
    the client stays connected, and the listener ends normally if the
    collaborators give a reason when they reject. *)
Theorem errors_become_messages co :
  (forall e st, passed_through e ->
     onRejected (Raised e) st
     = (inr (Some (Error {| eb_type := type e;
                            eb_description := description e;
                            eb_filename := filename e;
                            eb_lineNumber := lineNumber e |})), st, []))
  /\ (forall e st, ~ passed_through e ->
       onRejected (Raised e) st
       = (inr (Some (Error {| eb_type := Some "InternalError";
                              eb_description := Some internal_error_description;
                              eb_filename := None;
                              eb_lineNumber := None |})),
          st, [ConsoleError e]))
  /\ (forall st, onRejected Nullish st = (inl (Raised TypeError_type), st, []))
  /\ (forall inv file st c e st1 effs1,
       client st = Some c ->
       pipeline co inv file (interfered st) = (inl (Raised e), st1, effs1) ->
       exists body log,
         onRejected (Raised e) st1 = (inr (Some (Error body)), st1, log)
         /\ hmrFileChangeListener co inv file (inr tt) st
            = match client st1 with
              | Some c1 =>
                  (inr tt, st1,
                   [WsSend (ws c) UpdateStart] ++ effs1 ++ log
                   ++ [WsSend (ws c1) (Error body); WsSend (ws c1) UpdateDone])
              | None =>
                  (inl (Raised TypeError), st1,
                   [WsSend (ws c) UpdateStart] ++ effs1 ++ log)
              end)
  /\ (forall inv file st c st1 effs1,
       client st = Some c ->
       pipeline co inv file (interfered st) = (inl Nullish, st1, effs1) ->
       hmrFileChangeListener co inv file (inr tt) st
       = (inl (Raised TypeError_type), st1, [WsSend (ws c) UpdateStart] ++ effs1))
  /\ (forall inv file stat st c l,
       calm c l st ->
       calm c l (hmrFileChangeListener co inv file stat st).1.2
       /\ (reasons_are_objects co ->
           (hmrFileChangeListener co inv file stat st).1.1 = inr tt)).
Proof.
  split; [|split; [|split; [|split; [|split]]]].
  - intros e st He. rewrite onRejected_run.
    by rewrite (proj2 (known_error_type_spec e) He).
  - intros e st He. rewrite onRejected_run.
    destruct (known_error_type (type e)) eqn:Hk; [|done].
    exfalso. by apply He, known_error_type_spec.
  - done.
  - intros inv file st c e st1 effs1 Hc Hp.
    destruct (listener_run co inv file (inr tt) st c Hc)
      as (r & st2 & effs & Ha & Hl).
    simpl in Ha. rewrite bind_run in Ha. unfold catch in Ha.
    rewrite Hp in Ha.
    assert (exists body log,
              onRejected (Raised e) st1 = (inr (Some (Error body)), st1, log))
      as (body & log & Hr).
    { rewrite onRejected_run. destruct (known_error_type (type e)); eauto. }
    exists body, log. split; [done|].
    rewrite Hr, onUpdate_run in Ha. injection Ha as <- <- <-.
    rewrite Hl. destruct (client st1) as [c1|]; simpl.
    + by rewrite <- !app_assoc.
    + by rewrite !app_nil_r.
  - intros inv file st c st1 effs1 Hc Hp.
    destruct (listener_run co inv file (inr tt) st c Hc)
      as (r & st2 & effs & Ha & Hl).
    simpl in Ha. rewrite bind_run in Ha. unfold catch in Ha.
    rewrite Hp in Ha. simpl in Ha. injection Ha as <- <- <-.
    rewrite Hl. by rewrite app_nil_r.
  - intros inv file stat st c l Hcalm.
    by apply listener_keeps_session.
Qed.

Lemma errors_become_messages_witness :
  messages (hmrFileChangeListener world_broken [("B", ["A"])] "/app/A.js"
              (inr tt) connected).2
  = [UpdateStart;
     Error {| eb_type := Some "TransformError";
              eb_description := Some "Unexpected token";
              eb_filename := Some "/app/A.js";
              eb_lineNumber := Some 3%Z |};
     UpdateDone]
  /\ client (hmrFileChangeListener world_broken [("B", ["A"])] "/app/A.js"
               (inr tt) connected).1.2 = Some sample_client.
Proof.
  destruct (proj1 (proj2 (proj2 (proj2 (errors_become_messages world_broken))))
              [("B", ["A"])] "/app/A.js" connected sample_client
              transform_error connected [GetShallowDependencies "/app/A.js"]
              eq_refl eq_refl)
    as (body & log & Hr & Hl).
  injection Hr as <- <-.
  split; [by rewrite Hl | by rewrite Hl].
Defined.

(** C6, as stated, fails when the client closes its socket while the
    cycle waits: the send of [update-done] at the end of the cycle reads
    the socket of no client, outside the catch handler, and the chain of
    the cycle is rejected with that [TypeError]. *)
Lemma uncaught_when_client_is_gone : ~ errors_are_caught_as_stated.
Proof.
  intros H.
  specialize (H world_after [("B", ["A"])] "/app/A.js" (inr tt) closing).
  vm_compute in H. discriminate H.
Qed.

(** A rejection with no reason is not caught either: the handler reads
    [error.type] and throws, and nothing follows [update-start]. *)
Example rejection_without_reason :
  hmrFileChangeListener world_speechless [("B", ["A"])] "/app/A.js" (inr tt)
    connected
  = (inl (Raised TypeError_type), connected,
     [WsSend 7 UpdateStart; GetShallowDependencies "/app/A.js"]).
Proof. reflexivity. Qed.

(** *** The host handed to the bundler *)

Lemma bundle_request co file rr st c deps :
  client st = Some c ->
  shallowDependencies c !! file = Some deps ->
  (onResolutionResponse co file rr st).2
  = [BuildBundleForHMR
       {| bo_entryFile := bundleEntry c; bo_platform := platform c;
          bo_resolutionResponse := rr |}
       (packagerHost (httpServer_address co)) (port (httpServer_address co))].
Proof.
  intros Hc Hd. unfold onResolutionResponse.
  rewrite bind_run. simpl. rewrite Hc, Hd.
  rewrite bind_run, await_run.
  by destruct (ps_buildBundleForHMR co _ _ _).
Qed.

(** C7, as the code has it.  The host handed to the bundler is
    ['localhost'] when the listening address is undefined, empty or
    ['::'], and the listening address itself in every other case; the
    IPv4 wildcard is not replaced. *)
Theorem host_sanitized (a : AddressInfo) :
  (address a = None \/ address a = Some "" \/ address a = Some "::" ->
   packagerHost a = "localhost")
  /\ (forall s, address a = Some s -> s <> "" -> s <> "::" ->
      packagerHost a = s)
  /\ (forall co file rr st c deps,
      httpServer_address co = a ->
      client st = Some c ->
      shallowDependencies c !! file = Some deps ->
      (onResolutionResponse co file rr st).2
      = [BuildBundleForHMR
           {| bo_entryFile := bundleEntry c; bo_platform := platform c;
              bo_resolutionResponse := rr |}
           (packagerHost a) (port a)]).
Proof.
  split; [|split].
  - unfold packagerHost. intros [-> | [-> | ->]]; reflexivity.
  - unfold packagerHost. intros s -> H1 H2.
    destruct (String.eqb_spec s ""); [done|].
    destruct (String.eqb_spec s "::"); done.
  - intros co file rr st c deps <- Hc Hd. by apply (bundle_request _ _ _ _ _ deps).
Qed.

Lemma host_sanitized_witness :
  packagerHost {| address := Some "::"; port := 8081 |} = "localhost"
  /\ packagerHost {| address := Some "192.168.0.7"; port := 8081 |}
     = "192.168.0.7"
  /\ (onResolutionResponse world_before "/app/A.js" EmptyObject connected).2
     = [BuildBundleForHMR
          {| bo_entryFile := "/app/A.js"; bo_platform := "ios";
             bo_resolutionResponse := EmptyObject |} "localhost" 8081].
Proof.
  split; [|split].
  - apply (proj1 (host_sanitized _)). right. right. reflexivity.
  - apply (proj1 (proj2 (host_sanitized _)) "192.168.0.7");
      [reflexivity | discriminate | discriminate].
  - exact (proj2 (proj2 (host_sanitized {| address := Some "::"; port := 8081 |}))
             world_before "/app/A.js" EmptyObject connected sample_client ["B"]
             eq_refl eq_refl eq_refl).
Defined.

(** C7, as stated, fails on the IPv4 wildcard address, which is handed to
    the bundler as it is. *)
Lemma ipv4_wildcard_is_kept :
  is_wildcard "0.0.0.0" = true
  /\ packagerHost {| address := Some "0.0.0.0"; port := 8081 |} = "0.0.0.0"
  /\ packagerHost {| address := Some "0.0.0.0"; port := 8081 |}
     <> host_as_stated {| address := Some "0.0.0.0"; port := 8081 |}.
Proof. repeat split. discriminate. Qed.

End HMRFacts.

(* ===================================================================== *)
(** ** More properties of the debugger proxy *)
(* ===================================================================== *)

Module ProxyMore.
Import WebSocketProxy ProxyFacts.

Lemma connection_state ws url st s :
  registered (connection ws url st).1 s -> registered st s \/ s = ws.
Proof.
  unfold connection, registered.
  destruct (role url) as [[]|]; simpl; [| |by left].
  - destruct (debuggerSocket st) eqn:E; simpl.
    + rewrite E. by left.
    + intros [[= <-]|H]; auto.
  - destruct (clientSocket st) eqn:E; simpl; intros [H|[= <-]]; auto.
Qed.

Lemma step_registered st ev s :
  registered (step st ev).1 s -> registered st s \/ s ∈ connections [ev].
Proof.
  destruct ev as [ws url| ws data | ws | ws]; simpl.
  - intros H. apply connection_state in H as [H| ->]; [by left|].
    right. by left.
  - rewrite call_state. unfold registered.
    destruct (onmessage _) as [[]|]; simpl; auto;
      intros [H|H]; auto; discriminate.
  - rewrite call_state. unfold registered.
    destruct (onerror _) as [[]|]; simpl; auto;
      intros [H|H]; auto; discriminate.
  - rewrite call_state. unfold registered.
    destruct (onclose _) as [[]|]; simpl; auto;
      intros [H|H]; auto; discriminate.
Qed.

Lemma connections_cons ev evs :
  connections (ev :: evs) = connections [ev] ++ connections evs.
Proof. unfold connections. by destruct ev. Qed.

Lemma run_cons st ev evs :
  run st (ev :: evs)
  = ((run (step st ev).1 evs).1, (step st ev).2 ++ (run (step st ev).1 evs).2).
Proof.
  cbn [run]. destruct (step st ev) as [st1 ops1]. cbn [fst snd].
  by destruct (run st1 evs) as [st2 ops2].
Qed.

Lemma run_registered st evs s :
  registered (run st evs).1 s -> registered st s \/ s ∈ connections evs.
Proof.
  revert st. induction evs as [|ev evs IH]; intros st; [simpl; auto|].
  rewrite run_cons, connections_cons, elem_of_app. cbn [fst].
  intros H. destruct (IH _ H) as [H1|H1]; [|auto].
  destruct (step_registered st ev s H1); auto.
Qed.

Lemma send_target dest data d message :
  In (Send d message) (send dest data) -> dest = Some d /\ message = data.
Proof.
  destruct dest as [d0|]; simpl; [|done].
  intros [[= -> ->]|[]]. done.
Qed.

Lemma call_sends f data st d message :
  In (Send d message) (call f data st).2 -> registered st d.
Proof.
  unfold registered. destruct f as [[]|]; simpl; try done.
  - destruct (clientSocket st); simpl; [|done]. intros [H|[]]. discriminate.
  - intros H. apply send_target in H as [H _]. auto.
  - intros H. apply send_target in H as [H _]. auto.
  - intros H. apply send_target in H as [H _]. auto.
Qed.

Lemma connection_sends ws url st d message :
  ~ In (Send d message) (connection ws url st).2.
Proof.
  unfold connection. destruct (role url) as [[]|]; simpl.
  - destruct (debuggerSocket st); simpl; intros H;
      repeat destruct H as [H|H]; try discriminate; done.
  - destruct (clientSocket st); simpl; intros H;
      repeat destruct H as [H|H]; try discriminate; done.
  - intros [H|[]]. discriminate.
Qed.

Lemma step_sends st ev d message :
  In (Send d message) (step st ev).2 -> registered st d.
Proof.
  destruct ev as [ws url| ws data | ws | ws]; simpl.
  - intros H. by apply connection_sends in H.
  - apply call_sends.
  - apply call_sends.
  - apply call_sends.
Qed.

Lemma run_sends st evs d message :
  In (Send d message) (run st evs).2 ->
  registered st d \/ d ∈ connections evs.
Proof.
  revert st. induction evs as [|ev evs IH]; intros st; [simpl; done|].
  rewrite run_cons, connections_cons, elem_of_app. cbn [snd].
  rewrite in_app_iff. intros [H|H].
  - left. by apply (step_sends st ev d message).
  - destruct (IH _ H) as [H1|H1]; [|auto].
    destruct (step_registered st ev d H1); auto.
Qed.

(** X1. Relay.  After any run in which every connection brings a new
    socket, a message of the registered debugger is sent unchanged to
    the registered client, and a message of the registered client to the
    registered debugger; when the other role is empty nothing is done.
    The broker's state does not change. *)
Theorem relay (evs : list Event) (ws : Socket) (data : string) :
  NoDup (connections evs) ->
  let st := (run init evs).1 in
  (debuggerSocket st = Some ws ->
   step st (MessageEv ws data)
   = (st, match clientSocket st with
          | Some c => [Send c data]
          | None => []
          end))
  /\ (clientSocket st = Some ws ->
      step st (MessageEv ws data)
      = (st, match debuggerSocket st with
             | Some d => [Send d data]
             | None => []
             end)).
Proof.
  intros Hnd st.
  destruct (reachable_Inv evs Hnd) as [seen [_ Hc Hd]]. fold st in Hc, Hd.
  split; intros H; simpl.
  - rewrite (Hd ws H). simpl. by destruct (clientSocket st).
  - rewrite (Hc ws H). simpl. by destruct (debuggerSocket st).
Qed.

Lemma relay_witness :
  let st := (run init [Connection 1 "/debugger-proxy?role=debugger";
                       Connection 2 "/debugger-proxy?role=client"]).1 in
  step st (MessageEv 1 "{}") = (st, [Send 2 "{}"])
  /\ step st (MessageEv 2 "{}") = (st, [Send 1 "{}"]).
Proof.
  pose (evs := [Connection 1 "/debugger-proxy?role=debugger";
                Connection 2 "/debugger-proxy?role=client"]).
  assert (NoDup (connections evs)) as Hnd
    by (apply (bool_decide_unpack _); vm_compute; exact I).
  intros st. split.
  - exact (proj1 (relay evs 1 "{}" Hnd) eq_refl).
  - exact (proj2 (relay evs 2 "{}" Hnd) eq_refl).
Defined.

(** X2. The broker sends only to the socket that holds the debugger or
    the client role at that moment; a connection event sends nothing; so
    every socket that is ever sent anything has connected before. *)
Theorem sends_only_to_registered :
  (forall st ev d message,
     In (Send d message) (step st ev).2 -> registered st d)
  /\ (forall st ws url d message,
        ~ In (Send d message) (step st (Connection ws url)).2)
  /\ (forall evs d message,
        In (Send d message) (run init evs).2 -> d ∈ connections evs).
Proof.
  split; [|split].
  - apply step_sends.
  - intros st ws url d message. apply connection_sends.
  - intros evs d message H.
    apply run_sends in H as [[H|H]|H]; [discriminate|discriminate|done].
Qed.

Lemma sends_only_to_registered_witness :
  2 ∈ connections [Connection 1 "/debugger-proxy?role=debugger";
                   Connection 2 "/debugger-proxy?role=client";
                   MessageEv 1 "{}"].
Proof.
  apply (proj2 (proj2 sends_only_to_registered) _ 2 "{}").
  vm_compute. auto 10.
Defined.

(** X3. After any run in which every connection brings a new socket, the
    debugger and the client are different sockets, and both are sockets
    that connected. *)
Theorem roles_are_distinct (evs : list Event) (d c : Socket) :
  NoDup (connections evs) ->
  debuggerSocket (run init evs).1 = Some d ->
  clientSocket (run init evs).1 = Some c ->
  d <> c /\ d ∈ connections evs /\ c ∈ connections evs.
Proof.
  intros Hnd Hd Hc.
  destruct (reachable_Inv evs Hnd) as [seen [_ Hic Hid]].
  split; [|split].
  - intros ->. specialize (Hic c Hc). specialize (Hid c Hd).
    rewrite Hic in Hid. discriminate.
  - destruct (run_registered init evs d) as [[H|H]|H];
      [by left|discriminate|discriminate|done].
  - destruct (run_registered init evs c) as [[H|H]|H];
      [by right|discriminate|discriminate|done].
Qed.

Lemma roles_are_distinct_witness :
  1 <> 2
  /\ 1 ∈ connections [Connection 1 "/debugger-proxy?role=debugger";
                      Connection 2 "/debugger-proxy?role=client"]
  /\ 2 ∈ connections [Connection 1 "/debugger-proxy?role=debugger";
                      Connection 2 "/debugger-proxy?role=client"].
Proof.
  apply (roles_are_distinct
           [Connection 1 "/debugger-proxy?role=debugger";
            Connection 2 "/debugger-proxy?role=client"] 1 2);
    [apply (bool_decide_unpack _); vm_compute; exact I
    | reflexivity | reflexivity].
Defined.

Lemma unknown_connection st ws s url :
  unknown st s -> s <> ws ->
  unknown (connection ws url st).1 s
  /\ Forall (fun op => target op <> s) (connection ws url st).2.
Proof.
  intros (Hcb & Hc & Hd) Hne. unfold connection, unknown.
  destruct (role url) as [[]|]; simpl.
  - destruct (debuggerSocket st) as [d|] eqn:E; simpl;
      rewrite ?E, ?callbacks_of_assign3, ?decide_False by congruence;
      repeat split; auto; try congruence;
      repeat constructor; simpl; congruence.
  - destruct (clientSocket st) as [c|] eqn:E; simpl;
      rewrite ?callbacks_of_assign3, ?decide_False by congruence;
      rewrite ?callbacks_of_set_clientSocket, ?callbacks_of_silence;
      repeat split; auto; try congruence; try (by case_decide);
      repeat constructor; simpl; congruence.
  - repeat split; auto; repeat constructor; simpl; congruence.
Qed.

Lemma unknown_call st s f data :
  unknown st s ->
  unknown (call f data st).1 s
  /\ Forall (fun op => target op <> s) (call f data st).2.
Proof.
  intros (Hcb & Hc & Hd). rewrite call_state. unfold unknown.
  destruct f as [[]|]; simpl; repeat split; auto; try discriminate;
    try (destruct (clientSocket st) as [c|]);
    try (destruct (debuggerSocket st) as [d|]);
    repeat constructor; simpl; congruence.
Qed.

Lemma unknown_step st s ev :
  unknown st s -> s ∉ connections [ev] ->
  unknown (step st ev).1 s
  /\ Forall (fun op => target op <> s) (step st ev).2.
Proof.
  intros Hu Hev. destruct ev as [ws url| ws data | ws | ws]; simpl.
  - apply unknown_connection; [done|].
    simpl in Hev. apply not_elem_of_cons in Hev as [? _]. done.
  - by apply unknown_call.
  - by apply unknown_call.
  - by apply unknown_call.
Qed.

Lemma unknown_run st s evs :
  unknown st s -> s ∉ connections evs ->
  unknown (run st evs).1 s
  /\ Forall (fun op => target op <> s) (run st evs).2.
Proof.
  revert st. induction evs as [|ev evs IH]; intros st Hu Hevs.
  - simpl. by split.
  - rewrite connections_cons in Hevs.
    apply not_elem_of_app in Hevs as [Hev Hevs].
    destruct (unknown_step st s ev Hu Hev) as [Hu1 Hops1].
    destruct (IH _ Hu1 Hevs) as [Hu2 Hops2].
    rewrite run_cons. cbn [fst snd]. split; [done|].
    by apply Forall_app.
Qed.

(** X4. A connection that asks for no role, or for the debugger role
    while a debugger is registered, is closed with code 1011 and changes
    nothing.  If the broker knew nothing of that socket, it never touches
    it again: no later operation is applied to it, and whatever the
    socket delivers is ignored. *)
Theorem turned_away_is_inert (st : State) (ws : Socket) (url : string) :
  turned_away st url ->
  unknown st ws ->
  (exists reason, step st (Connection ws url) = (st, [Close ws 1011 reason]))
  /\ (forall evs,
        ws ∉ connections evs ->
        Forall (fun op => target op <> ws) (run st evs).2
        /\ forall ev, from_socket ws ev ->
             step (run st evs).1 ev = ((run st evs).1, [])).
Proof.
  intros Hturn Hu. split.
  - simpl. unfold connection.
    destruct Hturn as [-> | [-> Hd]]; [eauto|].
    destruct (debuggerSocket st); [eauto|done].
  - intros evs Hevs.
    destruct (unknown_run st ws evs Hu Hevs) as [(Hcb & _ & _) Hops].
    split; [done|]. intros ev Hev. by apply (silent_socket _ ws).
Qed.

Lemma turned_away_is_inert_witness :
  let st := (run init [Connection 1 "/debugger-proxy?role=debugger"]).1 in
  (exists reason,
     step st (Connection 2 "/debugger-proxy") = (st, [Close 2 1011 reason]))
  /\ step (run st [Connection 3 "/debugger-proxy?role=client";
                   MessageEv 1 "{}"]).1 (MessageEv 2 "{}")
     = ((run st [Connection 3 "/debugger-proxy?role=client";
                 MessageEv 1 "{}"]).1, []).
Proof.
  intros st.
  assert (unknown st 2) as Hu by (repeat split; discriminate).
  pose proof (turned_away_is_inert st 2 "/debugger-proxy"
                (or_introl eq_refl) Hu) as [H1 H2].
  split; [exact H1|].
  apply (H2 [Connection 3 "/debugger-proxy?role=client"; MessageEv 1 "{}"]).
  - apply (bool_decide_unpack _). vm_compute. exact I.
  - right. by exists "{}".
Defined.

End ProxyMore.

(* ===================================================================== *)
(** ** More properties of the Hot Module Replacement server *)
(* ===================================================================== *)

Module HMRMore.
Import HMR HMRFacts.

(** *** The snapshot of the local [getDependencies] *)

(** The entries of the map of shallow dependencies (lines 70-73). *)
Lemma shallow_entries co deps infos (m : gmap string (list string)) p :
  Forall2 (fun dep info =>
             di_path info = path dep
             /\ if is_leaf dep then di_deps info = []
                else ps_getShallowDependencies co (path dep)
                     = inr (di_deps info)) deps infos ->
  (is_Some (fold_left (fun (o : gmap string (list string)) info =>
                         <[di_path info := di_deps info]> o) infos m !! p)
   <-> is_Some (m !! p) \/ p ∈ path <$> deps)
  /\ forall ds,
       fold_left (fun (o : gmap string (list string)) info =>
                    <[di_path info := di_deps info]> o) infos m !! p = Some ds ->
       m !! p = Some ds
       \/ exists dep, dep ∈ deps /\ path dep = p
                      /\ if is_leaf dep then ds = []
                         else ps_getShallowDependencies co p = inr ds.
Proof.
  intros H. revert m. induction H as [|dep info deps infos [Hp Hd] _ IH];
    intros m; cbn [fold_left].
  - split; [|auto]. split; [auto|].
    intros [H|H]; [done|]. by apply elem_of_nil in H.
  - destruct (IH (<[di_path info := di_deps info]> m)) as [IH1 IH2].
    split.
    + rewrite IH1, fmap_cons, elem_of_cons, Hp, lookup_insert.
      case_decide as Hdec; [|intuition congruence].
      split; [auto|]. intros _. left. by eexists.
    + intros ds Hds. destruct (IH2 ds Hds) as [Hm|(d & Hin & Hpd & Hleaf)].
      * rewrite lookup_insert in Hm. case_decide as Hdec; [|by left].
        injection Hm as <-. right. exists dep.
        split; [by left|]. split; [congruence|].
        destruct (is_leaf dep); [done|]. congruence.
      * right. exists d. split; [by right | done].
Qed.





(** The names may resolve in another order: the shallow dependencies are
    then asked in that order. *)
Example requests_follow_the_names :
  (getDependencies world_late_names "ios" "/app/A.js" idle).2
  = [GetDependencies {| opt_platform := "ios"; opt_dev := true;
                        opt_entryFile := "/app/A.js"; opt_recursive := None |};
     GetShallowDependencies "/app/D.js"; GetShallowDependencies "/app/A.js";
     GetShallowDependencies "/app/B.js"; GetShallowDependencies "/app/C.js";
     GetInverseDependencies (mkResponse [mA; mB; mC; mD] "/app/A.js")].
Proof. reflexivity. Qed.

(** *** Connections that fail *)

Lemma shallow_requests_are_requests deps l :
  ~ In (SetHMRFileChangeListener l) (shallow_requests deps).
Proof.
  unfold shallow_requests. intros H.
  apply list_elem_of_In, list_elem_of_fmap in H as (dep & H & _). discriminate.
Qed.

Lemma bind_effects {A B} (p : M A) (f : A -> M B) st :
  ((p ≫= f) st).2
  = (p st).2 ++ match (p st).1.1 with
                | inr a => (f a (p st).1.2).2
                | inl _ => []
                end.
Proof.
  rewrite bind_run. destruct (p st) as [[[e|a] st1] effs1]; simpl.
  - by rewrite app_nil_r.
  - by destruct (f a st1) as [[r st2] effs2].
Qed.

(** What the local [getDependencies] asks, whatever its outcome. *)
Lemma getDependencies_effects co platform bundleEntry st e :
  In e (getDependencies co platform bundleEntry st).2 ->
  (exists o, e = GetDependencies o)
  \/ (exists p, e = GetShallowDependencies p)
  \/ (exists r, e = GetInverseDependencies r).
Proof.
  unfold getDependencies. rewrite bind_effects, await_run. cbn [fst snd].
  intros H. apply in_app_iff in H as [[<-|[]]|H]; [left; by eexists|].
  revert H.
  destruct (ps_getDependencies co _) as [reason|response]; [done|].
  rewrite bind_effects. intros H. apply in_app_iff in H as [H|H].
  { apply all_effects in H as (p & Hp & Hin).
    apply list_elem_of_fmap in Hp as (dep & -> & _).
    rewrite dependency_calls in Hin. destruct (is_leaf dep); [done|].
    destruct Hin as [<-|[]]. right. left. by eexists. }
  destruct (all _ _ _).1.1 as [reason|infos]; [done|].
  cbv zeta in H. rewrite bind_effects in H. apply in_app_iff in H as [H|H].
  { apply all_effects in H as (p & Hp & Hin).
    apply list_elem_of_fmap in Hp as (dep & -> & _). destruct Hin. }
  destruct (all _ _ _).1.1 as [reason|named]; [done|].
  rewrite bind_effects, await_run in H. cbn [fst snd] in H.
  apply in_app_iff in H as [[<-|[]]|H]; [right; right; by eexists|].
  by destruct (getInverseDependencies co response).
Qed.

Lemma getDependencies_sets_no_listener co platform bundleEntry st l :
  ~ In (SetHMRFileChangeListener l) (getDependencies co platform bundleEntry st).2.
Proof.
  intros H.
  by apply getDependencies_effects in H as [[o H]|[[p H]|[r H]]].
Qed.

(** X7. When the resolution of a new connection fails and nothing
    interferes, the session and the listener of an earlier connection
    stay and the packager is not told of a new listener; the reason of
    the failure is not handled: the chain ends with [done()], which
    throws it as an exception nobody catches, after what
    [getDependencies] asked. *)
Theorem failed_connection_is_uncaught
    co socket platform bundleEntry st reason st1 effs :
  undisturbed st ->
  onConnection co socket platform bundleEntry st = (inl reason, st1, effs) ->
  st1 = st
  /\ (exists asked,
        getDependencies co platform bundleEntry st = (inl reason, st, asked)
        /\ effs = asked ++ [UncaughtException reason])
  /\ forall l, ~ In (SetHMRFileChangeListener l) effs.
Proof.
  intros Hq H. unfold onConnection in H.
  apply done_inl in H as (asked & H & ->). rewrite bind_run in H.
  pose proof (getDependencies_quiet co platform bundleEntry st Hq) as Hst.
  pose proof (getDependencies_sets_no_listener co platform bundleEntry st) as Hl.
  destruct (getDependencies co platform bundleEntry st) as [[[e0|s] sa] ea].
  - injection H as <- <- <-. simpl in Hst. subst sa.
    split; [done|]. split; [by exists ea|].
    intros l Hin. apply in_app_iff in Hin as [Hin|[Hin|[]]]; [|done].
    by apply (Hl l).
  - rewrite bind_run in H. simpl in H. discriminate.
Qed.

Lemma failed_connection_is_uncaught_witness :
  onConnection world_broken 9 "android" "/app/A.js" connected
  = (inl (Raised transform_error), connected,
     [GetDependencies {| opt_platform := "android"; opt_dev := true;
                         opt_entryFile := "/app/A.js"; opt_recursive := None |};
      GetShallowDependencies "/app/A.js";
      UncaughtException (Raised transform_error)]).
Proof.
  destruct (onConnection world_broken 9 "android" "/app/A.js" connected)
    as [[[e|[]] st1] effs] eqn:H; [|vm_compute in H; discriminate].
  destruct (failed_connection_is_uncaught world_broken 9 "android"
              "/app/A.js" connected e st1 effs eq_refl H) as (-> & _ & _).
  vm_compute in H. injection H as <- <-. reflexivity.
Defined.

(** *** Cycles that nothing interferes with *)

(** X8. A removed file.  When the promise of the watcher is rejected, the
    listener sends [update-start], asks the packager nothing, builds no
    bundle, and sends [update-done] to the client that is connected
    then; the session is not touched. *)
Theorem removed_file_cycle co inv file e st c :
  client st = Some c ->
  hmrFileChangeListener co inv file (inl e) st
  = (match client (interfered st) with
     | Some _ => inr tt
     | None => inl (Raised TypeError)
     end,
     interfered st,
     WsSend (ws c) UpdateStart
     :: match client (interfered st) with
        | Some c2 => [WsSend (ws c2) UpdateDone]
        | None => []
        end).
Proof.
  intros Hc.
  destruct (listener_run co inv file (inl e) st c Hc)
    as (r & st2 & effs & Ha & Hl).
  simpl in Ha. injection Ha as <- <- <-. exact Hl.
Qed.

Lemma removed_file_cycle_witness :
  hmrFileChangeListener world_after [("B", ["A"])] "/app/B.js"
    (inl (Raised transform_error)) connected
  = (inr tt, connected, [WsSend 7 UpdateStart; WsSend 7 UpdateDone]).
Proof.
  exact (removed_file_cycle world_after [("B", ["A"])] "/app/B.js"
           (Raised transform_error) connected sample_client eq_refl).
Defined.

(** X9. A file outside the bundle.  When nothing interferes and the
    changed file has no entry in the shallow dependencies of the session
    and requires nothing, the listener asks for the shallow dependencies
    of the file and for its resolution, and stops there: no bundle is
    built, no [update] is sent, the session stays as it was, and
    [update-done] follows [update-start]. *)
Theorem change_outside_the_bundle co inv file st c response :
  undisturbed st ->
  client st = Some c ->
  shallowDependencies c !! file = None ->
  ps_getShallowDependencies co file = inr [] ->
  ps_getDependencies co (shallow_options c file) = inr response ->
  hmrFileChangeListener co inv file (inr tt) st
  = (inr tt, st,
     [WsSend (ws c) UpdateStart;
      GetShallowDependencies file;
      GetDependencies (shallow_options c file);
      WsSend (ws c) UpdateDone]).
Proof.
  intros Hq Hc Hnone Hd Hr.
  assert (classify c file [] = ShallowEquivalent) as Hcl.
  { unfold classify. by rewrite Hnone. }
  pose proof (shallow_pipeline co inv file st c [] response Hq Hc Hd Hcl Hr)
    as Hp. cbv zeta in Hp. rewrite Hnone in Hp.
  by rewrite (cycle_from_pipeline co inv file st c None _ Hq Hc Hp).
Qed.

Lemma change_outside_the_bundle_witness :
  hmrFileChangeListener world_before [("B", ["A"])] "/app/notes.js"
    (inr tt) connected
  = (inr tt, connected,
     [WsSend 7 UpdateStart;
      GetShallowDependencies "/app/notes.js";
      GetDependencies {| opt_platform := "ios"; opt_dev := true;
                         opt_entryFile := "/app/notes.js";
                         opt_recursive := Some true |};
      WsSend 7 UpdateDone]).
Proof.
  exact (change_outside_the_bundle world_before [("B", ["A"])] "/app/notes.js"
           connected sample_client (mkResponse [mA; mB] "/app/notes.js")
           eq_refl eq_refl eq_refl eq_refl eq_refl).
Defined.

(** X10. A shallow-equivalent change of a file of the bundle, when
    nothing interferes and the packager answers: the bundler is asked
    once, for a response that holds the module of the file alone; a
    bundle that is not empty is sent as one [update], carrying the map
    the listener captured; an empty bundle is not sent; in both cases
    [update-done] ends the cycle and the session, with its caches, is
    what it was. *)
Theorem shallow_cycle co inv file st c deps response b :
  undisturbed st ->
  client st = Some c ->
  shallowDependencies c !! file = Some deps ->
  ps_getShallowDependencies co file = inr deps ->
  ps_getDependencies co (shallow_options c file) = inr response ->
  let options :=
    {| bo_entryFile := bundleEntry c; bo_platform := platform c;
       bo_resolutionResponse :=
         Response (copy response [ps_getModuleForPath co file]) |} in
  let host := packagerHost (httpServer_address co) in
  let port := port (httpServer_address co) in
  ps_buildBundleForHMR co options host port = inr b ->
  hmrFileChangeListener co inv file (inr tt) st
  = (inr tt, st,
     [WsSend (ws c) UpdateStart;
      GetShallowDependencies file;
      GetDependencies (shallow_options c file);
      BuildBundleForHMR options host port]
     ++ (if isEmpty b then [] else [WsSend (ws c) (update_of inv b)])
     ++ [WsSend (ws c) UpdateDone]).
Proof.
  intros Hq Hc Hsome Hd Hr options host port Hb.
  assert (classify c file deps = ShallowEquivalent) as Hcl.
  { by apply classify_cached. }
  pose proof (shallow_pipeline co inv file st c deps response Hq Hc Hd Hcl Hr)
    as Hp. cbv zeta in Hp. rewrite Hsome in Hp.
  fold options host port in Hp. rewrite Hb in Hp.
  rewrite (cycle_from_pipeline co inv file st c _ _ Hq Hc Hp).
  by destruct (isEmpty b).
Qed.

Lemma shallow_cycle_witness :
  hmrFileChangeListener world_before [("B", ["A"])] "/app/A.js"
    (inr tt) connected
  = (inr tt, connected,
     [WsSend 7 UpdateStart;
      GetShallowDependencies "/app/A.js";
      GetDependencies {| opt_platform := "ios"; opt_dev := true;
                         opt_entryFile := "/app/A.js";
                         opt_recursive := Some true |};
      BuildBundleForHMR
        {| bo_entryFile := "/app/A.js"; bo_platform := "ios";
           bo_resolutionResponse := Response (mkResponse [mA] "/app/A.js") |}
        "localhost" 8081;
      WsSend 7 (update_of [("B", ["A"])] sample_bundle);
      WsSend 7 UpdateDone]).
Proof.
  exact (shallow_cycle world_before [("B", ["A"])] "/app/A.js" connected
           sample_client ["B"] (mkResponse [mA; mB] "/app/A.js") sample_bundle
           eq_refl eq_refl eq_refl eq_refl eq_refl eq_refl).
Defined.

(** X11. When nothing interferes, every frame of a cycle goes to the
    socket of the session, whatever the packager answers. *)
Theorem frames_go_to_the_session co inv file stat st c l to m :
  calm c l st ->
  In (WsSend to m) (hmrFileChangeListener co inv file stat st).2 ->
  to = ws c.
Proof. apply calm_frames. Qed.

Lemma frames_go_to_the_session_witness :
  In (WsSend 7 UpdateDone)
     (hmrFileChangeListener world_after [("B", ["A"])] "/app/A.js"
        (inr tt) connected).2
  /\ 7 = ws sample_client.
Proof.
  assert (In (WsSend 7 UpdateDone)
            (hmrFileChangeListener world_after [("B", ["A"])] "/app/A.js"
               (inr tt) connected).2) as Hin
    by (vm_compute; auto 20).
  split; [exact Hin|].
  apply (frames_go_to_the_session world_after [("B", ["A"])] "/app/A.js"
           (inr tt) connected sample_client (Some [("B", ["A"])])
           7 UpdateDone); [|exact Hin].
  split; [reflexivity|]. split; [reflexivity|].
  exists sample_client. repeat split.
Defined.

(** X12. Once a structural change has been taken in, the same content is
    no longer a change of the dependencies: for a file of the new graph
    that is neither an asset nor a JSON file, the list the packager
    answers is the list the new snapshot caches, so the session updated
    from the snapshot classifies it shallow-equivalent. *)
Theorem settles_after_structural_change
    co platform bundleEntry st s st1 effs file ds :
  getDependencies co platform bundleEntry st = (inr s, st1, effs) ->
  file ∈ path <$> dependencies (snap_resolutionResponse s) ->
  (forall dep, dep ∈ dependencies (snap_resolutionResponse s) ->
               path dep = file -> is_leaf dep = false) ->
  ps_getShallowDependencies co file = inr ds ->
  forall c, classify (invalidate c s) file ds = ShallowEquivalent.
Proof.
  intros H Hin Hleaf Hds c.
  destruct (getDependencies_result co _ _ _ _ _ _ H)
    as (_ & _ & _ & _ & (infos & Hinfos & Hmap) & _).
  destruct (shallow_entries co _ _ ∅ file Hinfos) as [Hdom Hentry].
  rewrite <- Hmap in Hdom, Hentry.
  destruct (proj2 Hdom (or_intror Hin)) as [ds' Hds'].
  destruct (Hentry ds' Hds') as [Hm|(dep & Hd & Hp & Hdep)];
    [by rewrite lookup_empty in Hm|].
  rewrite (Hleaf dep Hd Hp), Hds in Hdep. injection Hdep as <-.
  by apply classify_cached.
Qed.

Lemma settles_after_structural_change_witness :
  classify (invalidate sample_client sample_snapshot) "/app/A.js"
    ["B"; "C"; "D"]
  = ShallowEquivalent.
Proof.
  apply (settles_after_structural_change world_after "ios" "/app/A.js"
           connected sample_snapshot connected sample_effects "/app/A.js"
           ["B"; "C"; "D"] eq_refl).
  - apply (bool_decide_unpack _). vm_compute. exact I.
  - intros dep Hdep _. simpl in Hdep.
    repeat (apply elem_of_cons in Hdep as [->|Hdep]; [reflexivity|]).
    by apply elem_of_nil in Hdep.
  - reflexivity.
Defined.

(** *** The module index and the modules of an update *)

Lemma get_set_eq {V} (o : JSObject.t V) k v k' :
  JSObject.get (JSObject.set o k v) k'
  = if String.eqb k k' then Some v else JSObject.get o k'.
Proof.
  induction o as [|[k0 v0] o IH]; simpl.
  - done.
  - destruct (String.eqb_spec k0 k) as [->|Hne]; simpl.
    + by destruct (String.eqb k k').
    + rewrite IH. destruct (String.eqb_spec k0 k') as [->|Hne'].
      * destruct (String.eqb_spec k k'); [congruence | done].
      * done.
Qed.

Lemma module_index_entries deps (o : JSObject.t HasteModule) k :
  (is_Some (JSObject.get
              (fold_left (fun o dep => JSObject.set o (getName dep) dep) deps o) k)
   <-> is_Some (JSObject.get o k) \/ k ∈ getName <$> deps)
  /\ forall m,
       JSObject.get
         (fold_left (fun o dep => JSObject.set o (getName dep) dep) deps o) k
       = Some m ->
       JSObject.get o k = Some m \/ (m ∈ deps /\ getName m = k).
Proof.
  revert o. induction deps as [|d deps IH]; intros o; cbn [fold_left].
  - split; [|auto]. split; [auto|].
    intros [H|H]; [done|]. by apply elem_of_nil in H.
  - destruct (IH (JSObject.set o (getName d) d)) as [IH1 IH2]. split.
    + rewrite IH1, fmap_cons, elem_of_cons, get_set_eq.
      destruct (String.eqb_spec (getName d) k) as [Heq|Hne];
        [|intuition congruence].
      split; [auto|]. intros _. left. by eexists.
    + intros m Hm. destruct (IH2 m Hm) as [Hs|[Hin Hn]].
      * rewrite get_set_eq in Hs.
        destruct (String.eqb_spec (getName d) k) as [Heq|Hne]; [|by left].
        injection Hs as <-. right. split; [by left | done].
      * right. split; [by right | done].
Qed.

(** X13. The module index of lines 75-82 has an entry for exactly the
    names of the modules the resolver returned; the module stored under
    a name is one of the returned modules and has that name; and when
    the names are pairwise different every returned module is stored
    under its own name. *)
Theorem module_index_lookup (deps : list HasteModule) :
  (forall k, is_Some (JSObject.get (module_index deps) k)
             <-> k ∈ getName <$> deps)
  /\ (forall k m, JSObject.get (module_index deps) k = Some m ->
                  m ∈ deps /\ getName m = k)
  /\ (NoDup (getName <$> deps) ->
      forall d, d ∈ deps -> JSObject.get (module_index deps) (getName d) = Some d).
Proof.
  unfold module_index. split; [|split].
  - intros k. rewrite (proj1 (module_index_entries deps JSObject.empty k)).
    split; [intros [[? ?]|?]; done | auto].
  - intros k m Hm.
    destruct (proj2 (module_index_entries deps JSObject.empty k) m Hm);
      [discriminate | done].
  - intros Hnd d Hd. fold (module_index deps).
    rewrite module_index_plain by done.
    apply JSObjectFacts.get_elem_of.
    + by rewrite <- list_fmap_compose.
    + apply list_elem_of_fmap. by exists d.
Qed.

Lemma module_index_lookup_witness :
  JSObject.get (module_index [mA; mB; mC]) (getName mB) = Some mB.
Proof.
  apply (proj2 (proj2 (module_index_lookup [mA; mB; mC]))).
  - apply (bool_decide_unpack _). vm_compute. exact I.
  - apply elem_of_cons. right. apply elem_of_cons. by left.
Defined.

(** X14. What an update after a structural change holds.  Every module
    of the list other than the module of the changed file is stored in
    the new module index under a name the index of the session does not
    have; and when the new index has no such name (requires were only
    removed, say) the list is the module of the changed file alone. *)
Theorem update_holds_only_new_modules changed old new :
  (forall m, In m (modulesToUpdate changed old new) ->
             m = changed
             \/ exists k, JSObject.get new k = Some m
                          /\ JSObject.get old k = None)
  /\ ((forall k, is_Some (JSObject.get new k) -> is_Some (JSObject.get old k)) ->
      modulesToUpdate changed old new = [changed]).
Proof.
  rewrite modulesToUpdate_spec. unfold newly_discovered, discovery_order. split.
  - intros m Hin. apply in_rev in Hin. simpl in Hin.
    destruct Hin as [<-|Hin]; [by left|]. right.
    apply list_elem_of_In, list_elem_of_fmap in Hin as ([k m'] & -> & Hin).
    apply list_elem_of_In, filter_In in Hin as [Hin Hold].
    apply list_elem_of_In, list_elem_of_omap in Hin as (k' & _ & Hk').
    exists k. simpl in *. unfold has in Hold.
    destruct (JSObject.get new k') as [m0|] eqn:E; [|done].
    injection Hk' as -> ->. split; [done|].
    by destruct (JSObject.get old k).
  - intros Hall.
    assert (List.filter (fun km : string * HasteModule => negb (has old km.1))
              (omap (fun k => match JSObject.get new k with
                              | Some m => Some (k, m)
                              | None => None
                              end) (JSObject.keys new)) = []) as ->; [|done].
    induction (JSObject.keys new) as [|k ks IH]; csimpl; [done|].
    destruct (JSObject.get new k) as [m|] eqn:E; csimpl; [|done].
    unfold has at 1. destruct (Hall k) as [m' ->]; [by rewrite E|]. done.
Qed.

Lemma update_holds_only_new_modules_witness :
  modulesToUpdate mA [("A", mA); ("B", mB)] [("A", mA)] = [mA].
Proof.
  apply (proj2 (update_holds_only_new_modules mA [("A", mA); ("B", mB)]
                  [("A", mA)])).
  intros k [m Hm]. cbn [JSObject.get] in *.
  destruct (String.eqb "A" k); [by eexists | discriminate].
Defined.

End HMRMore.


(** ** Properties of AsyncStorage *)

Module AsyncStorageFacts.
Import AsyncStorage.

(** *** Strings *)

Lemma prefix_nil s : String.prefix "" s = true.
Proof. by destruct s. Qed.

Lemma prefix_app a b : String.prefix a (a +:+ b) = true.
Proof.
  induction a as [|c a IH]; simpl; [apply prefix_nil|].
  by destruct (ascii_dec c c).
Qed.

Lemma prefix_app_l sub a b :
  String.prefix sub a = true -> String.prefix sub (a +:+ b) = true.
Proof.
  revert a. induction sub as [|c sub IH]; intros a; [intros _; apply prefix_nil|].
  destruct a as [|c' a]; simpl; [done|].
  destruct (ascii_dec c c'); [apply IH | done].
Qed.

Lemma includes_prefix s sub : String.prefix sub s = true -> includes s sub = true.
Proof. destruct s; simpl; [done|]. by intros ->. Qed.

Lemma includes_app_l a b sub :
  includes a sub = true -> includes (a +:+ b) sub = true.
Proof.
  induction a as [|c a IH]; simpl.
  - destruct sub; [|done]. intros _. apply includes_prefix, prefix_nil.
  - intros [H|H]%orb_true_iff; apply orb_true_iff.
    + left. apply (prefix_app_l sub (String c a) b H).
    + right. auto.
Qed.

Lemma includes_app_r a b sub :
  includes b sub = true -> includes (a +:+ b) sub = true.
Proof.
  intros H. induction a as [|c a IH]; simpl; [done|].
  rewrite IH. apply orb_true_r.
Qed.

Lemma length_app a b :
  String.length (a +:+ b) = String.length a + String.length b.
Proof. induction a as [|c a IH]; simpl; [done | by rewrite IH]. Qed.

Lemma app_inj_r a x y : a +:+ x = a +:+ y -> x = y.
Proof. induction a as [|c a IH]; simpl; [done|]. intros [= H]. auto. Qed.

Lemma stored_as_inj a : Inj (=) (=) (stored_as a).
Proof.
  intros x y H. unfold stored_as in H.
  apply app_inj_r in H. simpl in H. by injection H.
Qed.

Lemma stored_as_length a k :
  String.length (stored_as a k) = String.length a + 1 + String.length k.
Proof. unfold stored_as. rewrite !length_app. simpl. lia. Qed.

Lemma stored_as_allowed a b k :
  includes b a = true \/ includes k a = true ->
  keyAllowed (Str a) (stored_as b k) = true.
Proof.
  unfold keyAllowed, stored_as. simpl. intros [H|H].
  - by apply includes_app_l.
  - by do 2 apply includes_app_r.
Qed.

Lemma prefix_refl a : String.prefix a a = true.
Proof. induction a as [|c a IH]; simpl; [done|]. by destruct (ascii_dec c c). Qed.

Lemma includes_refl a : includes a a = true.
Proof. apply includes_prefix, prefix_refl. Qed.

Lemma shortest (l : list string) :
  l <> [] ->
  exists k, k ∈ l /\ forall k', k' ∈ l -> String.length k <= String.length k'.
Proof.
  induction l as [|x l IH]; [done|]. intros _. destruct l as [|y l].
  - exists x. split; [by left|]. intros k' Hk'.
    apply elem_of_cons in Hk' as [->|Hk']; [done|]. by apply elem_of_nil in Hk'.
  - destruct IH as (k & Hk & Hmin); [done|].
    destruct (decide (String.length x <= String.length k)).
    + exists x. split; [by left|]. intros k' Hk'.
      apply elem_of_cons in Hk' as [->|Hk']; [done|].
      specialize (Hmin k' Hk'). lia.
    + exists k. split; [by right|]. intros k' Hk'.
      apply elem_of_cons in Hk' as [->|Hk']; [lia | auto].
Qed.

(** *** The identifier *)

Lemma prefixKey_set a key :
  a <> "" -> prefixKey (Str a) key = Returned (stored_as a key).
Proof. by destruct a. Qed.

Lemma prefixKey_unset appID key :
  unset appID -> prefixKey appID key = Thrown "Global appID must be set.".
Proof. by intros [->|[->| ->]]. Qed.

Lemma prefixKey_returned appID key key' :
  prefixKey appID key = Returned key' ->
  exists a, appID = Str a /\ a <> "" /\ key' = stored_as a key.
Proof.
  destruct appID as [| |a]; simpl; [done|done|].
  destruct a as [|c a]; simpl; [done|]. intros [= <-]. by eexists.
Qed.

Lemma map_set a keys :
  a <> "" -> map_ (prefixKey (Str a)) keys = Returned (stored_as a <$> keys).
Proof.
  intros H. induction keys as [|k keys IH]; cbn [map_]; [done|].
  by rewrite prefixKey_set, IH.
Qed.

Lemma map_pairs_set a (kvs : list (string * string)) :
  a <> "" ->
  map_ (prefixPair (Str a)) kvs
  = Returned ((fun kv => (stored_as a kv.1, kv.2)) <$> kvs).
Proof.
  intros H. induction kvs as [|kv kvs IH]; cbn [map_]; [done|].
  unfold prefixPair at 1. by rewrite prefixKey_set, IH.
Qed.

Lemma map_unset appID keys :
  unset appID -> keys <> [] ->
  map_ (prefixKey appID) keys = Thrown "Global appID must be set.".
Proof.
  intros H Hne. destruct keys as [|k keys]; [done|].
  cbn [map_]. by rewrite prefixKey_unset.
Qed.

Lemma map_pairs_unset appID (kvs : list (string * string)) :
  unset appID -> kvs <> [] ->
  map_ (prefixPair appID) kvs = Thrown "Global appID must be set.".
Proof.
  intros H Hne. destruct kvs as [|kv kvs]; [done|].
  cbn [map_]. unfold prefixPair. by rewrite prefixKey_unset.
Qed.

Lemma map_unset_nil appID keys ks :
  unset appID -> map_ (prefixKey appID) keys = Returned ks -> ks = [].
Proof.
  intros H. destruct keys as [|k keys]; cbn [map_]; [by intros [= <-]|].
  by rewrite prefixKey_unset.
Qed.

Lemma pairs_keys a (kvs : list (string * string)) :
  ((fun kv => (stored_as a kv.1, kv.2)) <$> kvs).*1 = stored_as a <$> kvs.*1.
Proof. induction kvs as [|kv kvs IH]; csimpl; [done | by f_equal]. Qed.

(** *** The log *)

Lemma asked_call e callback args :
  asked (e :: called callback args) = native_keys e.
Proof.
  unfold asked. destruct callback; csimpl; by rewrite ?app_nil_r.
Qed.

Ltac no_callback :=
  repeat (constructor; [by intros []|]); constructor.

Lemma convertErrors_None errs : convertErrors errs = None <-> errs = NoErrors.
Proof. by destruct errs. Qed.

Lemma settle_first_resolved {A} errs (a : A) :
  (exists v, settle_first (convertErrors errs) a = Resolved v) <-> errs = NoErrors.
Proof.
  destruct errs; simpl; split; try done; try (by intros [? ?]); by eexists.
Qed.

Lemma settle_all_resolved {A} errs (a : A) :
  (exists v, settle_all (convertErrors errs) a = Resolved v) <-> errs = NoErrors.
Proof.
  destruct errs; simpl; split; try done; try (by intros [? ?]); by eexists.
Qed.

Lemma first_told {A} errs (a : A) :
  and_first errs = error_argument (settle_first errs a).
Proof. by destruct errs. Qed.

Lemma all_told {A} errs (a : A) :
  of_errors errs = error_argument (settle_all errs a).
Proof. by destruct errs. Qed.

Lemma getAllKeys_run appID native keys callback :
  native_getAllKeys native = (None, keys) ->
  getAllKeys appID native callback
  = (Returned (Resolved (List.filter (keyAllowed appID) keys)),
     GetAllKeys :: called callback [VNull; VKeys keys]).
Proof. intros H. unfold getAllKeys. by rewrite H. Qed.

Lemma multiRemove_run a native keys callback :
  a <> "" ->
  exists s,
    multiRemove (Str a) native keys callback
    = (Returned s,
       MultiRemove (stored_as a <$> keys)
       :: called callback [error_argument s]).
Proof.
  intros H. unfold multiRemove. rewrite map_set by done.
  eexists. by rewrite (all_told _ tt).
Qed.

Lemma clear_run a native keys callback :
  a <> "" ->
  native_getAllKeys native = (None, keys) ->
  (clear (Str a) native callback).2
  = [GetAllKeys;
     MultiRemove (stored_as a <$> List.filter (keyAllowed (Str a)) keys)].
Proof.
  intros H Hk. unfold clear. rewrite (getAllKeys_run _ _ keys) by done.
  destruct (multiRemove_run a native (List.filter (keyAllowed (Str a)) keys)
              false H) as [s ->].
  by destruct s.
Qed.

(** X15. What [prefixKey] returns.  It returns only when the identifier
    is a string that is not empty; the key it returns is the
    identifier, a dash and the caller's key; it is never the caller's
    key itself; [keyAllowed] accepts it; and no other key of the caller
    is sent to it. *)
Theorem prefixed_keys appID key key' :
  prefixKey appID key = Returned key' ->
  (exists a, appID = Str a /\ a <> "" /\ key' = a +:+ "-" +:+ key)
  /\ key' <> key
  /\ keyAllowed appID key' = true
  /\ forall other, prefixKey appID other = Returned key' -> other = key.
Proof.
  intros H. destruct (prefixKey_returned _ _ _ H) as (a & -> & Ha & ->).
  split; [by exists a|]. split; [|split].
  - intros Heq. apply (f_equal String.length) in Heq.
    rewrite stored_as_length in Heq. lia.
  - apply stored_as_allowed. left. apply includes_refl.
  - intros other Ho. rewrite prefixKey_set in Ho by done.
    injection Ho as Ho. by apply stored_as_inj in Ho.
Qed.

Lemma prefixed_keys_witness :
  "app-token" <> "token" /\ keyAllowed (Str "app") "app-token" = true.
Proof.
  destruct (prefixed_keys (Str "app") "token" "app-token" eq_refl)
    as (_ & H1 & H2 & _).
  by split.
Defined.

(** X16. Without an identifier no key reaches the native module.  Every
    method that takes a key throws the string of [prefixKey] before it
    asks anything, and so do [multiGet], [multiRemove] and [multiMerge]
    for a list that is not empty; [multiSet] for a list that is not
    empty does not throw: it returns a promise rejected with that
    string, and asks nothing; none of them calls the callback.  For an
    empty list, with or without an identifier, the four batch methods
    hand the empty list to the native module and call the callback.
    [clear] asks the native module for all keys; when that reports no
    error and a key holds the text of the identifier, the promise of
    [clear] is rejected with the string of [prefixKey] and nothing is
    removed; when no key holds it, the empty list is removed.  [clear]
    names no key to the native module and calls no callback. *)
Theorem unset_identifier appID native :
  unset appID ->
  (forall key callback,
     getItem appID native key callback
     = (Thrown "Global appID must be set.", []))
  /\ (forall key value callback,
        setItem appID native key value callback
        = (Thrown "Global appID must be set.", []))
  /\ (forall key callback,
        removeItem appID native key callback
        = (Thrown "Global appID must be set.", []))
  /\ (forall key value callback,
        mergeItem appID native key value callback
        = (Thrown "Global appID must be set.", []))
  /\ (forall keys callback, keys <> [] ->
        multiGet appID native keys callback
        = (Thrown "Global appID must be set.", []))
  /\ (forall keys callback, keys <> [] ->
        multiRemove appID native keys callback
        = (Thrown "Global appID must be set.", []))
  /\ (forall keyValuePairs callback, keyValuePairs <> [] ->
        multiMerge appID native keyValuePairs callback
        = (Thrown "Global appID must be set.", []))
  /\ (forall keyValuePairs callback, keyValuePairs <> [] ->
        multiSet appID native keyValuePairs callback
        = (Returned (Rejected (VString "Global appID must be set.")), []))
  /\ (forall callback,
        asked (clear appID native callback).2 = []
        /\ Forall (fun e => ~ is_callback e) (clear appID native callback).2)
  /\ (forall callback,
        multiGet appID native [] callback
        = (Returned (settle_all (convertErrors (native_multiGet native []).1)
                       (native_multiGet native []).2),
           MultiGet []
           :: called callback
                [of_errors (convertErrors (native_multiGet native []).1);
                 of_result (native_multiGet native []).2]))
  /\ (forall callback,
        multiSet appID native [] callback
        = (Returned (settle_all (convertErrors (native_multiSet native [])) tt),
           MultiSet []
           :: called callback
                [of_errors (convertErrors (native_multiSet native []))]))
  /\ (forall callback,
        multiRemove appID native [] callback
        = (Returned (settle_all (convertErrors (native_multiRemove native [])) tt),
           MultiRemove []
           :: called callback
                [of_errors (convertErrors (native_multiRemove native []))]))
  /\ (forall callback,
        multiMerge appID native [] callback
        = (Returned (settle_all (convertErrors (native_multiMerge native [])) tt),
           MultiMerge []
           :: called callback
                [of_errors (convertErrors (native_multiMerge native []))]))
  /\ (forall callback,
        (clear appID native callback).2
        = GetAllKeys
          :: match native_getAllKeys native with
             | (Some _, _) => []
             | (None, keys) =>
                 match List.filter (keyAllowed appID) keys with
                 | [] => [MultiRemove []]
                 | _ :: _ => []
                 end
             end)
  /\ (forall callback keys,
        native_getAllKeys native = (None, keys) ->
        List.filter (keyAllowed appID) keys <> [] ->
        (clear appID native callback).1
        = Returned (Rejected (VString "Global appID must be set."))).
Proof.
  intros H. repeat apply conj.
  - intros. unfold getItem. by rewrite prefixKey_unset.
  - intros. unfold setItem. by rewrite prefixKey_unset.
  - intros. unfold removeItem. by rewrite prefixKey_unset.
  - intros. unfold mergeItem. by rewrite prefixKey_unset.
  - intros. unfold multiGet. by rewrite map_unset.
  - intros. unfold multiRemove. by rewrite map_unset.
  - intros. unfold multiMerge. by rewrite map_pairs_unset.
  - intros. unfold multiSet. by rewrite map_pairs_unset.
  - intros callback. split.
    + unfold clear, getAllKeys.
      destruct (native_getAllKeys native) as [[e|] keys]; simpl; [done|].
      unfold multiRemove.
      destruct (map_ (prefixKey appID) (List.filter (keyAllowed appID) keys))
        as [ks|v] eqn:E; [|done].
      apply map_unset_nil in E as ->; [|done].
      by destruct (convertErrors (native_multiRemove native [])).
    + unfold clear, getAllKeys.
      destruct (native_getAllKeys native) as [[e|] keys]; simpl;
        [no_callback|].
      unfold multiRemove.
      destruct (map_ (prefixKey appID) (List.filter (keyAllowed appID) keys))
        as [ks|v] eqn:E; [|no_callback].
      destruct (convertErrors (native_multiRemove native ks)); no_callback.
  - intros callback. unfold multiGet. cbn [map_].
    by destruct (native_multiGet native []).
  - done.
  - done.
  - done.
  - intros callback. unfold clear, getAllKeys.
    destruct (native_getAllKeys native) as [[e|] keys]; simpl; [done|].
    unfold multiRemove.
    destruct (List.filter (keyAllowed appID) keys) as [|k ks] eqn:E.
    + cbn [map_]. by destruct (convertErrors (native_multiRemove native [])).
    + by rewrite map_unset.
  - intros callback keys Hk Hne. unfold clear, getAllKeys. rewrite Hk. simpl.
    unfold multiRemove. by rewrite map_unset.
Qed.

Lemma unset_identifier_witness :
  setItem Undefined sample_native "token" "1" true
  = (Thrown "Global appID must be set.", [])
  /\ multiSet (Str "") sample_native [("token", "1")] true
     = (Returned (Rejected (VString "Global appID must be set.")), [])
  /\ multiSet Undefined sample_native [] true
     = (Returned (Resolved tt), [MultiSet []; Callback [VNull]])
  /\ clear Null sample_native true
     = (Returned (Resolved tt), [GetAllKeys; MultiRemove []])
  /\ clear (Str "") sample_native true
     = (Returned (Rejected (VString "Global appID must be set.")), [GetAllKeys]).
Proof.
  split; [|split; [|split; [|split]]].
  - apply (unset_identifier Undefined sample_native (or_introl eq_refl)).
  - apply (unset_identifier (Str "") sample_native
             (or_intror (or_intror eq_refl))).
    discriminate.
  - apply (unset_identifier Undefined sample_native (or_introl eq_refl)).
  - reflexivity.
  - reflexivity.
Defined.

(** X17. With an identifier [a], every key a method names to the native
    module is [a], a dash and a key of the caller, in the caller's
    order; [getAllKeys] names none. *)
Theorem requests_are_namespaced a native :
  a <> "" ->
  (forall key callback,
     asked (getItem (Str a) native key callback).2 = [stored_as a key])
  /\ (forall key value callback,
        asked (setItem (Str a) native key value callback).2 = [stored_as a key])
  /\ (forall key callback,
        asked (removeItem (Str a) native key callback).2 = [stored_as a key])
  /\ (forall key value callback,
        asked (mergeItem (Str a) native key value callback).2
        = [stored_as a key])
  /\ (forall keys callback,
        asked (multiGet (Str a) native keys callback).2 = stored_as a <$> keys)
  /\ (forall keys callback,
        asked (multiRemove (Str a) native keys callback).2
        = stored_as a <$> keys)
  /\ (forall keyValuePairs callback,
        asked (multiSet (Str a) native keyValuePairs callback).2
        = stored_as a <$> keyValuePairs.*1)
  /\ (forall keyValuePairs callback,
        asked (multiMerge (Str a) native keyValuePairs callback).2
        = stored_as a <$> keyValuePairs.*1)
  /\ (forall callback, asked (getAllKeys (Str a) native callback).2 = []).
Proof.
  intros H. repeat split.
  - intros k cb. unfold getItem. rewrite prefixKey_set by done.
    destruct (native_multiGet native [stored_as a k]) as [errors result].
    apply asked_call.
  - intros k v cb. unfold setItem. rewrite prefixKey_set by done.
    apply asked_call.
  - intros k cb. unfold removeItem. rewrite prefixKey_set by done.
    apply asked_call.
  - intros k v cb. unfold mergeItem. rewrite prefixKey_set by done.
    apply asked_call.
  - intros ks cb. unfold multiGet. rewrite map_set by done.
    destruct (native_multiGet native (stored_as a <$> ks)) as [errors result].
    apply asked_call.
  - intros ks cb. unfold multiRemove. rewrite map_set by done.
    apply asked_call.
  - intros kvs cb. unfold multiSet. rewrite map_pairs_set by done. cbn [snd].
    rewrite asked_call. apply pairs_keys.
  - intros kvs cb. unfold multiMerge. rewrite map_pairs_set by done. cbn [snd].
    rewrite asked_call. apply pairs_keys.
  - intros cb. unfold getAllKeys.
    destruct (native_getAllKeys native) as [error ks].
    apply asked_call.
Qed.

Lemma requests_are_namespaced_witness :
  asked (multiSet (Str "app") sample_native [("k1", "v1"); ("k2", "v2")] false).2
  = ["app-k1"; "app-k2"].
Proof.
  assert ("app" <> "") as H by discriminate.
  apply (proj1 (proj2 (proj2 (proj2 (proj2 (proj2 (proj2
           (requests_are_namespaced "app" sample_native H)))))))).
Defined.

(** X18. The callback and the promise.  With an identifier, every method
    but [clear] first asks the native module, once, and then calls the
    callback, once, if one was given; the first argument of the callback
    is the reason the promise is rejected with, and [null] when the
    promise resolves.  [clear] never calls its callback. *)
Theorem callback_is_told_the_rejection a native callback :
  a <> "" ->
  (forall key, told (getItem (Str a) native key callback) callback)
  /\ (forall key value, told (setItem (Str a) native key value callback) callback)
  /\ (forall key, told (removeItem (Str a) native key callback) callback)
  /\ (forall key value,
        told (mergeItem (Str a) native key value callback) callback)
  /\ told (getAllKeys (Str a) native callback) callback
  /\ (forall keys, told (multiGet (Str a) native keys callback) callback)
  /\ (forall keyValuePairs,
        told (multiSet (Str a) native keyValuePairs callback) callback)
  /\ (forall keys, told (multiRemove (Str a) native keys callback) callback)
  /\ (forall keyValuePairs,
        told (multiMerge (Str a) native keyValuePairs callback) callback)
  /\ Forall (fun e => ~ is_callback e) (clear (Str a) native callback).2.
Proof.
  intros H. unfold told. repeat split; try intros k; try intros v.
  - unfold getItem. rewrite prefixKey_set by done.
    destruct (native_multiGet native [stored_as a k]) as [errors result].
    eexists _, _, _.
    split; [unfold called; by erewrite first_told | by intros []].
  - unfold setItem. rewrite prefixKey_set by done.
    eexists _, _, _.
    split; [unfold called; by erewrite first_told | by intros []].
  - unfold removeItem. rewrite prefixKey_set by done.
    eexists _, _, _.
    split; [unfold called; by erewrite first_told | by intros []].
  - unfold mergeItem. rewrite prefixKey_set by done.
    eexists _, _, _.
    split; [unfold called; by erewrite first_told | by intros []].
  - unfold getAllKeys, called.
    destruct (native_getAllKeys native) as [[e|] keys].
    + eexists (Rejected _), _, _. split; [reflexivity | by intros []].
    + eexists (Resolved _), _, _. split; [reflexivity | by intros []].
  - unfold multiGet. rewrite map_set by done.
    destruct (native_multiGet native (stored_as a <$> k)) as [errors result].
    eexists _, _, _.
    split; [unfold called; by erewrite all_told | by intros []].
  - unfold multiSet. rewrite map_pairs_set by done.
    eexists _, _, _.
    split; [unfold called; by erewrite all_told | by intros []].
  - unfold multiRemove. rewrite map_set by done.
    eexists _, _, _.
    split; [unfold called; by erewrite all_told | by intros []].
  - unfold multiMerge. rewrite map_pairs_set by done.
    eexists _, _, _.
    split; [unfold called; by erewrite all_told | by intros []].
  - unfold clear. destruct (native_getAllKeys native) as [[e|] keys] eqn:E.
    + unfold getAllKeys. rewrite E. simpl. no_callback.
    + rewrite (getAllKeys_run _ _ keys) by done.
      destruct (multiRemove_run a native
                  (List.filter (keyAllowed (Str a)) keys) false H) as [s ->].
      destruct s; simpl; no_callback.
Qed.

Lemma callback_is_told_the_rejection_witness :
  told (getItem (Str "app") sample_native "token" true) true.
Proof.
  assert ("app" <> "") as H by discriminate.
  apply (proj1 (callback_is_told_the_rejection "app" sample_native true H)).
Defined.

(** X19. What [getItem] resolves with.  The promise resolves exactly
    when the native module reports nothing as errors (an empty array of
    errors rejects it, with [undefined]); and it never resolves with the
    empty string: a key that holds the empty string reads as [null],
    like a key that holds nothing. *)
Theorem getItem_settlement appID native key callback s effs :
  getItem appID native key callback = (Returned s, effs) ->
  exists a, appID = Str a /\ a <> ""
  /\ ((exists value, s = Resolved value)
      <-> (native_multiGet native [stored_as a key]).1 = NoErrors)
  /\ ((native_multiGet native [stored_as a key]).1 = ManyErrors [] ->
      s = Rejected VUndefined)
  /\ s <> Resolved (Some "").
Proof.
  unfold getItem. intros H.
  destruct (prefixKey appID key) as [key'|v] eqn:E; [|done].
  apply prefixKey_returned in E as (a & -> & Ha & ->). exists a.
  split; [done|]. split; [done|].
  destruct (native_multiGet native [stored_as a key]) as [errors result].
  injection H as <- _. split; [|split].
  - apply settle_first_resolved.
  - simpl. by intros ->.
  - destruct errors; simpl; [|done|done].
    destruct result as [[|[k [[|c v]|]] result]|]; done.
Qed.

Lemma getItem_settlement_witness :
  (getItem (Str "app") sample_native "token" false).1
  = Returned (Resolved None).
Proof.
  destruct (getItem (Str "app") sample_native "token" false) as [c effs] eqn:E.
  destruct c as [s|v]; [|discriminate E].
  destruct (getItem_settlement _ _ _ _ _ _ E) as (a & Ha & _ & H1 & _ & H3).
  injection Ha as <-.
  destruct (proj2 H1 eq_refl) as [value ->].
  vm_compute in E. by injection E as <-.
Defined.

(** X20. The writes resolve exactly when the native module reports
    nothing as errors for the prefixed request; anything else, an empty
    array of errors too, rejects the promise. *)
Theorem writes_resolve_without_errors a native :
  a <> "" ->
  (forall key value callback,
     (exists v, (setItem (Str a) native key value callback).1
                = Returned (Resolved v))
     <-> native_multiSet native [(stored_as a key, value)] = NoErrors)
  /\ (forall key callback,
        (exists v, (removeItem (Str a) native key callback).1
                   = Returned (Resolved v))
        <-> native_multiRemove native [stored_as a key] = NoErrors)
  /\ (forall key value callback,
        (exists v, (mergeItem (Str a) native key value callback).1
                   = Returned (Resolved v))
        <-> native_multiMerge native [(stored_as a key, value)] = NoErrors)
  /\ (forall keyValuePairs callback,
        (exists v, (multiSet (Str a) native keyValuePairs callback).1
                   = Returned (Resolved v))
        <-> native_multiSet native
              ((fun kv => (stored_as a kv.1, kv.2)) <$> keyValuePairs)
            = NoErrors)
  /\ (forall keys callback,
        (exists v, (multiRemove (Str a) native keys callback).1
                   = Returned (Resolved v))
        <-> native_multiRemove native (stored_as a <$> keys) = NoErrors)
  /\ (forall keyValuePairs callback,
        (exists v, (multiMerge (Str a) native keyValuePairs callback).1
                   = Returned (Resolved v))
        <-> native_multiMerge native
              ((fun kv => (stored_as a kv.1, kv.2)) <$> keyValuePairs)
            = NoErrors).
Proof.
  intros H. split; [|split; [|split; [|split; [|split]]]];
    try intros k; try intros x; try intros y.
  - unfold setItem. rewrite prefixKey_set by done. cbn [fst].
    rewrite <- (settle_first_resolved _ tt).
    split; intros [v Hv]; exists v; congruence.
  - unfold removeItem. rewrite prefixKey_set by done. cbn [fst].
    rewrite <- (settle_first_resolved _ tt).
    split; intros [v Hv]; exists v; congruence.
  - unfold mergeItem. rewrite prefixKey_set by done. cbn [fst].
    rewrite <- (settle_first_resolved _ tt).
    split; intros [v Hv]; exists v; congruence.
  - unfold multiSet. rewrite map_pairs_set by done. cbn [fst].
    rewrite <- (settle_all_resolved _ tt).
    split; intros [v Hv]; exists v; congruence.
  - unfold multiRemove. rewrite map_set by done. cbn [fst].
    rewrite <- (settle_all_resolved _ tt).
    split; intros [v Hv]; exists v; congruence.
  - unfold multiMerge. rewrite map_pairs_set by done. cbn [fst].
    rewrite <- (settle_all_resolved _ tt).
    split; intros [v Hv]; exists v; congruence.
Qed.

Lemma writes_resolve_without_errors_witness :
  exists v, (setItem (Str "app") sample_native "token" "1" false).1
            = Returned (Resolved v).
Proof.
  assert ("app" <> "") as H by discriminate.
  apply (proj1 (writes_resolve_without_errors "app" sample_native H)).
  reflexivity.
Defined.

(** X21. What [getAllKeys] lists.  When the native module reports no
    error the promise resolves with keys of the native module, in its
    order and as it has them; every key this application stored is
    among them; and so is every key of another application whose
    identifier, or whose own key, contains this identifier. *)
Theorem getAllKeys_lists a native keys callback :
  native_getAllKeys native = (None, keys) ->
  exists listed,
    (getAllKeys (Str a) native callback).1 = Returned (Resolved listed)
    /\ sublist listed keys
    /\ (forall key, stored_as a key ∈ keys -> stored_as a key ∈ listed)
    /\ (forall b key,
          includes b a = true \/ includes key a = true ->
          stored_as b key ∈ keys -> stored_as b key ∈ listed).
Proof.
  intros H. rewrite (getAllKeys_run _ _ keys) by done.
  eexists. split; [reflexivity|].
  assert (forall b key,
            includes b a = true \/ includes key a = true ->
            stored_as b key ∈ keys ->
            stored_as b key ∈ List.filter (keyAllowed (Str a)) keys) as Hall.
  { intros b key Hin Hk. apply list_elem_of_In, filter_In.
    split; [by apply list_elem_of_In | by apply stored_as_allowed]. }
  split; [|split].
  - clear. induction keys as [|k keys IH]; simpl; [constructor|].
    destruct (keyAllowed (Str a) k); by constructor.
  - intros key. apply Hall. left. apply includes_refl.
  - exact Hall.
Qed.

Lemma getAllKeys_lists_witness :
  exists listed,
    (getAllKeys (Str "x") sample_native false).1 = Returned (Resolved listed)
    /\ "other-x" ∈ listed.
Proof.
  destruct (getAllKeys_lists "x" sample_native sample_keys false eq_refl)
    as (listed & H1 & _ & _ & H3).
  exists listed. split; [done|].
  apply (H3 "other" "x"); [by right|].
  apply (bool_decide_unpack _). vm_compute. exact I.
Defined.

(** X22. What [clear] asks to remove.  With an identifier [a], and when
    the native module lists its keys without error, [clear] asks once
    for the removal of the listed keys that [keyAllowed] accepts, each
    with the identifier put in front again.  So the key under which the
    application stored [key] is named exactly when [key] itself is a key
    of the native module that contains the identifier; and when some key
    is accepted, one of the accepted keys is not named. *)
Theorem clear_requests a native keys callback :
  a <> "" ->
  native_getAllKeys native = (None, keys) ->
  let allowed := List.filter (keyAllowed (Str a)) keys in
  let named := asked (clear (Str a) native callback).2 in
  (clear (Str a) native callback).2
  = [GetAllKeys; MultiRemove (stored_as a <$> allowed)]
  /\ (forall key,
        stored_as a key ∈ named
        <-> key ∈ keys /\ keyAllowed (Str a) key = true)
  /\ (allowed <> [] -> exists key, key ∈ allowed /\ key ∉ named).
Proof.
  intros H Hk allowed named.
  assert (named = stored_as a <$> allowed) as ->.
  { unfold named. rewrite (clear_run a native keys) by done.
    unfold asked. csimpl. by rewrite app_nil_r. }
  split; [by apply clear_run|]. split.
  - intros key. rewrite list_elem_of_fmap. unfold allowed. split.
    + intros (k & Heq & Hin). apply stored_as_inj in Heq as <-.
      apply list_elem_of_In, filter_In in Hin as [Hin Hal].
      split; [by apply list_elem_of_In | done].
    + intros [Hin Hal]. exists key. split; [done|].
      apply list_elem_of_In, filter_In. split; [by apply list_elem_of_In | done].
  - intros Hne. destruct (shortest allowed Hne) as (k & Hin & Hmin).
    exists k. split; [done|].
    intros (k' & Heq & Hin')%list_elem_of_fmap.
    specialize (Hmin k' Hin'). apply (f_equal String.length) in Heq.
    rewrite stored_as_length in Heq. lia.
Qed.

Lemma clear_requests_witness :
  (clear (Str "app") sample_native false).2
  = [GetAllKeys; MultiRemove ["app-app-token"; "app-app-app-token"]].
Proof.
  assert ("app" <> "") as H by discriminate.
  apply (proj1 (clear_requests "app" sample_native sample_keys false H eq_refl)).
Defined.

End AsyncStorageFacts.
